(** * OLSR node engine (olsrsim): shallow embedding and verification

    The per-node protocol engine of the simulator: the neighbour tables
    driven by HELLO messages, the MPR selection, the topology table fed by
    TC messages, and the tick loop that ages the tables.

    Go maps are finite maps ([gmap]); the Go [int] is a 64-bit two's
    complement integer, modelled by [Z] with its wrap-around written out;
    [NodeID] ([uint]) is only ever compared and used as a map key, never
    computed with, and is modelled by [N].  A Go panic is [None]. *)

From stdpp Require Import base option numbers list sorting gmap fin_maps fin_map_dom strings.
From stdpp Require Import pretty.
From Stdlib Require Import Ascii.

Local Open Scope Z_scope.

(** ** Machine integers *)

Definition int_min : Z := - 2 ^ 63.
Definition int_max : Z := 2 ^ 63 - 1.

Definition int_range (z : Z) : Prop := int_min ≤ z ≤ int_max.

(** Result of an [int] operation whose mathematical value is [z]. *)
Definition wrap_int (z : Z) : Z := (z + 2 ^ 63) `mod` 2 ^ 64 - 2 ^ 63.

Definition add_int (a b : Z) : Z := wrap_int (a + b).

(** Go's [%] truncates towards zero, as [Z.rem] does. *)
Definition mod_int (a b : Z) : Z := Z.rem a b.

(** ** Data model *)

(** [type NodeID uint] *)
Abbreviation NodeID := N.

(** [const ( Bidirectional NeighborState = iota; Unidirectional; MPR )];
    the zero value of the type is [Bidirectional]. *)
Inductive NeighborState : Set :=
| Bidirectional
| Unidirectional
| MPR.

#[global] Instance NeighborState_eq_dec : EqDecision NeighborState.
Proof. solve_decision. Defined.

Module OneHopNeighborEntry.
Record t : Set := mk {
  neighborID : NodeID;
  state : NeighborState;
  holdUntil : Z
}.
(** The zero value, which a Go map lookup yields for an absent key. *)
Definition zero : t := mk 0%N Bidirectional 0.
Definition with_state (s : NeighborState) (e : t) : t :=
  mk (neighborID e) s (holdUntil e).
Definition with_holdUntil (h : Z) (e : t) : t :=
  mk (neighborID e) (state e) h.
End OneHopNeighborEntry.

#[global] Instance OneHopNeighborEntry_inhabited :
  Inhabited OneHopNeighborEntry.t := populate OneHopNeighborEntry.zero.

Module TopologyEntry.
Record t : Set := mk {
  dst : NodeID;
  dstMPR : NodeID;
  msSeqNum : Z;
  holdUntil : Z
}.
Definition with_holdUntil (h : Z) (e : t) : t :=
  mk (dst e) (dstMPR e) (msSeqNum e) h.
End TopologyEntry.

Module RoutingEntry.
Record t : Set := mk {
  dst : NodeID;
  nextHop : NodeID;
  distance : Z
}.
End RoutingEntry.

Module HelloMessage.
Record t : Set := mk {
  src : NodeID;
  unidir : list NodeID;
  bidir : list NodeID;
  mpr : list NodeID
}.
End HelloMessage.

Module DataMessage.
Record t : Set := mk {
  src : NodeID;
  dst : NodeID;
  nxtHop : NodeID;
  fromnbr : NodeID;
  data : string
}.
End DataMessage.

(** [seq] is assigned from, and compared with, the [int] counters of the
    node ([tcSequenceNum], [msSeqNum]); it is an [int] here. *)
Module TCMessage.
Record t : Set := mk {
  src : NodeID;
  fromnbr : NodeID;
  seq : Z;
  ms : list NodeID
}.
Definition with_fromnbr (f : NodeID) (m : t) : t :=
  mk (src m) f (seq m) (ms m).
End TCMessage.

(** The dynamic type of a value taken from the receiver channel
    ([interface{}]); [Unknown] stands for any type other than the three
    message pointers. *)
Inductive Msg : Set :=
| Hello (m : HelloMessage.t)
| Data (m : DataMessage.t)
| TC (m : TCMessage.t)
| Unknown.

Module NodeMsg.
Record t : Set := mk {
  msg : string;
  delay : Z;
  dst : NodeID
}.
End NodeMsg.

(** The tables of a node.  The channels and the log writers of the Go
    struct are the input and the output of the functions below. *)
Module Node.
Record t : Type := mk {
  id : NodeID;
  nodeMsg : NodeMsg.t;
  topologyTable : gmap NodeID (gmap NodeID TopologyEntry.t);
  tcSequenceNum : Z;
  topologyHoldTime : Z;
  routingTable : list RoutingEntry.t;
  oneHopNeighbors : gmap NodeID OneHopNeighborEntry.t;
  twoHopNeighbors : gmap NodeID (gmap NodeID NodeID);
  msSet : gmap NodeID NodeID;
  currentTime : Z;
  neighborHoldTime : Z
}.
Definition with_topologyTable v (n : t) : t :=
  mk (id n) (nodeMsg n) v (tcSequenceNum n) (topologyHoldTime n)
     (routingTable n) (oneHopNeighbors n) (twoHopNeighbors n) (msSet n)
     (currentTime n) (neighborHoldTime n).
Definition with_tcSequenceNum v (n : t) : t :=
  mk (id n) (nodeMsg n) (topologyTable n) v (topologyHoldTime n)
     (routingTable n) (oneHopNeighbors n) (twoHopNeighbors n) (msSet n)
     (currentTime n) (neighborHoldTime n).
Definition with_oneHopNeighbors v (n : t) : t :=
  mk (id n) (nodeMsg n) (topologyTable n) (tcSequenceNum n)
     (topologyHoldTime n) (routingTable n) v (twoHopNeighbors n) (msSet n)
     (currentTime n) (neighborHoldTime n).
Definition with_twoHopNeighbors v (n : t) : t :=
  mk (id n) (nodeMsg n) (topologyTable n) (tcSequenceNum n)
     (topologyHoldTime n) (routingTable n) (oneHopNeighbors n) v (msSet n)
     (currentTime n) (neighborHoldTime n).
Definition with_msSet v (n : t) : t :=
  mk (id n) (nodeMsg n) (topologyTable n) (tcSequenceNum n)
     (topologyHoldTime n) (routingTable n) (oneHopNeighbors n)
     (twoHopNeighbors n) v (currentTime n) (neighborHoldTime n).
Definition with_currentTime v (n : t) : t :=
  mk (id n) (nodeMsg n) (topologyTable n) (tcSequenceNum n)
     (topologyHoldTime n) (routingTable n) (oneHopNeighbors n)
     (twoHopNeighbors n) (msSet n) v (neighborHoldTime n).
End Node.

(** ** HELLO reception *)

(** [updateOneHopNeighbors]: a first-time source is entered as
    [Unidirectional]; a known one gets its hold refreshed and becomes
    [Bidirectional] when this node's id is listed anywhere in the message. *)
Definition updateOneHopNeighbors (msg : HelloMessage.t)
    (oneHopNeighbors : gmap NodeID OneHopNeighborEntry.t)
    (holdUntil : Z) (id : NodeID) : gmap NodeID OneHopNeighborEntry.t :=
  match oneHopNeighbors !! HelloMessage.src msg with
  | None =>
      <[HelloMessage.src msg :=
          OneHopNeighborEntry.mk (HelloMessage.src msg) Unidirectional holdUntil]>
        oneHopNeighbors
  | Some entry =>
      let entry := OneHopNeighborEntry.with_holdUntil holdUntil entry in
      let entry :=
        if bool_decide (id ∈ HelloMessage.unidir msg ++
                             (HelloMessage.bidir msg ++ HelloMessage.mpr msg))
        then OneHopNeighborEntry.with_state Bidirectional entry
        else entry in
      <[HelloMessage.src msg := entry]> oneHopNeighbors
  end.

(** The body of the loop of [updateTwoHopNeighbors]: the node's own id is
    skipped, any other id is mapped to itself. *)
Definition addTwoHop (id : NodeID) (twoHops : gmap NodeID NodeID)
    (nodeID : NodeID) : gmap NodeID NodeID :=
  if bool_decide (nodeID = id) then twoHops else <[nodeID := nodeID]> twoHops.

(** The fresh inner map built by [updateTwoHopNeighbors] from
    [append(msg.unidir, msg.bidir...)]. *)
Definition twoHops (msg : HelloMessage.t) (id : NodeID) : gmap NodeID NodeID :=
  foldl (addTwoHop id) ∅ (HelloMessage.unidir msg ++ HelloMessage.bidir msg).

Definition updateTwoHopNeighbors (msg : HelloMessage.t)
    (twoHopNeighbors : gmap NodeID (gmap NodeID NodeID)) (id : NodeID)
    : gmap NodeID (gmap NodeID NodeID) :=
  <[HelloMessage.src msg := twoHops msg id]> twoHopNeighbors.

(** *** MPR selection *)

(** First loop of [calculateMPRs]: the keys of the two-hop table whose
    one-hop state ([oneHopNeighbors[node]], the zero entry when absent) is
    not [Unidirectional], and the union of what they announce.  The locals
    [remainingTwoHops] and [mprs] map an id to itself and are only tested
    for membership and emptiness: they are sets here.  The order in which
    Go ranges over the table does not matter, [nodes] being sorted next. *)
Definition gatherStep (oneHopNeighbors : gmap NodeID OneHopNeighborEntry.t)
    (acc : list NodeID * gset NodeID) (kv : NodeID * gmap NodeID NodeID)
    : list NodeID * gset NodeID :=
  let '(nodes, remainingTwoHops) := acc in
  let '(node, v) := kv in
  if bool_decide (OneHopNeighborEntry.state (oneHopNeighbors !!! node)
                  = Unidirectional)
  then (nodes, remainingTwoHops)
  else (nodes ++ [node], remainingTwoHops ∪ dom v).

Definition gatherCandidates
    (oneHopNeighbors : gmap NodeID OneHopNeighborEntry.t)
    (twoHopNeighbors : gmap NodeID (gmap NodeID NodeID))
    : list NodeID * gset NodeID :=
  foldl (gatherStep oneHopNeighbors) ([], ∅) (map_to_list twoHopNeighbors).

(** [sort.SliceStable(nodes, nodes[i] < nodes[j])] *)
Definition sortNodes (nodes : list NodeID) : list NodeID :=
  merge_sort N.le nodes.

(** The [for len(remainingTwoHops) > 0] loop; [nodes[0]] on an empty slice
    panics. *)
Fixpoint selectLoop (twoHopNeighbors : gmap NodeID (gmap NodeID NodeID))
    (nodes : list NodeID) (remainingTwoHops mprs : gset NodeID)
    : option (gset NodeID) :=
  if decide (remainingTwoHops = ∅) then Some mprs
  else match nodes with
       | [] => None
       | maxTwoHopsID :: nodes =>
           selectLoop twoHopNeighbors nodes
             (remainingTwoHops ∖ dom (twoHopNeighbors !!! maxTwoHopsID))
             ({[maxTwoHopsID]} ∪ mprs)
       end.

Definition selectMPRs (oneHopNeighbors : gmap NodeID OneHopNeighborEntry.t)
    (twoHopNeighbors : gmap NodeID (gmap NodeID NodeID))
    : option (gset NodeID) :=
  let '(nodes, remainingTwoHops) :=
    gatherCandidates oneHopNeighbors twoHopNeighbors in
  selectLoop twoHopNeighbors (sortNodes nodes) remainingTwoHops ∅.

(** Last loop of [calculateMPRs], on one entry. *)
Definition assignState (mprs : gset NodeID) (id : NodeID)
    (neigh : OneHopNeighborEntry.t) : OneHopNeighborEntry.t :=
  if decide (id ∈ mprs) then OneHopNeighborEntry.with_state MPR neigh
  else if decide (OneHopNeighborEntry.state neigh = MPR)
       then OneHopNeighborEntry.with_state Bidirectional neigh
       else neigh.

Definition assignStates (mprs : gset NodeID)
    (oneHopNeighbors : gmap NodeID OneHopNeighborEntry.t)
    : gmap NodeID OneHopNeighborEntry.t :=
  map_imap (λ id neigh, Some (assignState mprs id neigh)) oneHopNeighbors.

Definition calculateMPRs (oneHopNeighbors : gmap NodeID OneHopNeighborEntry.t)
    (twoHopNeighbors : gmap NodeID (gmap NodeID NodeID))
    : option (gmap NodeID OneHopNeighborEntry.t) :=
  mprs ← selectMPRs oneHopNeighbors twoHopNeighbors;
  Some (assignStates mprs oneHopNeighbors).

(** The MS-set update at the end of [handleHello]. *)
Definition updateMSSet (msg : HelloMessage.t) (id : NodeID)
    (msSet : gmap NodeID NodeID) : gmap NodeID NodeID :=
  let ok := bool_decide (is_Some (msSet !! HelloMessage.src msg)) in
  let isMS := bool_decide (id ∈ HelloMessage.mpr msg) in
  let msSet := if ok && negb isMS then delete (HelloMessage.src msg) msSet
               else msSet in
  if negb ok && isMS
  then <[HelloMessage.src msg := HelloMessage.src msg]> msSet
  else msSet.

Definition handleHello (msg : HelloMessage.t) (n : Node.t) : option Node.t :=
  let oneHop :=
    updateOneHopNeighbors msg (Node.oneHopNeighbors n)
      (add_int (Node.currentTime n) (Node.neighborHoldTime n)) (Node.id n) in
  let twoHop := updateTwoHopNeighbors msg (Node.twoHopNeighbors n) (Node.id n) in
  oneHop ← calculateMPRs oneHop twoHop;
  Some (Node.with_msSet (updateMSSet msg (Node.id n) (Node.msSet n))
          (Node.with_twoHopNeighbors twoHop
             (Node.with_oneHopNeighbors oneHop n))).

(** ** TC reception *)

(** One iteration of the loop of [updateTopologyTable], for [dst] of
    [msg.ms]. *)
Definition updateTopologyEntry (msg : TCMessage.t) (holdUntil : Z)
    (topologyTable : gmap NodeID (gmap NodeID TopologyEntry.t)) (dst : NodeID)
    : gmap NodeID (gmap NodeID TopologyEntry.t) :=
  let fresh :=
    TopologyEntry.mk dst (TCMessage.src msg) (TCMessage.seq msg) holdUntil in
  match topologyTable !! dst with
  | None => <[dst := {[TCMessage.src msg := fresh]}]> topologyTable
  | Some entries =>
      match entries !! TCMessage.src msg with
      | None => <[dst := <[TCMessage.src msg := fresh]> entries]> topologyTable
      | Some entry =>
          if bool_decide (TopologyEntry.msSeqNum entry < TCMessage.seq msg)
          then <[dst := <[TCMessage.src msg :=
                            TopologyEntry.with_holdUntil holdUntil entry]>
                          entries]> topologyTable
          else topologyTable
      end
  end.

Definition updateTopologyTable (msg : TCMessage.t)
    (topologyTable : gmap NodeID (gmap NodeID TopologyEntry.t))
    (holdUntil : Z) : gmap NodeID (gmap NodeID TopologyEntry.t) :=
  foldl (updateTopologyEntry msg holdUntil) topologyTable (TCMessage.ms msg).

(** [handleTC] returns the node and what it puts on the transmitter.  The
    Go code overwrites [fromnbr] in the message it was handed and sends that
    same message on. *)
Definition handleTC (msg : TCMessage.t) (n : Node.t) : Node.t * list Msg :=
  if bool_decide (TCMessage.src msg = Node.id n) then (n, [])
  else
    (Node.with_topologyTable
       (updateTopologyTable msg (Node.topologyTable n)
          (add_int (Node.currentTime n) (Node.topologyHoldTime n))) n,
     [TC (TCMessage.with_fromnbr (Node.id n) msg)]).

(** [handleData] only prints. *)
Definition handleData (msg : DataMessage.t) (n : Node.t) : Node.t := n.

(** [handler]: the type switch; any other dynamic type panics. *)
Definition handler (msg : Msg) (n : Node.t) : option (Node.t * list Msg) :=
  match msg with
  | Hello m => n' ← handleHello m n; Some (n', [])
  | Data m => Some (handleData m n, [])
  | TC m => Some (handleTC m n)
  | Unknown => None
  end.

(** ** Periodic emissions *)

(** The ids of the one-hop entries in a given state, in the order the
    table is ranged over (unspecified in Go; that of [map_to_list] here). *)
Definition neighborsInState (s : NeighborState)
    (oneHopNeighbors : gmap NodeID OneHopNeighborEntry.t) : list NodeID :=
  foldl (λ acc '(_, o), if decide (OneHopNeighborEntry.state o = s)
                         then acc ++ [OneHopNeighborEntry.neighborID o]
                         else acc)
        [] (map_to_list oneHopNeighbors).

Definition sendHello (n : Node.t) : list Msg :=
  [Hello (HelloMessage.mk (Node.id n)
            (neighborsInState Unidirectional (Node.oneHopNeighbors n))
            (neighborsInState Bidirectional (Node.oneHopNeighbors n))
            (neighborsInState MPR (Node.oneHopNeighbors n)))].

Definition sendTC (n : Node.t) : Node.t * list Msg :=
  let msSet := foldl (λ acc '(_, id), acc ++ [id]) [] (map_to_list (Node.msSet n)) in
  (Node.with_tcSequenceNum (add_int (Node.tcSequenceNum n) 1) n,
   [TC (TCMessage.mk (Node.id n) (Node.id n) (Node.tcSequenceNum n) msSet)]).

(** ** Ageing *)

(** The sweep of the neighbour tables: an expired one-hop entry is deleted
    together with the two-hop set under the same key. *)
Definition evictNeighbor (now : Z) (k : NodeID) (entry : OneHopNeighborEntry.t)
    (tables : gmap NodeID OneHopNeighborEntry.t * gmap NodeID (gmap NodeID NodeID))
    : gmap NodeID OneHopNeighborEntry.t * gmap NodeID (gmap NodeID NodeID) :=
  let '(oneHop, twoHop) := tables in
  if bool_decide (OneHopNeighborEntry.holdUntil entry ≤ now)
  then (delete k oneHop, delete k twoHop)
  else (oneHop, twoHop).

Definition evictNeighbors (now : Z)
    (oneHopNeighbors : gmap NodeID OneHopNeighborEntry.t)
    (twoHopNeighbors : gmap NodeID (gmap NodeID NodeID))
    : gmap NodeID OneHopNeighborEntry.t * gmap NodeID (gmap NodeID NodeID) :=
  map_fold (evictNeighbor now) (oneHopNeighbors, twoHopNeighbors) oneHopNeighbors.

(** The sweep of the topology table deletes inside the inner maps, which
    stay in the table even when emptied. *)
Definition evictTopology (now : Z)
    (topologyTable : gmap NodeID (gmap NodeID TopologyEntry.t))
    : gmap NodeID (gmap NodeID TopologyEntry.t) :=
  (λ dst, filter (λ '(_, entry), ¬ TopologyEntry.holdUntil entry ≤ now) dst)
    <$> topologyTable.

(** ** The tick loop *)

(** The [select] of the loop body: [incoming] is a message taken from the
    receiver, or nothing (the [default] case).  The message is also written
    to the input log, which [NewNode] sets to a writer that discards. *)
Definition dispatch (incoming : option Msg) (n : Node.t)
    : option (Node.t * list Msg) :=
  match incoming with
  | Some msg => handler msg n
  | None => Some (n, [])
  end.

(** The periodic emissions: a HELLO every 5 ticks, a TC every 10; the data
    message branch of the loop is empty. *)
Definition emit (n : Node.t) : Node.t * list Msg :=
  let out2 := if bool_decide (mod_int (Node.currentTime n) 5 = 0)
              then sendHello n else [] in
  let '(n, out3) := if bool_decide (mod_int (Node.currentTime n) 10 = 0)
                    then sendTC n else (n, []) in
  (n, out2 ++ out3).

(** The two sweeps. *)
Definition evict (n : Node.t) : Node.t :=
  let '(oneHop, twoHop) :=
    evictNeighbors (Node.currentTime n) (Node.oneHopNeighbors n)
      (Node.twoHopNeighbors n) in
  let n := Node.with_twoHopNeighbors twoHop (Node.with_oneHopNeighbors oneHop n) in
  Node.with_topologyTable
    (evictTopology (Node.currentTime n) (Node.topologyTable n)) n.

(** One iteration of the loop of [Node.run]. *)
Definition tick (incoming : option Msg) (n : Node.t)
    : option (Node.t * list Msg) :=
  '(n, out1) ← dispatch incoming n;
  let '(n, out2) := emit n in
  let n := evict n in
  Some (Node.with_currentTime (add_int (Node.currentTime n) 1) n, out1 ++ out2).

(** The loop over the ticks; the list holds what each [select] received and
    ends when the context is done. *)
Fixpoint loop (inputs : list (option Msg)) (n : Node.t)
    : option (Node.t * list Msg) :=
  match inputs with
  | [] => Some (n, [])
  | incoming :: inputs =>
      '(n, out) ← tick incoming n;
      '(n, outs) ← loop inputs n;
      Some (n, out ++ outs)
  end.

Definition run (inputs : list (option Msg)) (n : Node.t)
    : option (Node.t * list Msg) :=
  loop inputs (Node.with_currentTime 0 n).

(** [NewNode]: every field not assigned is left at its zero value. *)
Definition NewNode (id : NodeID) (nodeMsg : NodeMsg.t) : Node.t :=
  Node.mk id nodeMsg ∅ 0 0 [] ∅ ∅ ∅ 0 15.

(** ** Auxiliary notions used in the statements *)

(** What a TC does to an entry already stored for its source: the hold is
    refreshed when the TC's sequence number is larger, and nothing else. *)
Definition refreshEntry (msg : TCMessage.t) (holdUntil : Z)
    (e : TopologyEntry.t) : TopologyEntry.t :=
  if bool_decide (TopologyEntry.msSeqNum e < TCMessage.seq msg)
  then TopologyEntry.with_holdUntil holdUntil e
  else e.

(** [topologyTable[d][s]] *)
Definition lookup2 (tt : gmap NodeID (gmap NodeID TopologyEntry.t))
    (d s : NodeID) : option TopologyEntry.t :=
  tt !! d ≫= λ entries, entries !! s.

(** [oneHopNeighbors[k].state != Unidirectional], with Go's zero entry for
    an absent key. *)
Definition nonUnidirectional (oneHopNeighbors : gmap NodeID OneHopNeighborEntry.t)
    (k : NodeID) : Prop :=
  OneHopNeighborEntry.state (oneHopNeighbors !!! k) ≠ Unidirectional.

(** What [updateOneHopNeighbors] stores for the source, given what the
    table held for it. *)
Definition helloEntry (msg : HelloMessage.t) (holdUntil : Z) (id : NodeID)
    (prev : option OneHopNeighborEntry.t) : OneHopNeighborEntry.t :=
  match prev with
  | None => OneHopNeighborEntry.mk (HelloMessage.src msg) Unidirectional holdUntil
  | Some entry =>
      if bool_decide (id ∈ HelloMessage.unidir msg ++
                           (HelloMessage.bidir msg ++ HelloMessage.mpr msg))
      then OneHopNeighborEntry.mk (OneHopNeighborEntry.neighborID entry)
             Bidirectional holdUntil
      else OneHopNeighborEntry.mk (OneHopNeighborEntry.neighborID entry)
             (OneHopNeighborEntry.state entry) holdUntil
  end.

(** Every key of the two-hop table is a key of the one-hop table. *)
Definition twoHopKeysKnown (n : Node.t) : Prop :=
  ∀ k, is_Some (Node.twoHopNeighbors n !! k) →
       is_Some (Node.oneHopNeighbors n !! k).

(** The sequence numbers of the TC messages of [out] that originate at
    [id] (those [sendTC] emits; a forwarded TC has another source). *)
Definition ownTCSeqs (id : NodeID) (out : list Msg) : list Z :=
  omap (λ m, match m with
             | TC t => if bool_decide (TCMessage.src t = id)
                       then Some (TCMessage.seq t) else None
             | _ => None
             end) out.

(** A value the receiver can hand to [handler] without a panic. *)
Definition knownMsg (incoming : option Msg) : Prop := incoming ≠ Some Unknown.

(** What the handlers leave alone: the identity, the clock, the TC counter
    and the hold times. *)
Definition sameClock (n n' : Node.t) : Prop :=
  Node.id n' = Node.id n ∧
  Node.currentTime n' = Node.currentTime n ∧
  Node.tcSequenceNum n' = Node.tcSequenceNum n ∧
  Node.neighborHoldTime n' = Node.neighborHoldTime n ∧
  Node.topologyHoldTime n' = Node.topologyHoldTime n.

(** ** Concrete inputs of the examples *)

Definition entry (i : NodeID) (s : NeighborState) (h : Z)
    : OneHopNeighborEntry.t :=
  OneHopNeighborEntry.mk i s h.

Definition exampleNodeMsg : NodeMsg.t := NodeMsg.mk "(0 -> 2)" 30 2.

(** A HELLO of node 1 that lists node 0 among its bidirectional
    neighbours. *)
Definition helloFrom1 : HelloMessage.t := HelloMessage.mk 1 [] [0; 2]%N [].

(** A HELLO of node 1 received in the first tick, then fourteen ticks
    without a message. *)
Definition helloThenQuiet : list (option Msg) :=
  Some (Hello helloFrom1) :: replicate 14 None.

(** Node 2 is a one-hop neighbour, node 1 is only a key of the two-hop
    table; both announce node 5. *)
Definition strayOneHop : gmap NodeID OneHopNeighborEntry.t :=
  {[ 2%N := OneHopNeighborEntry.mk 2 Bidirectional 20 ]}.
Definition strayTwoHop : gmap NodeID (gmap NodeID NodeID) :=
  {[ 1%N := {[ 5%N := 5%N ]}; 2%N := {[ 5%N := 5%N ]} ]}.

(** The tables of the repository's test "ensure coverage". *)
Definition coverOneHop : gmap NodeID OneHopNeighborEntry.t :=
  {[ 1%N := OneHopNeighborEntry.mk 1 Bidirectional 20;
     2%N := OneHopNeighborEntry.mk 1 Bidirectional 20 ]}.
Definition coverTwoHop : gmap NodeID (gmap NodeID NodeID) :=
  {[ 1%N := {[ 3%N := 3%N ]}; 2%N := {[ 4%N := 4%N ]} ]}.

(** A TC of node 5 with sequence number 7 naming node 9, and a table that
    already stores the pair with the same sequence number. *)
Definition tcFrom5 : TCMessage.t := TCMessage.mk 5 5 7 [9%N].
Definition topologyWith9 : gmap NodeID (gmap NodeID TopologyEntry.t) :=
  {[ 9%N := {[ 5%N := TopologyEntry.mk 9 5 7 150 ]} ]}.

(** Node 0 once it has heard node 1. *)
Definition nodeKnowing1 : Node.t :=
  Node.mk 0 exampleNodeMsg ∅ 0 0 []
    {[ 1%N := OneHopNeighborEntry.mk 1 Unidirectional 15 ]}
    {[ 1%N := {[ 2%N := 2%N ]} ]} ∅ 0 15.

(** * The network topology oracle ([topology.go]) *)

(** Modelled from the spec: the record a link-state line parses to,
    [{ fromNode, toNode, time, up }]; its declaration is outside the files
    at hand, [NewNetworkTypology] reads the first three fields. *)
Module LinkState.
Record t : Set := mk {
  fromNode : NodeID;
  toNode : NodeID;
  time : Z;
  up : bool
}.
End LinkState.

(** Modelled from the spec: a link and the states it went through, as
    [NewNetworkTypology] builds it ([fromNode], [toNode], [states]). *)
Module Link.
Record t : Set := mk {
  fromNode : NodeID;
  toNode : NodeID;
  states : list LinkState.t
}.
End Link.

Module QueryMsg.
Record t : Set := mk {
  FromNode : NodeID;
  ToNode : NodeID;
  AtTime : Z
}.
End QueryMsg.

Module NetworkTypology.
Record t : Type := mk {
  links : gmap NodeID (gmap NodeID Link.t)
}.
End NetworkTypology.

(** How the reader ends once its content is exhausted: [io.EOF], or any
    other error. *)
Inductive ReadEnd : Set :=
| EOF
| ReadFailure.

(** What a call of [NewNetworkTypology] comes to: the topology, a returned
    error, or the exit of the process by [log.Fatalln]. *)
Inductive BuildError : Set :=
| ReadError
| NotSorted.

Inductive Build : Type :=
| Built (n : NetworkTypology.t)
| Failed (e : BuildError)
| Exited.

Definition newline : Ascii.ascii := Ascii.ascii_of_nat 10.

(** The successive results of [r.ReadString('\n')] on a content, with the
    delimiter trimmed as [strings.TrimSuffix(line, "\n")] does: the complete
    lines, and the data left before the reader ends. *)
Fixpoint readLines (content : string) : list string * string :=
  match content with
  | EmptyString => ([], EmptyString)
  | String c content =>
      let '(lines, rest) := readLines content in
      if decide (c = newline) then (EmptyString :: lines, rest)
      else match lines with
           | [] => ([], String c rest)
           | line :: lines => (String c line :: lines, rest)
           end
  end.

(** The body of the loop of [NewNetworkTypology] once a line is parsed:
    the state is appended to its link, which is created when missing. *)
Definition addLinkState (links : gmap NodeID (gmap NodeID Link.t))
    (ls : LinkState.t) : gmap NodeID (gmap NodeID Link.t) :=
  let fresh := Link.mk (LinkState.fromNode ls) (LinkState.toNode ls) [ls] in
  match links !! LinkState.fromNode ls with
  | None =>
      <[LinkState.fromNode ls := {[LinkState.toNode ls := fresh]}]> links
  | Some dsts =>
      match dsts !! LinkState.toNode ls with
      | None =>
          <[LinkState.fromNode ls := <[LinkState.toNode ls := fresh]> dsts]> links
      | Some dst =>
          <[LinkState.fromNode ls :=
              <[LinkState.toNode ls :=
                  Link.mk (Link.fromNode dst) (Link.toNode dst)
                    (Link.states dst ++ [ls])]> dsts]> links
      end
  end.

Section oracle.

(** [parseLinkState] and [Link.isUp] are declared outside the files at
    hand; [None] is a parse error. *)
Variable parseLinkState : string → option LinkState.t.
Variable isUp : Link.t → Z → bool.

(** The loop of [NewNetworkTypology] over the lines read. *)
Fixpoint buildLinks (lines : list string) (currTime : Z)
    (links : gmap NodeID (gmap NodeID Link.t)) (final : ReadEnd) : Build :=
  match lines with
  | [] =>
      match final with
      | EOF => Built (NetworkTypology.mk links)
      | ReadFailure => Failed ReadError
      end
  | line :: lines =>
      match parseLinkState line with
      | None => Exited
      | Some ls =>
          if bool_decide (LinkState.time ls < currTime) then Failed NotSorted
          else buildLinks lines (LinkState.time ls) (addLinkState links ls) final
      end
  end.

(** [NewNetworkTypology] on a reader that yields [content] and then ends
    with [final]. *)
Definition NewNetworkTypology (content : string) (final : ReadEnd) : Build :=
  buildLinks (readLines content).1 0 ∅ final.

Definition Query (n : NetworkTypology.t) (msg : QueryMsg.t) : bool :=
  match NetworkTypology.links n !! QueryMsg.FromNode msg with
  | None => false
  | Some links =>
      match links !! QueryMsg.ToNode msg with
      | None => false
      | Some link => isUp link (QueryMsg.AtTime msg)
      end
  end.

End oracle.

(** The states of the link from [f] to [t] among [records], in order. *)
Definition statesOf (f t : NodeID) (records : list LinkState.t)
    : list LinkState.t :=
  filter (λ ls, LinkState.fromNode ls = f ∧ LinkState.toNode ls = t) records.

(** [links[f][t]] *)
Definition lookupLink (links : gmap NodeID (gmap NodeID Link.t))
    (f t : NodeID) : option Link.t :=
  links !! f ≫= λ dsts, dsts !! t.

(** The times are in non-decreasing order, and none is below [start]. *)
Fixpoint nonDecreasingFrom (start : Z) (times : list Z) : Prop :=
  match times with
  | [] => True
  | t :: times => start ≤ t ∧ nonDecreasingFrom t times
  end.

(** The string holds no line feed. *)
Fixpoint noNewline (s : string) : Prop :=
  match s with
  | EmptyString => True
  | String c s => c ≠ newline ∧ noNewline s
  end.

(** [links] holds, for each pair, the link made of that pair's states among
    [records], and no link for a pair without a state. *)
Definition groups (links : gmap NodeID (gmap NodeID Link.t))
    (records : list LinkState.t) : Prop :=
  ∀ f t, lookupLink links f t
         = match statesOf f t records with
           | [] => None
           | _ :: _ => Some (Link.mk f t (statesOf f t records))
           end.

(** A stand-in for the parser in the examples: line [a] is the link 1 -> 2
    coming up at time 0, line [b] the same link going down at time 5, line
    [c] the link 2 -> 1 coming up at time 3. *)
Definition sampleParse (line : string) : option LinkState.t :=
  if decide (line = "a") then Some (LinkState.mk 1 2 0 true)
  else if decide (line = "b") then Some (LinkState.mk 1 2 5 false)
  else if decide (line = "c") then Some (LinkState.mk 2 1 3 true)
  else None.

(** A stand-in for [isUp]: the flag of the last state at or before the
    given time. *)
Definition sampleIsUp (link : Link.t) (atTime : Z) : bool :=
  foldl (λ acc ls, if bool_decide (LinkState.time ls ≤ atTime)
                   then LinkState.up ls else acc)
        false (Link.states link).

(** [line] followed by a line feed, then [rest]. *)
Definition lineThen (line rest : string) : string :=
  line +:+ String newline rest.

(** What [topologyTable[d][msg.src]] is once [updateTopologyTable] has
    processed the destination [d], given what it was. *)
Definition processedEntry (msg : TCMessage.t) (holdUntil : Z) (d : NodeID)
    (prev : option TopologyEntry.t) : TopologyEntry.t :=
  match prev with
  | Some e => refreshEntry msg holdUntil e
  | None => TopologyEntry.mk d (TCMessage.src msg) (TCMessage.seq msg) holdUntil
  end.

(** The neighbour tables are as the handlers fill them: an entry carries the
    id it is stored under, a two-hop set maps ids to themselves and leaves
    the node's own id out, and so does the MS set map ids to themselves. *)
Definition neighborsWellFormed (n : Node.t) : Prop :=
  (∀ k e, Node.oneHopNeighbors n !! k = Some e →
          OneHopNeighborEntry.neighborID e = k) ∧
  (∀ k v x y, Node.twoHopNeighbors n !! k = Some v → v !! x = Some y →
              y = x ∧ x ≠ Node.id n) ∧
  (∀ k v, Node.msSet n !! k = Some v → v = k).

(** A topology entry carries the keys it is stored under, and none is
    stored under the node's own id as the MPR. *)
Definition topologyWellFormed (n : Node.t) : Prop :=
  ∀ d s e, lookup2 (Node.topologyTable n) d s = Some e →
           TopologyEntry.dst e = d ∧ TopologyEntry.dstMPR e = s ∧
           s ≠ Node.id n.

(** Node 0 with a topology hold of 30 ticks, at tick 100, holding the pair
    (9, 5) until tick 120. *)
Definition nodeHolding : Node.t :=
  Node.mk 0 exampleNodeMsg {[ 9%N := {[ 5%N := TopologyEntry.mk 9 5 7 120 ]} ]}
    3 30 [] ∅ ∅ ∅ 100 15.

(** The HELLO messages of an output. *)
Definition helloMsgs (out : list Msg) : list HelloMessage.t :=
  omap (λ m, match m with Hello h => Some h | _ => None end) out.

(** * The message codec ([message.go]) *)

(** [strconv.Itoa]: the decimal form of an [int]. *)
Definition Itoa (i : Z) : string := pretty i.

(** The conversion [int(item)] of a [NodeID] (a [uint]). *)
Definition intOfNodeID (item : NodeID) : Z := wrap_int (Z.of_N item).

(** [strings.Join] is [String.concat]. *)
Definition separatedString (items : list NodeID) (sep : string) : string :=
  String.concat sep ((λ item, Itoa (intOfNodeID item)) <$> items).

(** The [String] methods; [%d] prints a [NodeID] as an unsigned decimal. *)
Definition HelloMessage_String (m : HelloMessage.t) : string :=
  "* " +:+ pretty (HelloMessage.src m) +:+ " HELLO UNIDIR "
  +:+ separatedString (HelloMessage.unidir m) " " +:+ " BIDIR "
  +:+ separatedString (HelloMessage.bidir m) " " +:+ " MPR "
  +:+ separatedString (HelloMessage.mpr m) " ".

Definition DataMessage_String (m : DataMessage.t) : string :=
  pretty (DataMessage.nxtHop m) +:+ " " +:+ pretty (DataMessage.fromnbr m)
  +:+ " DATA " +:+ pretty (DataMessage.src m) +:+ " "
  +:+ pretty (DataMessage.dst m) +:+ " " +:+ DataMessage.data m.

Definition TCMessage_String (m : TCMessage.t) : string :=
  "* " +:+ pretty (TCMessage.fromnbr m) +:+ " TC " +:+ pretty (TCMessage.src m)
  +:+ " " +:+ pretty (TCMessage.seq m) +:+ " MS "
  +:+ separatedString (TCMessage.ms m) " ".

(** Every character of the string satisfies [P]. *)
Fixpoint allChars (P : ascii → bool) (s : string) : bool :=
  match s with
  | EmptyString => true
  | String c s => P c && allChars P s
  end.

(** The characters of a decimal number: the digits and the sign. *)
Definition isNumeric (c : ascii) : bool :=
  match c with
  | "0" | "1" | "2" | "3" | "4" | "5" | "6" | "7" | "8" | "9" | "-" => true
  | _ => false
  end%char.

(** The characters of a separated list: those of numbers, and the space. *)
Definition isListChar (c : ascii) : bool :=
  isNumeric c || bool_decide (c = " "%char).

(** The ids that fit the 64 bits of a [uint]. *)
Definition uintRange (items : list NodeID) : Prop :=
  Forall (λ item, (item < 2 ^ 64)%N) items.

(** ** The scenarios of the repository's tests *)

Example test_new_unidirectional_neighbor :
  updateOneHopNeighbors (HelloMessage.mk 1 [] [2; 3]%N [])
    {[ 2%N := entry 1 Unidirectional 15 ]} 20 0
  = {[ 2%N := entry 1 Unidirectional 15; 1%N := entry 1 Unidirectional 20 ]}.
Proof. by vm_compute. Qed.

Example test_new_bidirectional_neighbor :
  updateOneHopNeighbors (HelloMessage.mk 1 [] [0; 2; 3]%N [])
    {[ 1%N := entry 1 Unidirectional 15; 2%N := entry 1 Unidirectional 15 ]} 20 0
  = {[ 1%N := entry 1 Bidirectional 20; 2%N := entry 1 Unidirectional 15 ]}.
Proof. by vm_compute. Qed.

Example test_new_two_hop :
  updateTwoHopNeighbors (HelloMessage.mk 1 [] [2]%N []) ∅ 0
  = {[ 1%N := {[ 2%N := 2%N ]} ]}.
Proof. by vm_compute. Qed.

Example test_delete_previous_entries :
  updateTwoHopNeighbors (HelloMessage.mk 1 [] [3]%N [])
    {[ 1%N := {[ 2%N := 2%N ]} ]} 0
  = {[ 1%N := {[ 3%N := 3%N ]} ]}.
Proof. by vm_compute. Qed.

Example test_ensure_greedy :
  calculateMPRs
    {[ 1%N := entry 1 Bidirectional 20; 2%N := entry 1 Bidirectional 20 ]}
    {[ 1%N := {[ 3%N := 3%N; 4%N := 4%N ]}; 2%N := {[ 3%N := 3%N ]} ]}
  = Some {[ 1%N := entry 1 MPR 20; 2%N := entry 1 Bidirectional 20 ]}.
Proof. by vm_compute. Qed.

Example test_ensure_coverage :
  calculateMPRs
    {[ 1%N := entry 1 Bidirectional 20; 2%N := entry 1 Bidirectional 20 ]}
    {[ 1%N := {[ 3%N := 3%N ]}; 2%N := {[ 4%N := 4%N ]} ]}
  = Some {[ 1%N := entry 1 MPR 20; 2%N := entry 1 MPR 20 ]}.
Proof. by vm_compute. Qed.

(** ** Further scenarios *)

(** Scenario 6 of the specification: a TC of node 5 numbered 7 creates
    [topologyTable[9][5]]; the same TC received later leaves the hold as it
    is, and a TC numbered 8 refreshes the hold but not the stored number. *)
Example tc_creates_entry :
  updateTopologyTable tcFrom5 ∅ 150 = topologyWith9.
Proof. by vm_compute. Qed.

Example tc_same_seq_ignored :
  updateTopologyTable tcFrom5 topologyWith9 180 = topologyWith9.
Proof. by vm_compute. Qed.

Example tc_newer_seq_refreshes_hold_only :
  updateTopologyTable (TCMessage.mk 5 5 8 [9%N]) topologyWith9 180
  = {[ 9%N := {[ 5%N := TopologyEntry.mk 9 5 7 180 ]} ]}.
Proof. by vm_compute. Qed.

(** A tick at time 0 that receives the TC of node 5: the TC is forwarded
    with its own number, then the HELLO and the node's first TC, numbered
    0, are emitted. *)
Example tick_forwards_then_emits :
  snd <$> tick (Some (TC tcFrom5)) (NewNode 0 exampleNodeMsg)
  = Some [TC (TCMessage.mk 5 0 7 [9%N]);
          Hello (HelloMessage.mk 0 [] [] []);
          TC (TCMessage.mk 0 0 0 [])].
Proof. by vm_compute. Qed.

(** The selection on tables where key 1 of the two-hop table has no one-hop
    entry: the one-hop table comes back unchanged. *)
Example calculateMPRs_stray_key :
  calculateMPRs strayOneHop strayTwoHop = Some strayOneHop.
Proof. by vm_compute. Qed.

(** The same HELLO handled twice by a fresh node 0: node 1 is entered as
    [Unidirectional]; the second handling promotes it, and the selection
    that follows makes it an MPR, for it now covers node 2. *)
Example hello_once :
  Node.oneHopNeighbors <$> handleHello helloFrom1 (NewNode 0 exampleNodeMsg)
  = Some {[ 1%N := entry 1 Unidirectional 15 ]}.
Proof. by vm_compute. Qed.

Example hello_twice :
  Node.oneHopNeighbors <$>
    (handleHello helloFrom1 (NewNode 0 exampleNodeMsg) ≫= handleHello helloFrom1)
  = Some {[ 1%N := entry 1 MPR 15 ]}.
Proof. by vm_compute. Qed.

(** ** Machine integers: facts *)

Lemma wrap_int_small z : int_range z → wrap_int z = z.
Proof.
  unfold int_range, int_min, int_max, wrap_int. intros Hz.
  rewrite Z.mod_small by lia. lia.
Qed.

Lemma wrap_int_range z : int_range (wrap_int z).
Proof.
  unfold int_range, int_min, int_max, wrap_int.
  pose proof (Z.mod_pos_bound (z + 2 ^ 63) (2 ^ 64)). lia.
Qed.

Lemma add_int_0_r z : int_range z → add_int z 0 = z.
Proof. intros Hz. unfold add_int. rewrite Z.add_0_r. by apply wrap_int_small. Qed.

(** The successor of a tick never exceeds what is strictly above the tick. *)
Lemma add_int_1_le now h : int_range now → now < h → add_int now 1 ≤ h.
Proof.
  intros Hnow Hlt. unfold add_int.
  destruct (decide (now = int_max)) as [->|Hne].
  - pose proof (wrap_int_range (int_max + 1)) as Hr.
    assert (wrap_int (int_max + 1) = int_min) as -> by done.
    unfold int_range, int_min, int_max in *. lia.
  - rewrite wrap_int_small; [lia|].
    unfold int_range, int_min, int_max in *. lia.
Qed.

(** ** The topology table: facts *)

Section topology.
Context (msg : TCMessage.t) (holdUntil : Z).

Local Abbreviation refresh := (refreshEntry msg holdUntil).
Local Abbreviation step := (updateTopologyEntry msg holdUntil).
Local Abbreviation src := (TCMessage.src msg).

Lemma refreshEntry_idemp e : refresh (refresh e) = refresh e.
Proof.
  unfold refreshEntry. destruct e as [d m p h]; simpl.
  repeat case_bool_decide; simpl in *; done.
Qed.

Lemma updateTopologyEntry_other tt d d' :
  d' ≠ d → step tt d' !! d = tt !! d.
Proof.
  intros Hne. unfold updateTopologyEntry.
  destruct (tt !! d') as [entries|] eqn:Hd'.
  - destruct (entries !! src) as [e|].
    + case_bool_decide; [by rewrite lookup_insert_ne|done].
    + by rewrite lookup_insert_ne.
  - by rewrite lookup_insert_ne.
Qed.

Lemma updateTopologyEntry_lookup2_other tt d d' s :
  d' ≠ d → lookup2 (step tt d') d s = lookup2 tt d s.
Proof. intros Hne. unfold lookup2. by rewrite updateTopologyEntry_other. Qed.

Lemma updateTopologyEntry_lookup2_src tt d s :
  s ≠ src → lookup2 (step tt d) d s = lookup2 tt d s.
Proof.
  intros Hne. unfold lookup2, updateTopologyEntry.
  destruct (tt !! d) as [entries|] eqn:Hd; simpl.
  - destruct (entries !! src) as [e|].
    + case_bool_decide; [|by rewrite Hd].
      rewrite lookup_insert_eq; simpl. by rewrite lookup_insert_ne.
    + rewrite lookup_insert_eq; simpl. by rewrite lookup_insert_ne.
  - rewrite lookup_insert_eq; simpl. by rewrite lookup_singleton_ne.
Qed.

(** The listed destination: the pair is created, or refreshed. *)
Lemma updateTopologyEntry_lookup2_same tt d :
  lookup2 (step tt d) d src
  = Some (match lookup2 tt d src with
          | Some e => refresh e
          | None => TopologyEntry.mk d src (TCMessage.seq msg) holdUntil
          end).
Proof.
  unfold lookup2, updateTopologyEntry, refreshEntry.
  destruct (tt !! d) as [entries|] eqn:Hd; simpl.
  - destruct (entries !! src) as [e|] eqn:He.
    + case_bool_decide.
      * rewrite lookup_insert_eq; simpl. by rewrite lookup_insert_eq.
      * rewrite Hd; simpl. by rewrite He.
    + rewrite lookup_insert_eq; simpl. by rewrite lookup_insert_eq.
  - rewrite lookup_insert_eq; simpl. by rewrite lookup_singleton_eq.
Qed.

(** Once refreshed, an entry is left alone by the rest of the list. *)
Lemma updateTopologyTable_refreshed l tt d e :
  lookup2 tt d src = Some (refresh e) →
  lookup2 (foldl step tt l) d src = Some (refresh e).
Proof.
  revert tt. induction l as [|d' l IH]; intros tt Hst; simpl; [done|].
  apply IH. destruct (decide (d' = d)) as [->|Hne].
  - by rewrite updateTopologyEntry_lookup2_same, Hst, refreshEntry_idemp.
  - by rewrite updateTopologyEntry_lookup2_other.
Qed.

Lemma updateTopologyTable_stored l tt d e :
  d ∈ l → lookup2 tt d src = Some e →
  lookup2 (foldl step tt l) d src = Some (refresh e).
Proof.
  revert tt. induction l as [|d' l IH]; intros tt Hin Hst; simpl.
  { by apply elem_of_nil in Hin. }
  destruct (decide (d' = d)) as [->|Hne].
  - apply updateTopologyTable_refreshed.
    by rewrite updateTopologyEntry_lookup2_same, Hst.
  - apply IH.
    + apply elem_of_cons in Hin as [?|?]; [congruence|done].
    + by rewrite updateTopologyEntry_lookup2_other.
Qed.

(** Every entry a TC leaves in the table was there before, possibly with
    its hold refreshed, or carries the hold of this TC. *)
Lemma updateTopologyTable_lookup2 l tt d s e :
  lookup2 (foldl step tt l) d s = Some e →
  TopologyEntry.holdUntil e = holdUntil ∨ lookup2 tt d s = Some e.
Proof.
  revert tt. induction l as [|d' l IH]; intros tt; simpl; [by right|].
  intros [Hh|Hprev]%IH; [by left|].
  destruct (decide (d' = d)) as [->|Hne];
    [|right; by rewrite <-Hprev, updateTopologyEntry_lookup2_other].
  destruct (decide (s = src)) as [->|Hs];
    [|right; by rewrite <-Hprev, updateTopologyEntry_lookup2_src].
  rewrite updateTopologyEntry_lookup2_same in Hprev.
  destruct (lookup2 tt d src) as [e0|]; simplify_eq; [|by left].
  unfold refreshEntry. case_bool_decide; [by left|by right].
Qed.

Lemma updateTopologyTable_lookup2_is_Some l tt d :
  is_Some (lookup2 tt d src) →
  is_Some (lookup2 (foldl step tt l) d
             src).
Proof.
  revert tt. induction l as [|d' l IH]; intros tt Hs; simpl; [done|].
  apply IH. destruct (decide (d' = d)) as [->|Hne].
  - by rewrite updateTopologyEntry_lookup2_same.
  - by rewrite updateTopologyEntry_lookup2_other.
Qed.

Lemma updateTopologyTable_created l tt d :
  d ∈ l → lookup2 tt d src = None →
  ∃ e, lookup2 (foldl step tt l) d
         src = Some e
       ∧ TopologyEntry.holdUntil e = holdUntil.
Proof.
  intros Hin Hnone.
  assert (is_Some (lookup2 (foldl step tt l) d
                     src)) as [e He].
  { clear Hnone. revert tt. induction l as [|d' l IH]; intros tt; simpl.
    { by apply elem_of_nil in Hin. }
    destruct (decide (d' = d)) as [->|Hne].
    - apply updateTopologyTable_lookup2_is_Some.
      by rewrite updateTopologyEntry_lookup2_same.
    - apply IH. apply elem_of_cons in Hin as [?|?]; [congruence|done]. }
  exists e. split; [done|].
  apply updateTopologyTable_lookup2 in He as [?|?]; [done|congruence].
Qed.

End topology.

(** ** MPR selection: facts *)

Section mpr.
Context (twoHop : gmap NodeID (gmap NodeID NodeID)).

Lemma gatherCandidates_fold oneHop l nodes0 rem0 :
  let r := foldl (gatherStep oneHop) (nodes0, rem0) l in
  (∀ c, c ∈ r.1 ↔ c ∈ nodes0 ∨ ∃ v, (c, v) ∈ l ∧ nonUnidirectional oneHop c) ∧
  (∀ x, x ∈ r.2 ↔
        x ∈ rem0 ∨ ∃ c v, (c, v) ∈ l ∧ nonUnidirectional oneHop c ∧ x ∈ dom v).
Proof.
  revert nodes0 rem0. induction l as [|[node v] l IH]; intros nodes0 rem0.
  { simpl. split; intros y; split; [by left| |by left|].
    - intros [?|(? & []%elem_of_nil & _)]; done.
    - intros [?|(? & ? & []%elem_of_nil & _)]; done. }
  cbn [foldl gatherStep]. case_bool_decide as Hst.
  - destruct (IH nodes0 rem0) as [IH1 IH2]. split; intros y.
    + rewrite IH1. split; (intros [?|(w & Hin & Hnu)]; [by left|right]).
      * exists w. split; [by right|done].
      * apply elem_of_cons in Hin as [[=-> ->]|Hin]; [done|eauto].
    + rewrite IH2. split; (intros [?|(c & w & Hin & Hnu & Hx)]; [by left|right]).
      * exists c, w. split; [by right|done].
      * apply elem_of_cons in Hin as [[=-> ->]|Hin]; [done|eauto].
  - destruct (IH (nodes0 ++ [node]) (rem0 ∪ dom v)) as [IH1 IH2]. split; intros y.
    + rewrite IH1, elem_of_app, list_elem_of_singleton. split.
      * intros [[?| ->]|(w & Hin & Hnu)]; [by left| |].
        -- right. exists v. split; [by left|done].
        -- right. exists w. split; [by right|done].
      * intros [?|(w & Hin & Hnu)]; [by left; left|].
        apply elem_of_cons in Hin as [[=-> ->]|Hin]; [by left; right|eauto].
    + rewrite IH2, elem_of_union. split.
      * intros [[?|?]|(c & w & Hin & Hnu & Hx)]; [by left| |].
        -- right. exists node, v. split; [by left|done].
        -- right. exists c, w. split; [by right|done].
      * intros [?|(c & w & Hin & Hnu & Hx)]; [by left; left|].
        apply elem_of_cons in Hin as [[=-> ->]|Hin]; [by left; right|eauto 10].
Qed.

(** The candidates are the keys of the two-hop table that are not
    [Unidirectional]; [remainingTwoHops] starts as all they announce. *)
Lemma gatherCandidates_spec oneHop :
  (∀ c, c ∈ (gatherCandidates oneHop twoHop).1 ↔
        is_Some (twoHop !! c) ∧ nonUnidirectional oneHop c) ∧
  (∀ x, x ∈ (gatherCandidates oneHop twoHop).2 ↔
        ∃ c v, twoHop !! c = Some v ∧ nonUnidirectional oneHop c ∧ x ∈ dom v).
Proof.
  destruct (gatherCandidates_fold oneHop (map_to_list twoHop) [] ∅) as [H1 H2].
  split; intros y.
  - unfold gatherCandidates. rewrite H1. split.
    + intros [[]%elem_of_nil|(v & Hin%elem_of_map_to_list & Hnu)]. eauto.
    + intros [[v Hv] Hnu]. right. exists v. by rewrite elem_of_map_to_list.
  - unfold gatherCandidates. rewrite H2. split.
    + intros [[]%elem_of_empty|(c & v & Hin%elem_of_map_to_list & Hnu)]. eauto.
    + intros (c & v & Hv & Hnu). right. exists c, v.
      by rewrite elem_of_map_to_list.
Qed.

(** The candidates depend on the one-hop table only through which entries
    are [Unidirectional]. *)
Lemma gatherCandidates_ext oneHop1 oneHop2 :
  (∀ k, nonUnidirectional oneHop1 k ↔ nonUnidirectional oneHop2 k) →
  gatherCandidates oneHop1 twoHop = gatherCandidates oneHop2 twoHop.
Proof.
  intros Hext. unfold gatherCandidates.
  generalize (@nil NodeID, ∅ : gset NodeID).
  induction (map_to_list twoHop) as [|[node v] l IH]; intros [nodes rem]; [done|].
  cbn [foldl gatherStep]. specialize (Hext node). unfold nonUnidirectional in Hext.
  do 2 case_bool_decide; try apply IH; tauto.
Qed.

Lemma elem_of_sortNodes c nodes : c ∈ sortNodes nodes ↔ c ∈ nodes.
Proof. unfold sortNodes. by rewrite merge_sort_Permutation. Qed.

(** The selection loop does not run out of candidates as long as each
    remaining id is announced by one of them. *)
Lemma selectLoop_total nodes remaining mprs :
  (∀ x, x ∈ remaining → ∃ c, c ∈ nodes ∧ x ∈ dom (twoHop !!! c)) →
  is_Some (selectLoop twoHop nodes remaining mprs).
Proof.
  revert remaining mprs.
  induction nodes as [|c nodes IH]; intros remaining mprs Hcov; simpl.
  - case_decide as Hemp; [done|].
    apply set_choose_L in Hemp as [x Hx].
    destruct (Hcov x Hx) as (c & []%elem_of_nil & _).
  - case_decide; [done|]. apply IH. intros x [Hx Hnc]%elem_of_difference.
    destruct (Hcov x Hx) as (c' & [->|Hc']%elem_of_cons & Hd); [done|eauto].
Qed.

Lemma selectLoop_spec nodes remaining mprs res :
  selectLoop twoHop nodes remaining mprs = Some res →
  mprs ⊆ res ∧
  (∀ c, c ∈ res → c ∈ mprs ∨ c ∈ nodes) ∧
  (∀ x, x ∈ remaining → ∃ c, c ∈ res ∧ x ∈ dom (twoHop !!! c)).
Proof.
  revert remaining mprs.
  induction nodes as [|c nodes IH]; intros remaining mprs; simpl.
  - case_decide as Hemp; [|done]. intros [= <-]. subst remaining.
    split; [done|]. split; [by left|]. by intros x ?%elem_of_empty.
  - case_decide as Hemp.
    { intros [= <-]. subst remaining.
      split; [done|]. split; [by left|]. by intros x ?%elem_of_empty. }
    intros (Hsub & Hfrom & Hcov)%IH. split.
    { intros y Hy. apply Hsub, elem_of_union. by right. }
    split.
    + intros c' [Hc'|Hc']%Hfrom; [|right; by right].
      apply elem_of_union in Hc' as [->%elem_of_singleton|?];
        [right; by left|by left].
    + intros x Hx.
      destruct (decide (x ∈ (dom (twoHop !!! c) : gset NodeID))) as [Hd|Hd].
      * exists c. split; [|done].
        apply Hsub, elem_of_union. left. by apply elem_of_singleton.
      * apply Hcov. by apply elem_of_difference.
Qed.

Lemma selectMPRs_total oneHop : is_Some (selectMPRs oneHop twoHop).
Proof.
  unfold selectMPRs. destruct (gatherCandidates_spec oneHop) as [Hc Hr].
  destruct (gatherCandidates oneHop twoHop) as [nodes remaining]; simpl in *.
  apply selectLoop_total. intros x (c & v & Hv & Hnu & Hx)%Hr.
  exists c. split.
  - apply elem_of_sortNodes, Hc. eauto.
  - by rewrite lookup_total_alt, Hv.
Qed.

(** Every selected id is a candidate, and the selection covers all that the
    candidates announce. *)
Lemma selectMPRs_spec oneHop mprs :
  selectMPRs oneHop twoHop = Some mprs →
  (∀ c, c ∈ mprs → is_Some (twoHop !! c) ∧ nonUnidirectional oneHop c) ∧
  (∀ c v x, twoHop !! c = Some v → nonUnidirectional oneHop c → x ∈ dom v →
            ∃ m vm, m ∈ mprs ∧ twoHop !! m = Some vm ∧ x ∈ dom vm).
Proof.
  unfold selectMPRs. destruct (gatherCandidates_spec oneHop) as [Hc Hr].
  destruct (gatherCandidates oneHop twoHop) as [nodes remaining]; simpl in *.
  intros (_ & Hfrom & Hcov)%selectLoop_spec. split.
  - intros c [?%elem_of_empty|Hin]%Hfrom; [done|].
    apply Hc. by apply (proj1 (elem_of_sortNodes _ _)).
  - intros c v x Hv Hnu Hx.
    destruct (Hcov x) as (m & Hm & Hd); [apply Hr; eauto|].
    rewrite lookup_total_alt in Hd.
    destruct (twoHop !! m) as [vm|] eqn:Hvm; simpl in Hd; [eauto|].
    by rewrite dom_empty_L in Hd.
Qed.

Lemma selectMPRs_ext oneHop1 oneHop2 :
  (∀ k, nonUnidirectional oneHop1 k ↔ nonUnidirectional oneHop2 k) →
  selectMPRs oneHop1 twoHop = selectMPRs oneHop2 twoHop.
Proof. intros Hext. unfold selectMPRs. by rewrite (gatherCandidates_ext _ _ Hext). Qed.

End mpr.

Lemma assignState_holdUntil mprs k e :
  OneHopNeighborEntry.holdUntil (assignState mprs k e)
  = OneHopNeighborEntry.holdUntil e.
Proof. unfold assignState. by repeat case_decide. Qed.

Lemma assignState_idemp mprs k e :
  assignState mprs k (assignState mprs k e) = assignState mprs k e.
Proof.
  unfold assignState, OneHopNeighborEntry.with_state. destruct e as [i s h].
  repeat (case_decide; simpl in *); congruence.
Qed.

Lemma assignState_Unidirectional mprs k e :
  (k ∈ mprs → OneHopNeighborEntry.state e ≠ Unidirectional) →
  OneHopNeighborEntry.state (assignState mprs k e) = Unidirectional
  ↔ OneHopNeighborEntry.state e = Unidirectional.
Proof.
  intros Hm. unfold assignState, OneHopNeighborEntry.with_state.
  destruct e as [i s h].
  repeat (case_decide; simpl in *); split; intros; try congruence.
  by destruct Hm.
Qed.

Lemma assignStates_lookup mprs oneHop k :
  assignStates mprs oneHop !! k = assignState mprs k <$> oneHop !! k.
Proof.
  unfold assignStates. rewrite map_lookup_imap. by destruct (oneHop !! k).
Qed.

Lemma calculateMPRs_total oneHop twoHop : is_Some (calculateMPRs oneHop twoHop).
Proof.
  unfold calculateMPRs. by destruct (selectMPRs_total twoHop oneHop) as [mprs ->].
Qed.

Lemma calculateMPRs_Some oneHop twoHop oneHop' :
  calculateMPRs oneHop twoHop = Some oneHop' →
  ∃ mprs, selectMPRs oneHop twoHop = Some mprs ∧ oneHop' = assignStates mprs oneHop.
Proof.
  unfold calculateMPRs. destruct (selectMPRs oneHop twoHop) as [mprs|]; [|done].
  intros [= <-]. eauto.
Qed.

(** [calculateMPRs] never turns an entry into, or out of, [Unidirectional]. *)
Lemma assignStates_nonUnidirectional oneHop twoHop mprs k :
  selectMPRs oneHop twoHop = Some mprs →
  nonUnidirectional (assignStates mprs oneHop) k ↔ nonUnidirectional oneHop k.
Proof.
  intros [Hc _]%selectMPRs_spec. unfold nonUnidirectional in *.
  rewrite !lookup_total_alt, assignStates_lookup.
  destruct (oneHop !! k) as [e|] eqn:He; simpl; [|done].
  apply not_iff_compat, assignState_Unidirectional. intros [_ Hnu]%Hc.
  by rewrite lookup_total_alt, He in Hnu.
Qed.

(** ** HELLO reception: facts *)

Lemma updateOneHopNeighbors_insert msg oneHop holdUntil id :
  updateOneHopNeighbors msg oneHop holdUntil id
  = <[HelloMessage.src msg :=
        helloEntry msg holdUntil id (oneHop !! HelloMessage.src msg)]> oneHop.
Proof.
  unfold updateOneHopNeighbors, helloEntry.
  destruct (oneHop !! HelloMessage.src msg) as [[i s h]|]; [|done].
  by case_bool_decide.
Qed.

Lemma twoHops_fold (id : NodeID) (l : list NodeID) (acc : gmap NodeID NodeID) k :
  foldl (addTwoHop id) acc l !! k
  = if decide (k ∈ l ∧ k ≠ id) then Some k else acc !! k.
Proof.
  revert acc. induction l as [|x l IH]; intros acc; cbn [foldl].
  { case_decide as H; [|done]. by destruct H as [?%elem_of_nil _]. }
  rewrite IH. unfold addTwoHop.
  destruct (decide (k ∈ l ∧ k ≠ id)) as [[Hin Hne]|Hn].
  { rewrite decide_True; [done|]. split; [by right|done]. }
  destruct (decide (k ∈ x :: l ∧ k ≠ id)) as [[Hin Hne]|Hn2].
  - apply elem_of_cons in Hin as [->|Hin]; [|tauto].
    rewrite bool_decide_eq_false_2 by done. by rewrite lookup_insert_eq.
  - case_bool_decide; [done|]. rewrite lookup_insert_ne; [done|].
    intros ->. apply Hn2. split; [by left|done].
Qed.

(** The fresh two-hop set holds exactly the ids of [unidir ++ bidir] other
    than the node's own, each mapped to itself. *)
Lemma twoHops_lookup msg id k :
  twoHops msg id !! k
  = if decide (k ∈ HelloMessage.unidir msg ++ HelloMessage.bidir msg ∧ k ≠ id)
    then Some k else None.
Proof. unfold twoHops. by rewrite twoHops_fold, lookup_empty. Qed.

Lemma updateMSSet_idemp msg id msSet :
  updateMSSet msg id (updateMSSet msg id msSet) = updateMSSet msg id msSet.
Proof.
  assert (∀ m : gmap NodeID NodeID, is_Some (m !! HelloMessage.src msg) →
            updateMSSet msg id m
            = if bool_decide (id ∈ HelloMessage.mpr msg) then m
              else delete (HelloMessage.src msg) m) as Hin.
  { intros m Hs. unfold updateMSSet. rewrite (bool_decide_eq_true_2 _ Hs).
    by destruct (bool_decide (id ∈ HelloMessage.mpr msg)). }
  assert (∀ m : gmap NodeID NodeID, m !! HelloMessage.src msg = None →
            updateMSSet msg id m
            = if bool_decide (id ∈ HelloMessage.mpr msg)
              then <[HelloMessage.src msg := HelloMessage.src msg]> m
              else m) as Hout.
  { intros m Hs. unfold updateMSSet.
    rewrite (bool_decide_eq_false_2 (is_Some _)) by (rewrite Hs; by intros [? ?]).
    by destruct (bool_decide (id ∈ HelloMessage.mpr msg)). }
  destruct (msSet !! HelloMessage.src msg) as [v|] eqn:Hs.
  - rewrite (Hin msSet) by eauto.
    destruct (bool_decide (id ∈ HelloMessage.mpr msg)) eqn:Hm.
    + rewrite Hin by eauto. by rewrite ?Hm.
    + rewrite Hout by apply lookup_delete_eq. by rewrite ?Hm.
  - rewrite (Hout msSet) by done.
    destruct (bool_decide (id ∈ HelloMessage.mpr msg)) eqn:Hm.
    + rewrite Hin by (rewrite lookup_insert_eq; eauto). by rewrite ?Hm.
    + rewrite Hout by done. by rewrite ?Hm.
Qed.

Lemma handleHello_Some msg n n' :
  handleHello msg n = Some n' →
  ∃ mprs,
    selectMPRs
      (updateOneHopNeighbors msg (Node.oneHopNeighbors n)
         (add_int (Node.currentTime n) (Node.neighborHoldTime n)) (Node.id n))
      (updateTwoHopNeighbors msg (Node.twoHopNeighbors n) (Node.id n))
    = Some mprs ∧
    n' = Node.with_msSet (updateMSSet msg (Node.id n) (Node.msSet n))
           (Node.with_twoHopNeighbors
              (updateTwoHopNeighbors msg (Node.twoHopNeighbors n) (Node.id n))
              (Node.with_oneHopNeighbors
                 (assignStates mprs
                    (updateOneHopNeighbors msg (Node.oneHopNeighbors n)
                       (add_int (Node.currentTime n) (Node.neighborHoldTime n))
                       (Node.id n))) n)).
Proof.
  unfold handleHello. cbv zeta.
  destruct (calculateMPRs _ _) as [oneHop'|] eqn:Hc; [|done].
  apply calculateMPRs_Some in Hc as (mprs & Hm & ->).
  simpl. intros [= <-]. eauto.
Qed.

Lemma handleHello_total msg n : is_Some (handleHello msg n).
Proof.
  unfold handleHello.
  by destruct (calculateMPRs_total
    (updateOneHopNeighbors msg (Node.oneHopNeighbors n)
       (add_int (Node.currentTime n) (Node.neighborHoldTime n)) (Node.id n))
    (updateTwoHopNeighbors msg (Node.twoHopNeighbors n) (Node.id n))) as [o ->].
Qed.

Section hello_twice.
Context (msg : HelloMessage.t) (h : Z) (id : NodeID).
Context (oneHop0 : gmap NodeID OneHopNeighborEntry.t).
Context (twoHop : gmap NodeID (gmap NodeID NodeID)) (mprs : gset NodeID).

Local Abbreviation src := (HelloMessage.src msg).
Local Abbreviation listed :=
  (id ∈ HelloMessage.unidir msg ++ (HelloMessage.bidir msg ++ HelloMessage.mpr msg)).
Local Abbreviation oneHop1 := (updateOneHopNeighbors msg oneHop0 h id).

Hypothesis known_or_unlisted : is_Some (oneHop0 !! src) ∨ ¬ listed.
Hypothesis selected : selectMPRs oneHop1 twoHop = Some mprs.

Lemma helloEntry_again :
  let e1 := helloEntry msg h id (oneHop0 !! src) in
  let e2 := helloEntry msg h id (Some (assignState mprs src e1)) in
  assignState mprs src e2 = assignState mprs src e1 ∧
  (OneHopNeighborEntry.state e2 = Unidirectional
   ↔ OneHopNeighborEntry.state e1 = Unidirectional).
Proof.
  assert (src ∈ mprs → OneHopNeighborEntry.state
            (helloEntry msg h id (oneHop0 !! src)) ≠ Unidirectional) as Hm.
  { intros Hin. apply selectMPRs_spec in selected as [Hc _].
    destruct (Hc _ Hin) as [_ Hnu]. unfold nonUnidirectional in Hnu.
    by rewrite updateOneHopNeighbors_insert, lookup_total_insert_eq in Hnu. }
  revert Hm. unfold helloEntry, assignState, OneHopNeighborEntry.with_state.
  destruct (decide listed) as [Hl|Hl].
  - destruct known_or_unlisted as [[[i s h0] ->]|?]; [|done].
    rewrite !(bool_decide_eq_true_2 _ Hl).
    intros Hm. repeat (case_decide; simpl in * ); (split; [done|]);
      split; intros; subst; first [congruence | by destruct Hm].
  - rewrite !(bool_decide_eq_false_2 _ Hl).
    destruct (oneHop0 !! src) as [[i s h0]|]; intros Hm;
      repeat (case_decide; simpl in * ); (split; [done || congruence|]);
      split; intros; subst; first [congruence | by destruct Hm].
Qed.

Lemma updateOneHopNeighbors_again_nonUnidirectional k :
  nonUnidirectional (updateOneHopNeighbors msg (assignStates mprs oneHop1) h id) k
  ↔ nonUnidirectional oneHop1 k.
Proof.
  rewrite <-(assignStates_nonUnidirectional oneHop1 twoHop mprs k selected).
  unfold nonUnidirectional.
  rewrite (updateOneHopNeighbors_insert msg (assignStates _ _)).
  destruct (decide (k = src)) as [->|Hne];
    [|by rewrite lookup_total_insert_ne].
  rewrite lookup_total_insert_eq, assignStates_lookup.
  rewrite (lookup_total_alt (assignStates _ _)), assignStates_lookup.
  rewrite updateOneHopNeighbors_insert, lookup_insert_eq.
  cbn [fmap option_fmap option_map default].
  destruct helloEntry_again as [_ Hst]. apply not_iff_compat. rewrite Hst.
  symmetry. apply assignState_Unidirectional. intros Hin.
  apply selectMPRs_spec in selected as [Hc _].
  destruct (Hc _ Hin) as [_ Hnu]. unfold nonUnidirectional in Hnu.
  by rewrite updateOneHopNeighbors_insert, lookup_total_insert_eq in Hnu.
Qed.

Lemma assignStates_again :
  assignStates mprs (updateOneHopNeighbors msg (assignStates mprs oneHop1) h id)
  = assignStates mprs oneHop1.
Proof.
  apply map_eq. intros k. rewrite !assignStates_lookup.
  rewrite (updateOneHopNeighbors_insert msg (assignStates _ _)).
  destruct (decide (k = src)) as [->|Hne].
  - rewrite lookup_insert_eq, assignStates_lookup.
    rewrite updateOneHopNeighbors_insert, lookup_insert_eq.
    cbn [fmap option_fmap option_map]. f_equal. apply helloEntry_again.
  - rewrite lookup_insert_ne, assignStates_lookup by done.
    destruct (oneHop1 !! k) as [e|]; simpl; [|done].
    by rewrite assignState_idemp.
Qed.

End hello_twice.

(** ** Ageing: facts *)

Lemma evictNeighbors_fold now (oneHop0 oneHop : gmap NodeID OneHopNeighborEntry.t)
    (twoHop : gmap NodeID (gmap NodeID NodeID)) :
  let r := map_fold (evictNeighbor now) (oneHop0, twoHop) oneHop in
  (∀ k, r.1 !! k
        = match oneHop !! k with
          | Some e => if bool_decide (OneHopNeighborEntry.holdUntil e ≤ now)
                      then None else oneHop0 !! k
          | None => oneHop0 !! k
          end) ∧
  (∀ k, r.2 !! k
        = match oneHop !! k with
          | Some e => if bool_decide (OneHopNeighborEntry.holdUntil e ≤ now)
                      then None else twoHop !! k
          | None => twoHop !! k
          end).
Proof.
  cbv zeta.
  apply (map_fold_weak_ind (λ r (m : gmap NodeID OneHopNeighborEntry.t),
    (∀ k, r.1 !! k
          = match m !! k with
            | Some e => if bool_decide (OneHopNeighborEntry.holdUntil e ≤ now)
                        then None else oneHop0 !! k
            | None => oneHop0 !! k
            end) ∧
    (∀ k, r.2 !! k
          = match m !! k with
            | Some e => if bool_decide (OneHopNeighborEntry.holdUntil e ≤ now)
                        then None else twoHop !! k
            | None => twoHop !! k
            end))).
  { split; intros k; by rewrite lookup_empty. }
  intros i x m [oh th] Hi [IH1 IH2]. simpl in IH1, IH2. unfold evictNeighbor.
  split; intros k; (destruct (decide (k = i)) as [->|Hne];
    [rewrite lookup_insert_eq|rewrite lookup_insert_ne by done]);
    case_bool_decide; simpl;
    rewrite ?lookup_delete_eq, ?lookup_delete_ne by done;
    rewrite ?IH1, ?IH2, ?Hi; done.
Qed.

(** The sweep keeps exactly the one-hop entries that have not expired, and
    drops the two-hop sets of those it deletes. *)
Lemma evictNeighbors_spec now oneHop twoHop :
  (∀ k, (evictNeighbors now oneHop twoHop).1 !! k
        = match oneHop !! k with
          | Some e => if bool_decide (OneHopNeighborEntry.holdUntil e ≤ now)
                      then None else Some e
          | None => None
          end) ∧
  (∀ k, (evictNeighbors now oneHop twoHop).2 !! k
        = match oneHop !! k with
          | Some e => if bool_decide (OneHopNeighborEntry.holdUntil e ≤ now)
                      then None else twoHop !! k
          | None => twoHop !! k
          end).
Proof.
  destruct (evictNeighbors_fold now oneHop oneHop twoHop) as [H1 H2].
  split; [|done]. intros k. unfold evictNeighbors. rewrite H1.
  destruct (oneHop !! k); [|done]. by case_bool_decide.
Qed.

Lemma evictTopology_lookup2 now tt d s :
  lookup2 (evictTopology now tt) d s
  = lookup2 tt d s ≫= λ e,
      if bool_decide (TopologyEntry.holdUntil e ≤ now) then None else Some e.
Proof.
  unfold lookup2, evictTopology. rewrite lookup_fmap.
  destruct (tt !! d) as [entries|]; simpl; [|done].
  rewrite map_lookup_filter. destruct (entries !! s) as [e|]; simpl; [|done].
  case_bool_decide.
  - by rewrite option_guard_False by (simpl; lia).
  - by rewrite option_guard_True by (simpl; lia).
Qed.

(** ** The tick loop: facts *)

Lemma handler_total msg n : msg ≠ Unknown → is_Some (handler msg n).
Proof.
  destruct msg as [m|m|m|]; simpl; intros Hk; [|eauto|eauto|done].
  by destruct (handleHello_total m n) as [n' ->].
Qed.

Lemma dispatch_total incoming n :
  knownMsg incoming → is_Some (dispatch incoming n).
Proof.
  destruct incoming as [msg|]; simpl; [|eauto].
  intros Hk. apply handler_total. by intros ->.
Qed.

Lemma handleHello_sameClock msg n n' :
  handleHello msg n = Some n' → sameClock n n'.
Proof. intros (mprs & _ & ->)%handleHello_Some. by repeat split. Qed.

Lemma handleTC_sameClock msg n : sameClock n (handleTC msg n).1.
Proof. unfold handleTC. case_bool_decide; by repeat split. Qed.

Lemma handler_sameClock msg n n' out :
  handler msg n = Some (n', out) → sameClock n n'.
Proof.
  destruct msg as [m|m|m|]; simpl; [| | |done].
  - destruct (handleHello m n) as [n1|] eqn:Hh; [|done]. simpl.
    intros [= <- _]. by apply handleHello_sameClock in Hh.
  - intros [= <- _]. by repeat split.
  - intros [= H]. pose proof (handleTC_sameClock m n) as Hs. by rewrite H in Hs.
Qed.

Lemma dispatch_sameClock incoming n n' out :
  dispatch incoming n = Some (n', out) → sameClock n n'.
Proof.
  destruct incoming as [msg|]; simpl; [apply handler_sameClock|].
  intros [= <- _]. by repeat split.
Qed.

(** No handler puts a TC of this node's own on the transmitter: a TC is
    forwarded only when its source is another node. *)
Lemma dispatch_ownTCSeqs incoming n n' out :
  dispatch incoming n = Some (n', out) → ownTCSeqs (Node.id n) out = [].
Proof.
  destruct incoming as [[m|m|m|]|]; simpl; [| | |done|by intros [= _ <-]].
  - destruct (handleHello m n); [|done]. simpl. by intros [= _ <-].
  - by intros [= _ <-].
  - unfold handleTC. case_bool_decide as Hsrc; intros [= _ <-]; [done|].
    simpl. by rewrite bool_decide_eq_false_2.
Qed.

Lemma emit_spec n :
  let due := bool_decide (mod_int (Node.currentTime n) 10 = 0) in
  (emit n).1 = (if due then Node.with_tcSequenceNum
                              (add_int (Node.tcSequenceNum n) 1) n else n) ∧
  ownTCSeqs (Node.id n) (emit n).2 = (if due then [Node.tcSequenceNum n] else []).
Proof.
  unfold emit, sendTC, sendHello. cbv zeta.
  destruct (bool_decide (mod_int (Node.currentTime n) 10 = 0));
    destruct (bool_decide (mod_int (Node.currentTime n) 5 = 0)); simpl;
    rewrite ?bool_decide_eq_true_2 by done; done.
Qed.

Lemma evict_fields n :
  Node.id (evict n) = Node.id n ∧
  Node.currentTime (evict n) = Node.currentTime n ∧
  Node.tcSequenceNum (evict n) = Node.tcSequenceNum n ∧
  Node.neighborHoldTime (evict n) = Node.neighborHoldTime n ∧
  Node.topologyHoldTime (evict n) = Node.topologyHoldTime n ∧
  Node.oneHopNeighbors (evict n)
  = (evictNeighbors (Node.currentTime n) (Node.oneHopNeighbors n)
       (Node.twoHopNeighbors n)).1 ∧
  Node.twoHopNeighbors (evict n)
  = (evictNeighbors (Node.currentTime n) (Node.oneHopNeighbors n)
       (Node.twoHopNeighbors n)).2 ∧
  Node.topologyTable (evict n)
  = evictTopology (Node.currentTime n) (Node.topologyTable n).
Proof. unfold evict. by destruct (evictNeighbors _ _ _). Qed.

Lemma tick_Some incoming n n' out :
  tick incoming n = Some (n', out) →
  ∃ n1 out1, dispatch incoming n = Some (n1, out1) ∧
    n' = Node.with_currentTime (add_int (Node.currentTime n1) 1)
           (evict (emit n1).1) ∧
    out = out1 ++ (emit n1).2.
Proof.
  unfold tick. destruct (dispatch incoming n) as [[n1 out1]|]; [|done].
  cbn [mbind option_bind]. destruct (emit n1) as [n2 out2] eqn:He.
  assert (Node.currentTime n2 = Node.currentTime n1) as Hct.
  { destruct (emit_spec n1) as [H1 _]. rewrite He in H1. simpl in H1. subst n2.
    by case_bool_decide. }
  intros [= <- <-]. exists n1, out1. split; [done|]. rewrite He. cbn [fst snd].
  split; [|done]. destruct (evict_fields n2) as (_ & -> & _). by rewrite Hct.
Qed.

Lemma tick_total incoming n : knownMsg incoming → is_Some (tick incoming n).
Proof.
  intros Hk. unfold tick.
  destruct (dispatch_total incoming n Hk) as [[n1 out1] ->]. simpl.
  destruct (emit n1) as [n2 out2]. eauto.
Qed.

(** A tick advances the clock by one, keeps the identity and the hold
    times, and bumps the TC counter exactly when a TC is emitted. *)
Lemma tick_fields incoming n n' out :
  tick incoming n = Some (n', out) →
  let due := bool_decide (mod_int (Node.currentTime n) 10 = 0) in
  Node.id n' = Node.id n ∧
  Node.currentTime n' = add_int (Node.currentTime n) 1 ∧
  Node.neighborHoldTime n' = Node.neighborHoldTime n ∧
  Node.topologyHoldTime n' = Node.topologyHoldTime n ∧
  Node.tcSequenceNum n'
  = (if due then add_int (Node.tcSequenceNum n) 1 else Node.tcSequenceNum n) ∧
  ownTCSeqs (Node.id n) out = (if due then [Node.tcSequenceNum n] else []).
Proof.
  intros (n1 & out1 & Hd & -> & ->)%tick_Some. cbv zeta.
  pose proof (dispatch_ownTCSeqs _ _ _ _ Hd) as Hown.
  apply dispatch_sameClock in Hd as (Hid & Hct & Htc & Hn & Ht).
  destruct (emit_spec n1) as [He Ho]. rewrite Hct, Hid in *.
  destruct (evict_fields (emit n1).1) as (E1 & E2 & E3 & E4 & E5 & _).
  unfold ownTCSeqs in *. rewrite omap_app, Hown, Ho. simpl.
  rewrite E1, E3, E4, E5, He.
  case_bool_decide; simpl; rewrite ?Htc; done.
Qed.

Lemma loop_fields inputs n n' out :
  loop inputs n = Some (n', out) →
  Node.id n' = Node.id n ∧
  Node.neighborHoldTime n' = Node.neighborHoldTime n ∧
  Node.topologyHoldTime n' = Node.topologyHoldTime n ∧
  (int_range (Node.currentTime n) → int_range (Node.currentTime n')).
Proof.
  revert n out. induction inputs as [|incoming inputs IH]; intros n out; simpl.
  { by intros [= <- _]. }
  destruct (tick incoming n) as [[n1 out1]|] eqn:Ht; [|done]. simpl.
  destruct (loop inputs n1) as [[n2 out2]|] eqn:Hl; [|done]. simpl.
  intros [= <- _]. apply IH in Hl as (-> & -> & -> & Hr).
  apply tick_fields in Ht as (-> & Hct & -> & -> & _).
  split; [done|]. split; [done|]. split; [done|].
  intros _. apply Hr. rewrite Hct. apply wrap_int_range.
Qed.

Lemma loop_total inputs n : Forall knownMsg inputs → is_Some (loop inputs n).
Proof.
  intros Hk. revert n. induction Hk as [|incoming inputs Hi _ IH]; intros n; simpl.
  { eauto. }
  destruct (tick_total incoming n Hi) as [[n1 out1] ->]. simpl.
  destruct (IH n1) as [[n2 out2] ->]. simpl. eauto.
Qed.

Lemma emit_tables n :
  Node.oneHopNeighbors (emit n).1 = Node.oneHopNeighbors n ∧
  Node.twoHopNeighbors (emit n).1 = Node.twoHopNeighbors n ∧
  Node.topologyTable (emit n).1 = Node.topologyTable n ∧
  Node.currentTime (emit n).1 = Node.currentTime n.
Proof. destruct (emit_spec n) as [-> _]. by case_bool_decide. Qed.

(** After the sweeps of a tick run at time [now], every entry left in the
    neighbour and topology tables has a hold beyond [now]. *)
Lemma evict_holds n :
  (∀ k e, Node.oneHopNeighbors (evict n) !! k = Some e →
          Node.currentTime n < OneHopNeighborEntry.holdUntil e) ∧
  (∀ d s e, lookup2 (Node.topologyTable (evict n)) d s = Some e →
            Node.currentTime n < TopologyEntry.holdUntil e).
Proof.
  destruct (evict_fields n) as (_ & _ & _ & _ & _ & -> & _ & ->). split.
  - intros k e. destruct (evictNeighbors_spec (Node.currentTime n)
      (Node.oneHopNeighbors n) (Node.twoHopNeighbors n)) as [-> _].
    destruct (Node.oneHopNeighbors n !! k) as [e0|]; [|done].
    case_bool_decide; [done|]. intros [= <-]. lia.
  - intros d s e. rewrite evictTopology_lookup2.
    destruct (lookup2 (Node.topologyTable n) d s) as [e0|]; [|done]. simpl.
    case_bool_decide; [done|]. intros [= <-]. lia.
Qed.

(** *** The two-hop keys stay within the one-hop keys *)

Lemma handleHello_twoHopKeysKnown msg n n' :
  twoHopKeysKnown n → handleHello msg n = Some n' → twoHopKeysKnown n'.
Proof.
  intros Hinv (mprs & _ & ->)%handleHello_Some k. simpl.
  rewrite assignStates_lookup, updateOneHopNeighbors_insert, fmap_is_Some.
  unfold updateTwoHopNeighbors.
  destruct (decide (k = HelloMessage.src msg)) as [->|Hne].
  - rewrite !lookup_insert_eq. eauto.
  - rewrite !lookup_insert_ne by done. apply Hinv.
Qed.

Lemma handleTC_twoHopKeysKnown msg n :
  twoHopKeysKnown n → twoHopKeysKnown (handleTC msg n).1.
Proof. unfold handleTC. by case_bool_decide. Qed.

Lemma dispatch_twoHopKeysKnown incoming n n' out :
  twoHopKeysKnown n → dispatch incoming n = Some (n', out) → twoHopKeysKnown n'.
Proof.
  intros Hinv. destruct incoming as [[m|m|m|]|]; simpl; [| | |done|].
  - destruct (handleHello m n) as [n1|] eqn:Hh; [|done]. simpl.
    intros [= <- _]. by eapply handleHello_twoHopKeysKnown.
  - by intros [= <- _].
  - intros [= H]. pose proof (handleTC_twoHopKeysKnown m n Hinv) as Hs.
    by rewrite H in Hs.
  - by intros [= <- _].
Qed.

Lemma evict_twoHopKeysKnown n : twoHopKeysKnown n → twoHopKeysKnown (evict n).
Proof.
  intros Hinv k. destruct (evict_fields n) as (_ & _ & _ & _ & _ & -> & -> & _).
  destruct (evictNeighbors_spec (Node.currentTime n) (Node.oneHopNeighbors n)
    (Node.twoHopNeighbors n)) as [-> ->].
  specialize (Hinv k).
  destruct (Node.oneHopNeighbors n !! k) as [e|]; [|done].
  case_bool_decide; [by intros [? ?]|eauto].
Qed.

Lemma tick_twoHopKeysKnown incoming n n' out :
  twoHopKeysKnown n → tick incoming n = Some (n', out) → twoHopKeysKnown n'.
Proof.
  intros Hinv (n1 & out1 & Hd & -> & _)%tick_Some.
  apply dispatch_twoHopKeysKnown in Hd; [|done].
  assert (twoHopKeysKnown (emit n1).1) as He.
  { intros k. destruct (emit_tables n1) as (-> & -> & _). apply Hd. }
  apply evict_twoHopKeysKnown in He. exact He.
Qed.

Lemma loop_twoHopKeysKnown inputs n n' out :
  twoHopKeysKnown n → loop inputs n = Some (n', out) → twoHopKeysKnown n'.
Proof.
  revert n out. induction inputs as [|incoming inputs IH]; intros n out Hinv; simpl.
  { by intros [= <- _]. }
  destruct (tick incoming n) as [[n1 out1]|] eqn:Ht; [|done]. simpl.
  destruct (loop inputs n1) as [[n2 out2]|] eqn:Hl; [|done]. simpl.
  intros [= <- _]. eapply IH; [|done]. by eapply tick_twoHopKeysKnown.
Qed.

(** *** The TC counter along a run *)

Lemma ownTCSeqs_app id out1 out2 :
  ownTCSeqs id (out1 ++ out2) = ownTCSeqs id out1 ++ ownTCSeqs id out2.
Proof. unfold ownTCSeqs. apply omap_app. Qed.

(** As long as the counter stays within the range of [int], the own TCs of
    a run carry the consecutive numbers from the counter's start. *)
Lemma loop_ownTCSeqs inputs n n' out :
  loop inputs n = Some (n', out) →
  0 ≤ Node.tcSequenceNum n →
  Node.tcSequenceNum n + Z.of_nat (length inputs) ≤ int_max →
  ∃ k, 0 ≤ k ≤ Z.of_nat (length inputs) ∧
       ownTCSeqs (Node.id n) out = seqZ (Node.tcSequenceNum n) k ∧
       Node.tcSequenceNum n' = Node.tcSequenceNum n + k.
Proof.
  revert n out. induction inputs as [|incoming inputs IH]; intros n out; simpl.
  { intros [= <- <-] _ _. exists 0. rewrite seqZ_nil by done. split; [lia|].
    split; [done|lia]. }
  destruct (tick incoming n) as [[n1 out1]|] eqn:Ht; [|done]. simpl.
  destruct (loop inputs n1) as [[n2 out2]|] eqn:Hl; [|done]. simpl.
  intros [= <- <-] H0 Hmax.
  apply tick_fields in Ht as (Hid & _ & _ & _ & Htc & Hown).
  assert (add_int (Node.tcSequenceNum n) 1 = Node.tcSequenceNum n + 1) as Hadd.
  { apply wrap_int_small. unfold int_range, int_min, int_max in *. lia. }
  rewrite Hadd in Htc.
  destruct (IH n1 out2 Hl) as (k & Hk & Hseq & Hfin).
  { case_bool_decide; lia. }
  { case_bool_decide; lia. }
  rewrite ownTCSeqs_app, Hown, <-Hid, Hseq, Hfin, Htc.
  case_bool_decide.
  - exists (k + 1). split; [lia|]. split; [|lia].
    rewrite (seqZ_cons _ (k + 1)) by lia.
    by replace (Z.pred (k + 1)) with k by lia.
  - exists k. split; [lia|]. done.
Qed.

Lemma seqZ_increasing m k (i j : nat) a b :
  seqZ m k !! i = Some a → seqZ m k !! j = Some b → (i < j)%nat → a < b.
Proof. intros [-> _]%lookup_seqZ [-> _]%lookup_seqZ. lia. Qed.

(** * The claims *)

(** C1, as stated, fails: a node made by [NewNode] that hears node 1 in its
    first tick and nothing afterwards still holds, after fifteen ticks, the
    entry of node 1 with [holdUntil = 15 = currentTime]. *)
Lemma hold_discipline_counterexample :
  ∃ n out e,
    run helloThenQuiet (NewNode 0 exampleNodeMsg) = Some (n, out) ∧
    Node.oneHopNeighbors n !! 1%N = Some e ∧
    ¬ (OneHopNeighborEntry.holdUntil e > Node.currentTime n).
Proof.
  eexists _, _, _. split; [by vm_compute|]. split; [by vm_compute|].
  vm_compute. by intros [=].
Qed.

(** C1, amended: after every tick (dispatch, periodic emissions, the two
    sweeps, then the clock increment) every one-hop entry and every
    topology entry has [holdUntil >= currentTime]: the sweeps run before
    the increment and keep what is strictly above the old clock value. *)
Theorem tick_hold_discipline incoming n :
  knownMsg incoming → int_range (Node.currentTime n) →
  ∃ n' out, tick incoming n = Some (n', out) ∧
    (∀ k e, Node.oneHopNeighbors n' !! k = Some e →
            Node.currentTime n' ≤ OneHopNeighborEntry.holdUntil e) ∧
    (∀ d s e, lookup2 (Node.topologyTable n') d s = Some e →
              Node.currentTime n' ≤ TopologyEntry.holdUntil e).
Proof.
  intros Hk Hr. destruct (tick_total incoming n Hk) as [[n' out] Ht].
  exists n', out. split; [done|].
  apply tick_Some in Ht as (n1 & out1 & Hd & -> & _).
  apply dispatch_sameClock in Hd as (_ & Hct & _).
  destruct (evict_holds (emit n1).1) as [H1 H2].
  destruct (emit_tables n1) as (_ & _ & _ & Hce). rewrite Hce, Hct in H1, H2.
  simpl. rewrite Hct.
  split; [intros k e He|intros d s e He]; apply add_int_1_le; eauto.
Qed.

Lemma tick_hold_discipline_witness :
  knownMsg (Some (Hello helloFrom1)) ∧
  int_range (Node.currentTime (NewNode 0 exampleNodeMsg)) ∧
  ∃ n' out,
    tick (Some (Hello helloFrom1)) (NewNode 0 exampleNodeMsg) = Some (n', out) ∧
    (∀ k e, Node.oneHopNeighbors n' !! k = Some e →
            Node.currentTime n' ≤ OneHopNeighborEntry.holdUntil e) ∧
    (∀ d s e, lookup2 (Node.topologyTable n') d s = Some e →
              Node.currentTime n' ≤ TopologyEntry.holdUntil e).
Proof.
  assert (knownMsg (Some (Hello helloFrom1))) as Hk by (intros H; discriminate H).
  assert (int_range (Node.currentTime (NewNode 0 exampleNodeMsg))) as Hr
    by (vm_compute; split; intros H; discriminate H).
  split; [exact Hk|]. split; [exact Hr|].
  exact (tick_hold_discipline (Some (Hello helloFrom1))
           (NewNode 0 exampleNodeMsg) Hk Hr).
Defined.

(** C2, as stated, fails on tables where a key of the two-hop table has no
    one-hop entry: the lookup yields the zero entry, whose state is
    [Bidirectional], so the stray key 1 is selected and covers node 5,
    while the one-hop neighbour 2 that announces node 5 stays
    [Bidirectional] and no entry is in state [MPR]. *)
Lemma calculateMPRs_cover_counterexample :
  ∃ oneHop',
    calculateMPRs strayOneHop strayTwoHop = Some oneHop' ∧
    (∃ k e v, strayOneHop !! k = Some e ∧
              OneHopNeighborEntry.state e ≠ Unidirectional ∧
              strayTwoHop !! k = Some v ∧ is_Some (v !! 5%N)) ∧
    ¬ (∃ m em vm, oneHop' !! m = Some em ∧
                  OneHopNeighborEntry.state em = MPR ∧
                  strayTwoHop !! m = Some vm ∧ is_Some (vm !! 5%N)).
Proof.
  exists strayOneHop. split; [by vm_compute|]. split.
  - exists 2%N, (OneHopNeighborEntry.mk 2 Bidirectional 20), {[ 5%N := 5%N ]}.
    split; [by vm_compute|]. split; [done|]. split; [by vm_compute|].
    exists 5%N. by vm_compute.
  - intros (m & em & vm & Hm & Hst & _).
    destruct (decide (m = 2%N)) as [->|Hne].
    + vm_compute in Hm. injection Hm as <-. discriminate Hst.
    + unfold strayOneHop in Hm. by rewrite lookup_singleton_ne in Hm.
Qed.

(** C2, amended: when every key of the two-hop table is a key of the
    one-hop table (which [handleHello] and the sweep maintain),
    [calculateMPRs] returns, and every id announced by a one-hop neighbour
    that is not [Unidirectional] is in the two-hop set of some one-hop
    entry whose resulting state is [MPR]. *)
Theorem calculateMPRs_cover oneHop twoHop :
  (∀ k, is_Some (twoHop !! k) → is_Some (oneHop !! k)) →
  ∃ oneHop',
    calculateMPRs oneHop twoHop = Some oneHop' ∧
    ∀ k e v x,
      oneHop !! k = Some e → OneHopNeighborEntry.state e ≠ Unidirectional →
      twoHop !! k = Some v → is_Some (v !! x) →
      ∃ m em vm, oneHop' !! m = Some em ∧
                 OneHopNeighborEntry.state em = MPR ∧
                 twoHop !! m = Some vm ∧ is_Some (vm !! x).
Proof.
  intros Hkeys. destruct (calculateMPRs_total oneHop twoHop) as [oneHop' Hc].
  exists oneHop'. split; [done|].
  apply calculateMPRs_Some in Hc as (mprs & Hsel & ->).
  destruct (selectMPRs_spec _ _ _ Hsel) as [_ Hcov].
  intros k e v x Hk Hst Hv Hx.
  destruct (Hcov k v x Hv) as (m & vm & Hm & Hvm & Hxm).
  { unfold nonUnidirectional. by rewrite lookup_total_alt, Hk. }
  { by apply elem_of_dom. }
  destruct (Hkeys m) as [em Hem]; [eauto|].
  exists m, (assignState mprs m em), vm.
  rewrite assignStates_lookup, Hem. split; [done|]. split.
  - unfold assignState. by rewrite decide_True.
  - split; [done|]. by apply elem_of_dom.
Qed.

Lemma calculateMPRs_cover_witness :
  (∀ k, is_Some (coverTwoHop !! k) → is_Some (coverOneHop !! k)) ∧
  ∃ oneHop',
    calculateMPRs coverOneHop coverTwoHop = Some oneHop' ∧
    ∀ k e v x,
      coverOneHop !! k = Some e → OneHopNeighborEntry.state e ≠ Unidirectional →
      coverTwoHop !! k = Some v → is_Some (v !! x) →
      ∃ m em vm, oneHop' !! m = Some em ∧
                 OneHopNeighborEntry.state em = MPR ∧
                 coverTwoHop !! m = Some vm ∧ is_Some (vm !! x).
Proof.
  assert (∀ k, is_Some (coverTwoHop !! k) → is_Some (coverOneHop !! k)) as Hkeys.
  { intros k. unfold coverTwoHop, coverOneHop.
    destruct (decide (k = 1%N)) as [->|H1]; [intros _; vm_compute; eauto|].
    destruct (decide (k = 2%N)) as [->|H2]; [intros _; vm_compute; eauto|].
    rewrite lookup_insert_ne, lookup_singleton_ne by done. by intros [? ?]. }
  split; [exact Hkeys|]. exact (calculateMPRs_cover coverOneHop coverTwoHop Hkeys).
Defined.

(** C3, as stated, fails for a first-time source that lists this node: the
    first handling enters node 1 as [Unidirectional], the second finds the
    entry and promotes it to [Bidirectional] (and the MPR selection then
    picks it). *)
Lemma handleHello_twice_counterexample :
  ∃ n1 n2,
    handleHello helloFrom1 (NewNode 0 exampleNodeMsg) = Some n1 ∧
    handleHello helloFrom1 n1 = Some n2 ∧
    n2 ≠ n1.
Proof.
  eexists _, _. split; [by vm_compute|]. split; [by vm_compute|].
  intros H. apply (f_equal (λ n, Node.oneHopNeighbors n !! 1%N)) in H.
  vm_compute in H. discriminate H.
Qed.

(** C3, amended: handling the same HELLO twice at the same tick yields
    exactly the node state of handling it once, provided the source
    already had a one-hop entry before the first handling or the node's own
    id is listed in none of the message's lists. *)
Theorem handleHello_idempotent msg n :
  is_Some (Node.oneHopNeighbors n !! HelloMessage.src msg) ∨
  Node.id n ∉ HelloMessage.unidir msg ++
              (HelloMessage.bidir msg ++ HelloMessage.mpr msg) →
  ∃ n1, handleHello msg n = Some n1 ∧ handleHello msg n1 = Some n1.
Proof.
  intros Hcond. destruct (handleHello_total msg n) as [n1 H1].
  exists n1. split; [done|].
  apply handleHello_Some in H1 as (mprs & Hsel & ->).
  unfold handleHello. cbn [Node.oneHopNeighbors Node.twoHopNeighbors Node.msSet
    Node.currentTime Node.neighborHoldTime Node.id Node.with_msSet
    Node.with_twoHopNeighbors Node.with_oneHopNeighbors].
  set (h := add_int (Node.currentTime n) (Node.neighborHoldTime n)) in *.
  assert (updateTwoHopNeighbors msg
            (updateTwoHopNeighbors msg (Node.twoHopNeighbors n) (Node.id n))
            (Node.id n)
          = updateTwoHopNeighbors msg (Node.twoHopNeighbors n) (Node.id n)) as ->.
  { unfold updateTwoHopNeighbors. apply insert_insert_eq. }
  unfold calculateMPRs.
  rewrite (selectMPRs_ext _ _ _
             (updateOneHopNeighbors_again_nonUnidirectional
                msg h (Node.id n) (Node.oneHopNeighbors n) _ mprs Hcond Hsel)).
  rewrite Hsel. cbn [mbind option_bind].
  rewrite (assignStates_again msg h (Node.id n) (Node.oneHopNeighbors n) _ mprs
             Hcond Hsel).
  by rewrite updateMSSet_idemp.
Qed.

Lemma handleHello_idempotent_witness :
  (is_Some (Node.oneHopNeighbors nodeKnowing1 !! HelloMessage.src helloFrom1) ∨
   Node.id nodeKnowing1
     ∉ HelloMessage.unidir helloFrom1 ++
       (HelloMessage.bidir helloFrom1 ++ HelloMessage.mpr helloFrom1)) ∧
  ∃ n1, handleHello helloFrom1 nodeKnowing1 = Some n1 ∧
        handleHello helloFrom1 n1 = Some n1.
Proof.
  assert (is_Some (Node.oneHopNeighbors nodeKnowing1
                     !! HelloMessage.src helloFrom1)) as Hs.
  { exists (OneHopNeighborEntry.mk 1 Unidirectional 15). vm_compute. reflexivity. }
  split; [by left|].
  exact (handleHello_idempotent helloFrom1 nodeKnowing1 (or_introl Hs)).
Defined.

(** C4: for an entry stored at [topologyTable[d][s]] with sequence number
    [p], a TC from [s] that lists [d] with sequence number [q] leaves the
    entry untouched when [q <= p], and when [q > p] changes nothing but
    [holdUntil], set to the hold passed by the handler
    ([now + topologyHoldTime]); [msSeqNum] stays [p]. *)
Theorem updateTopologyTable_dedup msg topologyTable holdUntil d e :
  lookup2 topologyTable d (TCMessage.src msg) = Some e →
  d ∈ TCMessage.ms msg →
  ∃ e',
    lookup2 (updateTopologyTable msg topologyTable holdUntil) d
      (TCMessage.src msg) = Some e' ∧
    (TCMessage.seq msg ≤ TopologyEntry.msSeqNum e → e' = e) ∧
    (TopologyEntry.msSeqNum e < TCMessage.seq msg →
       e' = TopologyEntry.mk (TopologyEntry.dst e) (TopologyEntry.dstMPR e)
              (TopologyEntry.msSeqNum e) holdUntil).
Proof.
  intros He Hd. exists (refreshEntry msg holdUntil e). split.
  - by apply updateTopologyTable_stored.
  - unfold refreshEntry. split; intros Hq.
    + by rewrite bool_decide_eq_false_2 by lia.
    + by rewrite bool_decide_eq_true_2 by lia.
Qed.

Lemma updateTopologyTable_dedup_witness :
  lookup2 topologyWith9 9 (TCMessage.src tcFrom5)
  = Some (TopologyEntry.mk 9 5 7 150) ∧
  9%N ∈ TCMessage.ms tcFrom5 ∧
  ∃ e',
    lookup2 (updateTopologyTable tcFrom5 topologyWith9 180) 9
      (TCMessage.src tcFrom5) = Some e' ∧
    (TCMessage.seq tcFrom5 ≤ 7 → e' = TopologyEntry.mk 9 5 7 150) ∧
    (7 < TCMessage.seq tcFrom5 → e' = TopologyEntry.mk 9 5 7 180).
Proof.
  assert (lookup2 topologyWith9 9 (TCMessage.src tcFrom5)
          = Some (TopologyEntry.mk 9 5 7 150)) as He by (vm_compute; reflexivity).
  assert (9%N ∈ TCMessage.ms tcFrom5) as Hd by (simpl; apply list_elem_of_here).
  split; [exact He|]. split; [exact Hd|].
  exact (updateTopologyTable_dedup tcFrom5 topologyWith9 180 9
           (TopologyEntry.mk 9 5 7 150) He Hd).
Defined.

(** C5: a node made by [NewNode] has [neighborHoldTime = 15] and
    [topologyHoldTime = 0], and keeps them; whatever ticks it has run, an
    entry the TC handler creates at tick [t] has [holdUntil = t + 0 = t],
    and every pair a foreign TC lists and the table lacks is so created. *)
Theorem NewNode_hold_times id nodeMsg :
  Node.neighborHoldTime (NewNode id nodeMsg) = 15 ∧
  Node.topologyHoldTime (NewNode id nodeMsg) = 0 ∧
  ∀ inputs n out,
    run inputs (NewNode id nodeMsg) = Some (n, out) →
    Node.neighborHoldTime n = 15 ∧
    Node.topologyHoldTime n = 0 ∧
    ∀ msg d,
      (∀ s e,
         lookup2 (Node.topologyTable n) d s = None →
         lookup2 (Node.topologyTable (handleTC msg n).1) d s = Some e →
         TopologyEntry.holdUntil e = Node.currentTime n) ∧
      (TCMessage.src msg ≠ Node.id n → d ∈ TCMessage.ms msg →
       lookup2 (Node.topologyTable n) d (TCMessage.src msg) = None →
       ∃ e, lookup2 (Node.topologyTable (handleTC msg n).1) d
              (TCMessage.src msg) = Some e ∧
            TopologyEntry.holdUntil e = Node.currentTime n).
Proof.
  split; [done|]. split; [done|]. intros inputs n out Hrun.
  apply loop_fields in Hrun as (_ & Hn & Ht & Hr). simpl in Hn, Ht, Hr.
  split; [done|]. split; [done|]. intros msg d.
  assert (add_int (Node.currentTime n) (Node.topologyHoldTime n)
          = Node.currentTime n) as Hh.
  { rewrite Ht. apply add_int_0_r, Hr. by vm_compute. }
  unfold handleTC. case_bool_decide as Hsrc; simpl; rewrite ?Hh; split.
  - intros s e Hnone Hsome. congruence.
  - done.
  - intros s e Hnone [?|?]%updateTopologyTable_lookup2; [done|congruence].
  - intros _ Hd Hnone. by apply updateTopologyTable_created.
Qed.

Lemma NewNode_hold_times_witness :
  run [None; None] (NewNode 0 exampleNodeMsg)
  = Some (Node.mk 0 exampleNodeMsg ∅ 1 0 [] ∅ ∅ ∅ 2 15,
          [Hello (HelloMessage.mk 0 [] [] []); TC (TCMessage.mk 0 0 0 [])]) ∧
  TCMessage.src tcFrom5 ≠ 0%N ∧
  9%N ∈ TCMessage.ms tcFrom5 ∧
  lookup2 ∅ 9 (TCMessage.src tcFrom5) = None ∧
  ∃ e, lookup2 (Node.topologyTable
                  (handleTC tcFrom5
                     (Node.mk 0 exampleNodeMsg ∅ 1 0 [] ∅ ∅ ∅ 2 15)).1) 9
         (TCMessage.src tcFrom5) = Some e ∧
       TopologyEntry.holdUntil e = 2.
Proof.
  assert (run [None; None] (NewNode 0 exampleNodeMsg)
          = Some (Node.mk 0 exampleNodeMsg ∅ 1 0 [] ∅ ∅ ∅ 2 15,
                  [Hello (HelloMessage.mk 0 [] [] []);
                   TC (TCMessage.mk 0 0 0 [])])) as Hrun
    by (vm_compute; reflexivity).
  assert (TCMessage.src tcFrom5 ≠ 0%N) as Hsrc by (intros H; discriminate H).
  assert (9%N ∈ TCMessage.ms tcFrom5) as Hd by (simpl; apply list_elem_of_here).
  assert (lookup2 (∅ : gmap NodeID (gmap NodeID TopologyEntry.t)) 9
            (TCMessage.src tcFrom5) = None) as Hnone by reflexivity.
  split; [exact Hrun|]. split; [exact Hsrc|]. split; [exact Hd|].
  split; [exact Hnone|].
  exact (proj2 (proj2 (proj2 (proj2 (proj2 (NewNode_hold_times 0 exampleNodeMsg))
                  [None; None] _ _ Hrun)) tcFrom5 9%N) Hsrc Hd Hnone).
Defined.

(** C6: after the HELLO handler, the two-hop set stored under the source
    holds exactly the ids of the message's [unidir] and [bidir] lists other
    than the node's own id (each mapped to itself), whatever was stored
    before and whatever the [mpr] list holds. *)
Theorem handleHello_twoHop_fresh msg n :
  ∃ n' twoHop,
    handleHello msg n = Some n' ∧
    Node.twoHopNeighbors n' !! HelloMessage.src msg = Some twoHop ∧
    ∀ k, twoHop !! k
         = if decide ((k ∈ HelloMessage.unidir msg ∨ k ∈ HelloMessage.bidir msg)
                      ∧ k ≠ Node.id n)
           then Some k else None.
Proof.
  destruct (handleHello_total msg n) as [n' Hh].
  exists n', (twoHops msg (Node.id n)). split; [done|].
  apply handleHello_Some in Hh as (mprs & _ & ->). split.
  - simpl. unfold updateTwoHopNeighbors. apply lookup_insert_eq.
  - intros k. rewrite twoHops_lookup.
    destruct (decide (k ∈ HelloMessage.unidir msg ++ HelloMessage.bidir msg
                      ∧ k ≠ Node.id n)) as [[Hin Hne]|Hn].
    + rewrite decide_True; [done|]. by apply elem_of_app in Hin.
    + rewrite decide_False; [done|]. intros [Hin Hne]. apply Hn.
      by rewrite elem_of_app.
Qed.

(** C7: a TC whose source is the node itself leaves the node as it is and
    emits nothing; any other TC updates the topology table and is put on
    the transmitter with [fromnbr] rewritten to the node's id, and what is
    emitted does not depend on the MS set. *)
Theorem handleTC_drop_or_forward msg n :
  (TCMessage.src msg = Node.id n → handleTC msg n = (n, [])) ∧
  (TCMessage.src msg ≠ Node.id n →
   handleTC msg n
   = (Node.with_topologyTable
        (updateTopologyTable msg (Node.topologyTable n)
           (add_int (Node.currentTime n) (Node.topologyHoldTime n))) n,
      [TC (TCMessage.mk (TCMessage.src msg) (Node.id n) (TCMessage.seq msg)
             (TCMessage.ms msg))])) ∧
  (∀ msSet, (handleTC msg (Node.with_msSet msSet n)).2 = (handleTC msg n).2).
Proof.
  unfold handleTC. split; [|split].
  - intros Hs. by rewrite bool_decide_eq_true_2.
  - intros Hs. by rewrite bool_decide_eq_false_2.
  - intros msSet. simpl. by case_bool_decide.
Qed.

Lemma handleTC_drop_or_forward_witness :
  TCMessage.src tcFrom5 ≠ Node.id nodeKnowing1 ∧
  handleTC tcFrom5 nodeKnowing1
  = (Node.with_topologyTable
       (updateTopologyTable tcFrom5 (Node.topologyTable nodeKnowing1)
          (add_int (Node.currentTime nodeKnowing1)
             (Node.topologyHoldTime nodeKnowing1))) nodeKnowing1,
     [TC (TCMessage.mk 5 0 7 [9%N])]).
Proof.
  assert (TCMessage.src tcFrom5 ≠ Node.id nodeKnowing1) as Hs
    by (intros H; discriminate H).
  split; [exact Hs|].
  exact (proj1 (proj2 (handleTC_drop_or_forward tcFrom5 nodeKnowing1)) Hs).
Defined.

(** C8: along any run of a node made by [NewNode] (of at most [2^63 - 1]
    ticks, so that the [int] counter does not wrap), the TC messages the
    node originates carry the sequence numbers 0, 1, 2, ... in emission
    order: they start at 0 and are strictly increasing, and the counter
    ends as the number of TCs emitted. *)
Theorem run_tc_sequence id nodeMsg inputs :
  Forall knownMsg inputs →
  Z.of_nat (length inputs) ≤ int_max →
  ∃ n out,
    run inputs (NewNode id nodeMsg) = Some (n, out) ∧
    ownTCSeqs id out = seqZ 0 (Node.tcSequenceNum n) ∧
    Node.tcSequenceNum n = Z.of_nat (length (ownTCSeqs id out)) ∧
    (∀ a, head (ownTCSeqs id out) = Some a → a = 0) ∧
    (∀ (i j : nat) a b,
       ownTCSeqs id out !! i = Some a → ownTCSeqs id out !! j = Some b →
       (i < j)%nat → a < b).
Proof.
  intros Hk Hlen. unfold run.
  destruct (loop_total inputs (Node.with_currentTime 0 (NewNode id nodeMsg)) Hk)
    as [[n out] Hl].
  exists n, out. split; [done|].
  apply loop_ownTCSeqs in Hl as (k & Hk0 & Hseq & Hfin); simpl in *; [|done..].
  rewrite Hseq, Hfin, Z.add_0_l, length_seqZ. split; [done|]. split; [lia|].
  split.
  - intros a. rewrite head_lookup. by intros [-> _]%lookup_seqZ.
  - intros i j a b. apply seqZ_increasing.
Qed.

Lemma run_tc_sequence_witness :
  Forall knownMsg (replicate 11 None) ∧
  Z.of_nat (length (replicate 11 (@None Msg))) ≤ int_max ∧
  ∃ n out,
    run (replicate 11 None) (NewNode 0 exampleNodeMsg) = Some (n, out) ∧
    ownTCSeqs 0 out = seqZ 0 (Node.tcSequenceNum n) ∧
    Node.tcSequenceNum n = Z.of_nat (length (ownTCSeqs 0 out)) ∧
    (∀ a, head (ownTCSeqs 0 out) = Some a → a = 0) ∧
    (∀ (i j : nat) a b,
       ownTCSeqs 0 out !! i = Some a → ownTCSeqs 0 out !! j = Some b →
       (i < j)%nat → a < b).
Proof.
  assert (Forall knownMsg (replicate 11 None)) as Hk.
  { apply Forall_replicate. intros H. discriminate H. }
  assert (Z.of_nat (length (replicate 11 (@None Msg))) ≤ int_max) as Hlen.
  { vm_compute. intros H. discriminate H. }
  split; [exact Hk|]. split; [exact Hlen|].
  exact (run_tc_sequence 0 exampleNodeMsg (replicate 11 None) Hk Hlen).
Defined.

(** Eleven ticks without a message: two TCs are emitted, numbered 0 and 1. *)
Example run_eleven_ticks_seqs :
  (λ r, ownTCSeqs 0 r.2) <$> run (replicate 11 None) (NewNode 0 exampleNodeMsg)
  = Some [0; 1].
Proof. by vm_compute. Qed.

(** C9: every key of the two-hop table is a key of the one-hop table: this
    holds of a fresh node, every handler, the TC emission and a whole tick
    (with its sweep) preserve it, and so it holds after any run. *)
Theorem twoHop_keys_in_oneHop :
  (∀ id nodeMsg, twoHopKeysKnown (NewNode id nodeMsg)) ∧
  (∀ n, twoHopKeysKnown n →
     (∀ msg, ∃ n', handleHello msg n = Some n' ∧ twoHopKeysKnown n') ∧
     (∀ msg, twoHopKeysKnown (handleTC msg n).1) ∧
     (∀ msg, twoHopKeysKnown (handleData msg n)) ∧
     twoHopKeysKnown (sendTC n).1 ∧
     (∀ incoming, knownMsg incoming →
        ∃ n' out, tick incoming n = Some (n', out) ∧ twoHopKeysKnown n')) ∧
  (∀ id nodeMsg inputs, Forall knownMsg inputs →
     ∃ n out, run inputs (NewNode id nodeMsg) = Some (n, out) ∧
              twoHopKeysKnown n).
Proof.
  assert (∀ id nodeMsg, twoHopKeysKnown (NewNode id nodeMsg)) as Hnew.
  { intros id nodeMsg k. simpl. by rewrite lookup_empty. }
  split; [done|]. split.
  - intros n Hinv. split; [|split; [|split; [|split]]].
    + intros msg. destruct (handleHello_total msg n) as [n' Hh].
      exists n'. split; [done|]. by eapply handleHello_twoHopKeysKnown.
    + intros msg. by apply handleTC_twoHopKeysKnown.
    + done.
    + done.
    + intros incoming Hk. destruct (tick_total incoming n Hk) as [[n' out] Ht].
      exists n', out. split; [done|]. by eapply tick_twoHopKeysKnown.
  - intros id nodeMsg inputs Hk. unfold run.
    destruct (loop_total inputs (Node.with_currentTime 0 (NewNode id nodeMsg)) Hk)
      as [[n out] Hl].
    exists n, out. split; [done|].
    eapply loop_twoHopKeysKnown; [|done]. apply (Hnew id nodeMsg).
Qed.

Lemma twoHop_keys_in_oneHop_witness :
  twoHopKeysKnown nodeKnowing1 ∧
  knownMsg (Some (Hello helloFrom1)) ∧
  ∃ n' out, tick (Some (Hello helloFrom1)) nodeKnowing1 = Some (n', out) ∧
            twoHopKeysKnown n'.
Proof.
  assert (twoHopKeysKnown nodeKnowing1) as Hinv.
  { intros k. unfold nodeKnowing1. simpl.
    destruct (decide (k = 1%N)) as [->|Hne].
    - intros _. exists (OneHopNeighborEntry.mk 1 Unidirectional 15).
      vm_compute. reflexivity.
    - rewrite lookup_singleton_ne by done. by intros [? ?]. }
  assert (knownMsg (Some (Hello helloFrom1))) as Hk by (intros H; discriminate H).
  split; [exact Hinv|]. split; [exact Hk|].
  exact (proj2 (proj2 (proj2 (proj2
           (proj1 (proj2 twoHop_keys_in_oneHop) nodeKnowing1 Hinv))))
           (Some (Hello helloFrom1)) Hk).
Defined.

(** C10: handling a TC whose source is another node changes nothing of the
    node but the topology table: the neighbour tables, the MS set, the TC
    counter, the clock and both hold times are as before; and the message
    put on the transmitter differs from the one received in [fromnbr]
    only. *)
Theorem handleTC_frame msg n :
  TCMessage.src msg ≠ Node.id n →
  ∃ topologyTable,
    (handleTC msg n).1 = Node.with_topologyTable topologyTable n ∧
    Node.oneHopNeighbors (handleTC msg n).1 = Node.oneHopNeighbors n ∧
    Node.twoHopNeighbors (handleTC msg n).1 = Node.twoHopNeighbors n ∧
    Node.msSet (handleTC msg n).1 = Node.msSet n ∧
    Node.tcSequenceNum (handleTC msg n).1 = Node.tcSequenceNum n ∧
    Node.currentTime (handleTC msg n).1 = Node.currentTime n ∧
    Node.neighborHoldTime (handleTC msg n).1 = Node.neighborHoldTime n ∧
    Node.topologyHoldTime (handleTC msg n).1 = Node.topologyHoldTime n ∧
    ∃ fwd, (handleTC msg n).2 = [TC fwd] ∧
           TCMessage.src fwd = TCMessage.src msg ∧
           TCMessage.seq fwd = TCMessage.seq msg ∧
           TCMessage.ms fwd = TCMessage.ms msg.
Proof.
  intros Hs. unfold handleTC. rewrite bool_decide_eq_false_2 by done.
  eexists. split; [done|]. repeat (split; [done|]).
  eexists. split; [done|]. done.
Qed.

Lemma handleTC_frame_witness :
  TCMessage.src tcFrom5 ≠ Node.id nodeKnowing1 ∧
  ∃ topologyTable,
    (handleTC tcFrom5 nodeKnowing1).1
    = Node.with_topologyTable topologyTable nodeKnowing1 ∧
    Node.oneHopNeighbors (handleTC tcFrom5 nodeKnowing1).1
    = Node.oneHopNeighbors nodeKnowing1 ∧
    Node.twoHopNeighbors (handleTC tcFrom5 nodeKnowing1).1
    = Node.twoHopNeighbors nodeKnowing1 ∧
    Node.msSet (handleTC tcFrom5 nodeKnowing1).1 = Node.msSet nodeKnowing1 ∧
    Node.tcSequenceNum (handleTC tcFrom5 nodeKnowing1).1
    = Node.tcSequenceNum nodeKnowing1 ∧
    Node.currentTime (handleTC tcFrom5 nodeKnowing1).1
    = Node.currentTime nodeKnowing1 ∧
    Node.neighborHoldTime (handleTC tcFrom5 nodeKnowing1).1
    = Node.neighborHoldTime nodeKnowing1 ∧
    Node.topologyHoldTime (handleTC tcFrom5 nodeKnowing1).1
    = Node.topologyHoldTime nodeKnowing1 ∧
    ∃ fwd, (handleTC tcFrom5 nodeKnowing1).2 = [TC fwd] ∧
           TCMessage.src fwd = TCMessage.src tcFrom5 ∧
           TCMessage.seq fwd = TCMessage.seq tcFrom5 ∧
           TCMessage.ms fwd = TCMessage.ms tcFrom5.
Proof.
  assert (TCMessage.src tcFrom5 ≠ Node.id nodeKnowing1) as Hs
    by (intros H; discriminate H).
  split; [exact Hs|]. exact (handleTC_frame tcFrom5 nodeKnowing1 Hs).
Defined.

(** * The network topology oracle: facts *)

Lemma addLinkState_lookup_same links ls :
  lookupLink (addLinkState links ls) (LinkState.fromNode ls) (LinkState.toNode ls)
  = Some (match lookupLink links (LinkState.fromNode ls) (LinkState.toNode ls) with
          | None => Link.mk (LinkState.fromNode ls) (LinkState.toNode ls) [ls]
          | Some dst => Link.mk (Link.fromNode dst) (Link.toNode dst)
                          (Link.states dst ++ [ls])
          end).
Proof.
  unfold lookupLink, addLinkState.
  destruct (links !! LinkState.fromNode ls) as [dsts|] eqn:Hf; simpl.
  - destruct (dsts !! LinkState.toNode ls) as [dst|] eqn:Ht;
      rewrite lookup_insert_eq; simpl; by rewrite lookup_insert_eq.
  - rewrite lookup_insert_eq; simpl. by rewrite lookup_singleton_eq.
Qed.

Lemma addLinkState_lookup_other links ls f t :
  ¬ (LinkState.fromNode ls = f ∧ LinkState.toNode ls = t) →
  lookupLink (addLinkState links ls) f t = lookupLink links f t.
Proof.
  intros Hne. unfold lookupLink, addLinkState.
  destruct (decide (LinkState.fromNode ls = f)) as [<-|Hf].
  - assert (LinkState.toNode ls ≠ t) as Ht by tauto.
    destruct (links !! LinkState.fromNode ls) as [dsts|] eqn:Hd; simpl.
    + destruct (dsts !! LinkState.toNode ls) as [dst|];
        rewrite lookup_insert_eq; simpl; by rewrite lookup_insert_ne.
    + rewrite lookup_insert_eq; simpl. by rewrite lookup_singleton_ne.
  - destruct (links !! LinkState.fromNode ls) as [dsts|]; simpl.
    + destruct (dsts !! LinkState.toNode ls) as [dst|];
        by rewrite lookup_insert_ne.
    + by rewrite lookup_insert_ne.
Qed.

Lemma groups_empty : groups ∅ [].
Proof. intros f t. unfold lookupLink. by rewrite lookup_empty. Qed.

Lemma groups_addLinkState links records ls :
  groups links records → groups (addLinkState links ls) (records ++ [ls]).
Proof.
  intros Hg f t. unfold statesOf. rewrite filter_app.
  destruct (decide (LinkState.fromNode ls = f ∧ LinkState.toNode ls = t))
    as [[<- <-]|Hne].
  - rewrite addLinkState_lookup_same, Hg. unfold statesOf.
    rewrite (filter_cons_True _ ls) by done. rewrite filter_nil.
    by destruct (filter _ records).
  - rewrite addLinkState_lookup_other, Hg by done. unfold statesOf.
    rewrite (filter_cons_False _ ls) by done.
    by rewrite filter_nil, app_nil_r.
Qed.

Section oracle_facts.
Context (parseLinkState : string → option LinkState.t) (isUp : Link.t → Z → bool).

Local Abbreviation parses :=
  (Forall2 (λ line ls, parseLinkState line = Some ls)).

Lemma buildLinks_Built lines currTime links final done n :
  buildLinks parseLinkState lines currTime links final = Built n →
  groups links done →
  final = EOF ∧
  ∃ records,
    parses lines records ∧
    nonDecreasingFrom currTime (LinkState.time <$> records) ∧
    groups (NetworkTypology.links n) (done ++ records).
Proof.
  revert currTime links done.
  induction lines as [|line lines IH]; intros currTime links done; simpl.
  - destruct final; [|done]. intros [= <-] Hg. split; [done|].
    exists []. rewrite app_nil_r. by repeat split.
  - destruct (parseLinkState line) as [ls|] eqn:Hp; [|done].
    case_bool_decide as Ht; [done|]. intros Hb Hg.
    destruct (IH _ _ (done ++ [ls]) Hb) as (-> & records & Hps & Hnd & Hgr).
    { by apply groups_addLinkState. }
    split; [done|]. exists (ls :: records). split; [by constructor|].
    split; [simpl; split; [lia|done]|]. by rewrite <-app_assoc in Hgr.
Qed.

Lemma buildLinks_accepts lines records currTime links :
  parses lines records →
  nonDecreasingFrom currTime (LinkState.time <$> records) →
  buildLinks parseLinkState lines currTime links EOF
  = Built (NetworkTypology.mk (foldl addLinkState links records)).
Proof.
  intros Hps. revert currTime links.
  induction Hps as [|line ls lines records Hp _ IH]; intros currTime links;
    simpl; [done|].
  intros [Ht Hnd]. rewrite Hp, bool_decide_eq_false_2 by lia. by apply IH.
Qed.

Lemma buildLinks_rejects lines records currTime links final :
  parses lines records →
  ¬ nonDecreasingFrom currTime (LinkState.time <$> records) →
  buildLinks parseLinkState lines currTime links final = Failed NotSorted.
Proof.
  intros Hps. revert currTime links.
  induction Hps as [|line ls lines records Hp _ IH]; intros currTime links;
    simpl; [tauto|].
  intros Hnd. rewrite Hp. case_bool_decide as Ht; [done|].
  apply IH. intros Hrest. apply Hnd. split; [lia|done].
Qed.

Lemma readLines_noNewline tail :
  noNewline tail → readLines tail = ([], tail).
Proof.
  induction tail as [|c tail IH]; simpl; [done|]. intros [Hc Ht].
  rewrite IH by done. by rewrite decide_False.
Qed.

Lemma readLines_app content tail :
  noNewline tail →
  readLines (content +:+ tail)
  = ((readLines content).1, (readLines content).2 +:+ tail).
Proof.
  intros Ht. induction content as [|c content IH]; simpl.
  - by rewrite readLines_noNewline.
  - rewrite IH. destruct (readLines content) as [lines rest]. simpl.
    case_decide; [done|]. by destruct lines.
Qed.

End oracle_facts.

Lemma nonDecreasingFrom_weaken start start' times :
  start' ≤ start → nonDecreasingFrom start times → nonDecreasingFrom start' times.
Proof. destruct times; simpl; [done|]. intros ? [? ?]. split; [lia|done]. Qed.

Lemma nonDecreasingFrom_filter (P : LinkState.t → Prop) `{∀ x, Decision (P x)}
    start records :
  nonDecreasingFrom start (LinkState.time <$> records) →
  nonDecreasingFrom start (LinkState.time <$> filter P records).
Proof.
  revert start. induction records as [|ls records IH]; intros start; [done|].
  simpl. intros [Hs Hnd]. rewrite filter_cons. case_decide; simpl.
  - split; [done|]. by apply IH.
  - apply IH. by eapply nonDecreasingFrom_weaken.
Qed.

(** * Further properties of the code *)

(** ** The network topology oracle *)

(** X1: [NewNetworkTypology] returns a topology exactly when the reader ends
    with EOF, every complete line parses, and the times of the parsed states
    start at 0 or above and never decrease. *)
Theorem NewNetworkTypology_succeeds_iff parseLinkState content final :
  (∃ n, NewNetworkTypology parseLinkState content final = Built n) ↔
  final = EOF ∧
  ∃ records,
    Forall2 (λ line ls, parseLinkState line = Some ls)
      (readLines content).1 records ∧
    nonDecreasingFrom 0 (LinkState.time <$> records).
Proof.
  unfold NewNetworkTypology. split.
  - intros [n Hb].
    destruct (buildLinks_Built _ _ _ _ _ [] _ Hb groups_empty)
      as (-> & records & Hps & Hnd & _).
    split; [done|]. by exists records.
  - intros (-> & records & Hps & Hnd). eexists.
    by apply buildLinks_accepts with (records := records).
Qed.

(** X2: in the topology [NewNetworkTypology] returns, [links[f][t]] exists
    exactly for the pairs some line mentions, carries [f] and [t], and holds
    all the states of that pair and no other, in the order of the lines, so
    with non-decreasing times. *)
Theorem NewNetworkTypology_groups parseLinkState content final n :
  NewNetworkTypology parseLinkState content final = Built n →
  ∃ records,
    Forall2 (λ line ls, parseLinkState line = Some ls)
      (readLines content).1 records ∧
    ∀ f t,
      lookupLink (NetworkTypology.links n) f t
      = match statesOf f t records with
        | [] => None
        | _ :: _ => Some (Link.mk f t (statesOf f t records))
        end ∧
      nonDecreasingFrom 0 (LinkState.time <$> statesOf f t records).
Proof.
  unfold NewNetworkTypology. intros Hb.
  destruct (buildLinks_Built _ _ _ _ _ [] _ Hb groups_empty)
    as (_ & records & Hps & Hnd & Hg).
  exists records. split; [done|]. intros f t. split; [apply Hg|].
  by apply nonDecreasingFrom_filter.
Qed.

Lemma NewNetworkTypology_groups_witness :
  NewNetworkTypology sampleParse (lineThen "a" (lineThen "c" (lineThen "b" "")))
    EOF
  = Built (NetworkTypology.mk
      {[ 1%N := {[ 2%N := Link.mk 1 2 [LinkState.mk 1 2 0 true;
                                      LinkState.mk 1 2 5 false] ]};
         2%N := {[ 1%N := Link.mk 2 1 [LinkState.mk 2 1 3 true] ]} ]}) ∧
  ∃ records,
    Forall2 (λ line ls, sampleParse line = Some ls)
      (readLines (lineThen "a" (lineThen "c" (lineThen "b" "")))).1 records ∧
    ∀ f t,
      lookupLink
        {[ 1%N := {[ 2%N := Link.mk 1 2 [LinkState.mk 1 2 0 true;
                                        LinkState.mk 1 2 5 false] ]};
           2%N := {[ 1%N := Link.mk 2 1 [LinkState.mk 2 1 3 true] ]} ]} f t
      = match statesOf f t records with
        | [] => None
        | _ :: _ => Some (Link.mk f t (statesOf f t records))
        end ∧
      nonDecreasingFrom 0 (LinkState.time <$> statesOf f t records).
Proof.
  assert (NewNetworkTypology sampleParse
            (lineThen "a" (lineThen "c" (lineThen "b" ""))) EOF
          = Built (NetworkTypology.mk
              {[ 1%N := {[ 2%N := Link.mk 1 2 [LinkState.mk 1 2 0 true;
                                              LinkState.mk 1 2 5 false] ]};
                 2%N := {[ 1%N := Link.mk 2 1 [LinkState.mk 2 1 3 true] ]} ]}))
    as Hb by (vm_compute; reflexivity).
  split; [exact Hb|].
  exact (NewNetworkTypology_groups sampleParse _ EOF _ Hb).
Defined.

(** X3: [Query] on a topology built by [NewNetworkTypology] answers [false]
    for a link no line mentions, and otherwise what [isUp] says of the link
    holding that pair's states in the order of the lines. *)
Theorem Query_after_build parseLinkState isUp content final n :
  NewNetworkTypology parseLinkState content final = Built n →
  ∃ records,
    Forall2 (λ line ls, parseLinkState line = Some ls)
      (readLines content).1 records ∧
    ∀ msg,
      Query isUp n msg
      = match statesOf (QueryMsg.FromNode msg) (QueryMsg.ToNode msg) records with
        | [] => false
        | _ :: _ =>
            isUp (Link.mk (QueryMsg.FromNode msg) (QueryMsg.ToNode msg)
                    (statesOf (QueryMsg.FromNode msg) (QueryMsg.ToNode msg)
                       records))
              (QueryMsg.AtTime msg)
        end.
Proof.
  intros (records & Hps & Hg)%NewNetworkTypology_groups.
  exists records. split; [done|]. intros msg.
  destruct (Hg (QueryMsg.FromNode msg) (QueryMsg.ToNode msg)) as [Hl _].
  unfold Query. unfold lookupLink in Hl.
  destruct (NetworkTypology.links n !! QueryMsg.FromNode msg) as [dsts|];
    simpl in Hl.
  - rewrite Hl. by destruct (statesOf _ _ records).
  - by destruct (statesOf _ _ records).
Qed.

Lemma Query_after_build_witness :
  NewNetworkTypology sampleParse (lineThen "a" (lineThen "c" (lineThen "b" "")))
    EOF
  = Built (NetworkTypology.mk
      {[ 1%N := {[ 2%N := Link.mk 1 2 [LinkState.mk 1 2 0 true;
                                      LinkState.mk 1 2 5 false] ]};
         2%N := {[ 1%N := Link.mk 2 1 [LinkState.mk 2 1 3 true] ]} ]}) ∧
  ∃ records,
    Forall2 (λ line ls, sampleParse line = Some ls)
      (readLines (lineThen "a" (lineThen "c" (lineThen "b" "")))).1 records ∧
    ∀ msg,
      Query sampleIsUp
        (NetworkTypology.mk
           {[ 1%N := {[ 2%N := Link.mk 1 2 [LinkState.mk 1 2 0 true;
                                           LinkState.mk 1 2 5 false] ]};
              2%N := {[ 1%N := Link.mk 2 1 [LinkState.mk 2 1 3 true] ]} ]}) msg
      = match statesOf (QueryMsg.FromNode msg) (QueryMsg.ToNode msg) records with
        | [] => false
        | _ :: _ =>
            sampleIsUp
              (Link.mk (QueryMsg.FromNode msg) (QueryMsg.ToNode msg)
                 (statesOf (QueryMsg.FromNode msg) (QueryMsg.ToNode msg)
                    records))
              (QueryMsg.AtTime msg)
        end.
Proof.
  assert (NewNetworkTypology sampleParse
            (lineThen "a" (lineThen "c" (lineThen "b" ""))) EOF
          = Built (NetworkTypology.mk
              {[ 1%N := {[ 2%N := Link.mk 1 2 [LinkState.mk 1 2 0 true;
                                              LinkState.mk 1 2 5 false] ]};
                 2%N := {[ 1%N := Link.mk 2 1 [LinkState.mk 2 1 3 true] ]} ]}))
    as Hb by (vm_compute; reflexivity).
  split; [exact Hb|].
  exact (Query_after_build sampleParse sampleIsUp _ EOF _ Hb).
Defined.

(** X4: when every complete line parses but the times decrease somewhere,
    or start below 0, [NewNetworkTypology] returns the sorting error,
    however the reader ends. *)
Theorem NewNetworkTypology_rejects_unsorted parseLinkState content final records :
  Forall2 (λ line ls, parseLinkState line = Some ls)
    (readLines content).1 records →
  ¬ nonDecreasingFrom 0 (LinkState.time <$> records) →
  NewNetworkTypology parseLinkState content final = Failed NotSorted.
Proof. intros Hps Hnd. by apply buildLinks_rejects with (records := records). Qed.

Lemma NewNetworkTypology_rejects_unsorted_witness :
  Forall2 (λ line ls, sampleParse line = Some ls)
    (readLines (lineThen "b" (lineThen "a" ""))).1
    [LinkState.mk 1 2 5 false; LinkState.mk 1 2 0 true] ∧
  ¬ nonDecreasingFrom 0
      (LinkState.time <$> [LinkState.mk 1 2 5 false; LinkState.mk 1 2 0 true]) ∧
  NewNetworkTypology sampleParse (lineThen "b" (lineThen "a" "")) ReadFailure
  = Failed NotSorted.
Proof.
  assert (Forall2 (λ line ls, sampleParse line = Some ls)
            (readLines (lineThen "b" (lineThen "a" ""))).1
            [LinkState.mk 1 2 5 false; LinkState.mk 1 2 0 true]) as Hps.
  { repeat constructor. }
  assert (¬ nonDecreasingFrom 0
            (LinkState.time <$> [LinkState.mk 1 2 5 false;
                                 LinkState.mk 1 2 0 true])) as Hnd.
  { simpl. intros (_ & H & _). by apply H. }
  split; [exact Hps|]. split; [exact Hnd|].
  exact (NewNetworkTypology_rejects_unsorted sampleParse _ ReadFailure _ Hps Hnd).
Defined.

(** X5: what follows the last line feed of the input is never parsed: an
    unterminated last line changes nothing of the result. *)
Theorem NewNetworkTypology_ignores_unterminated parseLinkState content tail final :
  noNewline tail →
  NewNetworkTypology parseLinkState (content +:+ tail) final
  = NewNetworkTypology parseLinkState content final.
Proof.
  intros Ht. unfold NewNetworkTypology. by rewrite readLines_app.
Qed.

Lemma NewNetworkTypology_ignores_unterminated_witness :
  noNewline "zzz" ∧
  NewNetworkTypology sampleParse (lineThen "a" "" +:+ "zzz") EOF
  = NewNetworkTypology sampleParse (lineThen "a" "") EOF.
Proof.
  assert (noNewline "zzz") as Ht.
  { simpl. repeat split; intros H; discriminate H. }
  split; [exact Ht|].
  exact (NewNetworkTypology_ignores_unterminated sampleParse (lineThen "a" "")
           "zzz" EOF Ht).
Defined.

Lemma NewNetworkTypology_succeeds_iff_witness :
  (EOF = EOF ∧
   ∃ records,
     Forall2 (λ line ls, sampleParse line = Some ls)
       (readLines (lineThen "a" (lineThen "b" ""))).1 records ∧
     nonDecreasingFrom 0 (LinkState.time <$> records)) ∧
  ∃ n, NewNetworkTypology sampleParse (lineThen "a" (lineThen "b" "")) EOF
       = Built n.
Proof.
  assert (EOF = EOF ∧
          ∃ records,
            Forall2 (λ line ls, sampleParse line = Some ls)
              (readLines (lineThen "a" (lineThen "b" ""))).1 records ∧
            nonDecreasingFrom 0 (LinkState.time <$> records)) as H.
  { split; [reflexivity|].
    exists [LinkState.mk 1 2 0 true; LinkState.mk 1 2 5 false].
    split; [repeat constructor|]. simpl. repeat split; intros H; discriminate H. }
  split; [exact H|].
  exact (proj2 (NewNetworkTypology_succeeds_iff sampleParse
                  (lineThen "a" (lineThen "b" "")) EOF) H).
Defined.

(** X6: a complete line that does not parse ends the process, provided the
    lines before it parse with times in order; the lines after it and the
    way the reader ends play no part. *)
Theorem NewNetworkTypology_exits_on_parse_error parseLinkState content final
    good bad rest records :
  (readLines content).1 = good ++ bad :: rest →
  Forall2 (λ line ls, parseLinkState line = Some ls) good records →
  nonDecreasingFrom 0 (LinkState.time <$> records) →
  parseLinkState bad = None →
  NewNetworkTypology parseLinkState content final = Exited.
Proof.
  unfold NewNetworkTypology. intros -> Hps. generalize 0.
  generalize (∅ : gmap NodeID (gmap NodeID Link.t)).
  induction Hps as [|line ls good records Hp _ IH]; intros links currTime; simpl.
  - intros _ ->. done.
  - intros [Ht Hnd] Hbad. rewrite Hp, bool_decide_eq_false_2 by lia.
    by apply IH.
Qed.

Lemma NewNetworkTypology_exits_on_parse_error_witness :
  (readLines (lineThen "a" (lineThen "x" (lineThen "b" "")))).1
  = ["a"] ++ "x" :: ["b"] ∧
  Forall2 (λ line ls, sampleParse line = Some ls) ["a"]
    [LinkState.mk 1 2 0 true] ∧
  nonDecreasingFrom 0 (LinkState.time <$> [LinkState.mk 1 2 0 true]) ∧
  sampleParse "x" = None ∧
  NewNetworkTypology sampleParse
    (lineThen "a" (lineThen "x" (lineThen "b" ""))) EOF = Exited.
Proof.
  assert ((readLines (lineThen "a" (lineThen "x" (lineThen "b" "")))).1
          = ["a"] ++ "x" :: ["b"]) as Hl by reflexivity.
  assert (Forall2 (λ line ls, sampleParse line = Some ls) ["a"]
            [LinkState.mk 1 2 0 true]) as Hps by repeat constructor.
  assert (nonDecreasingFrom 0 (LinkState.time <$> [LinkState.mk 1 2 0 true]))
    as Hnd.
  { simpl. split; [|exact I]. intros H; discriminate H. }
  assert (sampleParse "x" = None) as Hbad by reflexivity.
  split; [exact Hl|]. split; [exact Hps|]. split; [exact Hnd|].
  split; [exact Hbad|].
  exact (NewNetworkTypology_exits_on_parse_error sampleParse _ EOF
           ["a"] "x" ["b"] _ Hl Hps Hnd Hbad).
Defined.

(** ** MPR selection *)

Lemma assignStates_idemp mprs oneHop :
  assignStates mprs (assignStates mprs oneHop) = assignStates mprs oneHop.
Proof.
  apply map_eq. intros k. rewrite !assignStates_lookup.
  destruct (oneHop !! k) as [e|]; simpl; [|done]. by rewrite assignState_idemp.
Qed.

Lemma assignState_MPR mprs k e :
  OneHopNeighborEntry.state (assignState mprs k e) = MPR ↔ k ∈ mprs.
Proof.
  unfold assignState, OneHopNeighborEntry.with_state. destruct e as [i s h].
  repeat (case_decide; simpl in * ); split; intros; try done; congruence.
Qed.

(** The loop selects a prefix of [nodes], and each selected id was taken
    while something was still uncovered by the ids before it. *)
Lemma selectLoop_prefix twoHop nodes remaining mprs res :
  selectLoop twoHop nodes remaining mprs = Some res →
  ∃ picked rest,
    nodes = picked ++ rest ∧
    (∀ c, c ∈ res ↔ c ∈ picked ∨ c ∈ mprs) ∧
    (∀ p1 m p2, picked = p1 ++ m :: p2 →
       ∃ x, x ∈ remaining ∧ ∀ c, c ∈ p1 → x ∉ (dom (twoHop !!! c) : gset NodeID)).
Proof.
  revert remaining mprs.
  induction nodes as [|c nodes IH]; intros remaining mprs; simpl.
  - case_decide; [|done]. intros [= <-]. exists [], []. split; [done|]. split.
    + intros c. split; [by right|]. by intros [?%elem_of_nil|?].
    + intros [|??] ?? [=].
  - case_decide as Hemp.
    { intros [= <-]. exists [], (c :: nodes). split; [done|]. split.
      + intros c'. split; [by right|]. by intros [?%elem_of_nil|?].
      + intros [|??] ?? [=]. }
    intros (picked & rest & -> & Hres & Hneed)%IH.
    exists (c :: picked), rest. split; [done|]. split.
    + intros c'. rewrite Hres, elem_of_cons, elem_of_union, elem_of_singleton.
      tauto.
    + intros [|c0 p1] m p2 [= <- Hp].
      * apply set_choose_L in Hemp as [x Hx]. exists x. split; [done|].
        by intros c' ?%elem_of_nil.
      * destruct (Hneed _ _ _ Hp) as (x & [Hx Hc]%elem_of_difference & Hp1).
        exists x. split; [done|].
        intros c' [->|?]%elem_of_cons; [done|by apply Hp1].
Qed.

Lemma StronglySorted_sortNodes nodes : StronglySorted N.le (sortNodes nodes).
Proof. unfold sortNodes. apply StronglySorted_merge_sort; apply _. Qed.

(** What [selectMPRs] returns, in terms of the sorted candidates. *)
Lemma selectMPRs_prefix oneHop twoHop mprs :
  selectMPRs oneHop twoHop = Some mprs →
  ∃ picked rest,
    StronglySorted N.le (picked ++ rest) ∧
    (∀ c, c ∈ picked ++ rest ↔
          is_Some (twoHop !! c) ∧ nonUnidirectional oneHop c) ∧
    (∀ c, c ∈ mprs ↔ c ∈ picked) ∧
    (∀ p1 m p2, picked = p1 ++ m :: p2 →
       ∃ x c v, twoHop !! c = Some v ∧ nonUnidirectional oneHop c ∧ x ∈ dom v ∧
                ∀ c', c' ∈ p1 → x ∉ (dom (twoHop !!! c') : gset NodeID)).
Proof.
  unfold selectMPRs. destruct (gatherCandidates_spec twoHop oneHop) as [Hc Hr].
  destruct (gatherCandidates oneHop twoHop) as [nodes remaining]; simpl in *.
  intros (picked & rest & Hn & Hres & Hneed)%selectLoop_prefix.
  exists picked, rest. rewrite <-Hn. split; [apply StronglySorted_sortNodes|].
  split; [intros c; by rewrite elem_of_sortNodes|]. split.
  - intros c. rewrite Hres. split; [|by left]. by intros [?|?%elem_of_empty].
  - intros p1 m p2 Hp. destruct (Hneed _ _ _ Hp) as (x & Hx & Hp1).
    apply Hr in Hx as (c & v & Hv & Hnu & Hxv). eauto 10.
Qed.

(** X7: [calculateMPRs] returns for every pair of tables (the index
    [nodes[0]] is never out of range), keeps the keys of the one-hop table,
    and changes nothing of an entry but its state: a [Unidirectional] entry
    stays so, no other entry becomes [Unidirectional], and an entry in state
    [MPR] is a key of the two-hop table. *)
Theorem calculateMPRs_changes_states_only oneHop twoHop :
  ∃ oneHop',
    calculateMPRs oneHop twoHop = Some oneHop' ∧
    (∀ k, oneHop' !! k = None ↔ oneHop !! k = None) ∧
    ∀ k e e',
      oneHop !! k = Some e → oneHop' !! k = Some e' →
      OneHopNeighborEntry.neighborID e' = OneHopNeighborEntry.neighborID e ∧
      OneHopNeighborEntry.holdUntil e' = OneHopNeighborEntry.holdUntil e ∧
      (OneHopNeighborEntry.state e' = Unidirectional
       ↔ OneHopNeighborEntry.state e = Unidirectional) ∧
      (OneHopNeighborEntry.state e' = MPR → is_Some (twoHop !! k)).
Proof.
  destruct (calculateMPRs_total oneHop twoHop) as [oneHop' Hc].
  exists oneHop'. split; [done|].
  apply calculateMPRs_Some in Hc as (mprs & Hsel & ->).
  destruct (selectMPRs_spec _ _ _ Hsel) as [Hcand _]. split.
  - intros k. rewrite assignStates_lookup. by destruct (oneHop !! k).
  - intros k e e' He. rewrite assignStates_lookup, He. simpl. intros [= <-].
    split; [by unfold assignState; repeat case_decide|].
    split; [apply assignState_holdUntil|]. split.
    + apply assignState_Unidirectional. intros [_ Hnu]%Hcand.
      unfold nonUnidirectional in Hnu. by rewrite lookup_total_alt, He in Hnu.
    + intros Hm%assignState_MPR. by apply Hcand.
Qed.

(** X8: [calculateMPRs] is idempotent: run again on its own result, with
    the same two-hop table, it returns that result unchanged. *)
Theorem calculateMPRs_idempotent oneHop twoHop oneHop' :
  calculateMPRs oneHop twoHop = Some oneHop' →
  calculateMPRs oneHop' twoHop = Some oneHop'.
Proof.
  intros (mprs & Hsel & ->)%calculateMPRs_Some. unfold calculateMPRs.
  rewrite (selectMPRs_ext twoHop _ oneHop), Hsel; simpl.
  - by rewrite assignStates_idemp.
  - intros k. by apply (assignStates_nonUnidirectional oneHop twoHop).
Qed.

Lemma calculateMPRs_idempotent_witness :
  calculateMPRs coverOneHop coverTwoHop
  = Some {[ 1%N := entry 1 MPR 20; 2%N := entry 1 MPR 20 ]} ∧
  calculateMPRs {[ 1%N := entry 1 MPR 20; 2%N := entry 1 MPR 20 ]} coverTwoHop
  = Some {[ 1%N := entry 1 MPR 20; 2%N := entry 1 MPR 20 ]}.
Proof.
  assert (calculateMPRs coverOneHop coverTwoHop
          = Some {[ 1%N := entry 1 MPR 20; 2%N := entry 1 MPR 20 ]}) as Hc
    by (vm_compute; reflexivity).
  split; [exact Hc|].
  exact (calculateMPRs_idempotent coverOneHop coverTwoHop _ Hc).
Defined.

(** X9: the selection goes by ascending NodeID: when an entry ends in state
    [MPR], every one-hop entry with a smaller key that is a key of the
    two-hop table and is not [Unidirectional] ends in state [MPR] too. *)
Theorem calculateMPRs_lowest_ids_first oneHop twoHop oneHop' m c em ec :
  calculateMPRs oneHop twoHop = Some oneHop' →
  oneHop' !! m = Some em → OneHopNeighborEntry.state em = MPR →
  oneHop' !! c = Some ec → OneHopNeighborEntry.state ec ≠ Unidirectional →
  is_Some (twoHop !! c) → (c < m)%N →
  OneHopNeighborEntry.state ec = MPR.
Proof.
  intros (mprs & Hsel & ->)%calculateMPRs_Some.
  rewrite !assignStates_lookup.
  destruct (oneHop !! m) as [em0|] eqn:Hm0; [|done].
  destruct (oneHop !! c) as [ec0|] eqn:Hc0; [|done]. simpl.
  intros [= <-] Hm%assignState_MPR [= <-] Hnu Hth Hlt.
  apply assignState_MPR.
  destruct (selectMPRs_prefix _ _ _ Hsel) as (picked & rest & Hs & Hcand & Hp & _).
  apply Hp. apply Hp in Hm.
  assert (c ∈ picked ++ rest) as [?|Hrest]%elem_of_app; [|done|].
  { apply Hcand. split; [done|].
    apply (assignStates_nonUnidirectional oneHop twoHop mprs c Hsel).
    unfold nonUnidirectional.
    by rewrite lookup_total_alt, assignStates_lookup, Hc0. }
  pose proof (StronglySorted_app_1_elem_of _ _ _ _ _ Hs Hm Hrest). lia.
Qed.

Lemma calculateMPRs_lowest_ids_first_witness :
  calculateMPRs coverOneHop coverTwoHop
  = Some {[ 1%N := entry 1 MPR 20; 2%N := entry 1 MPR 20 ]} ∧
  OneHopNeighborEntry.state (entry 1 MPR 20) = MPR.
Proof.
  assert (calculateMPRs coverOneHop coverTwoHop
          = Some {[ 1%N := entry 1 MPR 20; 2%N := entry 1 MPR 20 ]}) as Hc
    by (vm_compute; reflexivity).
  split; [exact Hc|].
  refine (calculateMPRs_lowest_ids_first coverOneHop coverTwoHop _ 2%N 1%N
            (entry 1 MPR 20) (entry 1 MPR 20) Hc _ _ _ _ _ _).
  - vm_compute. reflexivity.
  - reflexivity.
  - vm_compute. reflexivity.
  - intros H. discriminate H.
  - exists {[ 3%N := 3%N ]}. vm_compute. reflexivity.
  - reflexivity.
Defined.

(** X10: no MPR is selected once everything is covered: for every entry
    that ends in state [MPR] there is an id, announced by a candidate (a key
    of the two-hop table that is not [Unidirectional]), that no candidate
    with a smaller NodeID announces. *)
Theorem calculateMPRs_no_superfluous_pick oneHop twoHop oneHop' m em :
  calculateMPRs oneHop twoHop = Some oneHop' →
  oneHop' !! m = Some em → OneHopNeighborEntry.state em = MPR →
  ∃ x c v,
    twoHop !! c = Some v ∧ nonUnidirectional oneHop c ∧ is_Some (v !! x) ∧
    ∀ c' v', (c' < m)%N → nonUnidirectional oneHop c' →
             twoHop !! c' = Some v' → v' !! x = None.
Proof.
  intros (mprs & Hsel & ->)%calculateMPRs_Some.
  rewrite assignStates_lookup.
  destruct (oneHop !! m) as [em0|] eqn:Hm0; [|done]. simpl.
  intros [= <-] Hm%assignState_MPR.
  destruct (selectMPRs_prefix _ _ _ Hsel)
    as (picked & rest & Hs & Hcand & Hp & Hneed).
  apply (proj1 (Hp m)) in Hm.
  apply list_elem_of_split in Hm as (p1 & p2 & Hpicked).
  destruct (Hneed _ _ _ Hpicked) as (x & c & v & Hv & Hnu & Hx & Hp1).
  subst picked.
  exists x, c, v. split; [done|]. split; [done|].
  split; [by apply elem_of_dom|].
  intros c' v' Hlt Hnu' Hv'.
  assert (c' ∈ (p1 ++ m :: p2) ++ rest) as Hin by (apply Hcand; eauto).
  rewrite <-app_assoc in Hin, Hs.
  apply elem_of_app in Hin as [Hin|Hin].
  - specialize (Hp1 _ Hin). rewrite lookup_total_alt, Hv' in Hp1. simpl in Hp1.
    by apply not_elem_of_dom in Hp1.
  - apply StronglySorted_app_1_r in Hs.
    apply StronglySorted_cons in Hs as [Hall _].
    simpl in Hin. apply elem_of_cons in Hin as [->|Hin]; [lia|].
    rewrite Forall_forall in Hall. specialize (Hall _ Hin). lia.
Qed.

Lemma calculateMPRs_no_superfluous_pick_witness :
  calculateMPRs coverOneHop coverTwoHop
  = Some {[ 1%N := entry 1 MPR 20; 2%N := entry 1 MPR 20 ]} ∧
  ∃ x c v,
    coverTwoHop !! c = Some v ∧ nonUnidirectional coverOneHop c ∧
    is_Some (v !! x) ∧
    ∀ c' v', (c' < 2)%N → nonUnidirectional coverOneHop c' →
             coverTwoHop !! c' = Some v' → v' !! x = None.
Proof.
  assert (calculateMPRs coverOneHop coverTwoHop
          = Some {[ 1%N := entry 1 MPR 20; 2%N := entry 1 MPR 20 ]}) as Hc
    by (vm_compute; reflexivity).
  split; [exact Hc|].
  refine (calculateMPRs_no_superfluous_pick coverOneHop coverTwoHop _ 2%N
            (entry 1 MPR 20) Hc _ _).
  - vm_compute. reflexivity.
  - reflexivity.
Defined.

(** ** HELLO reception *)

Lemma updateMSSet_lookup msg id msSet k :
  updateMSSet msg id msSet !! k
  = if decide (k = HelloMessage.src msg)
    then (if bool_decide (id ∈ HelloMessage.mpr msg)
          then Some (default (HelloMessage.src msg) (msSet !! k))
          else None)
    else msSet !! k.
Proof.
  unfold updateMSSet.
  destruct (msSet !! HelloMessage.src msg) as [v|] eqn:Hs.
  - rewrite (bool_decide_eq_true_2 (is_Some _)) by eauto.
    destruct (bool_decide (id ∈ HelloMessage.mpr msg)); simpl;
      case_decide as Hk; subst; rewrite ?Hs, ?lookup_delete_eq,
        ?lookup_delete_ne by done; done.
  - rewrite (bool_decide_eq_false_2 (is_Some _)) by (by intros [? ?]).
    destruct (bool_decide (id ∈ HelloMessage.mpr msg)); simpl;
      case_decide as Hk; subst; rewrite ?Hs, ?lookup_insert_eq,
        ?lookup_insert_ne by done; done.
Qed.

(** X11: after a HELLO from [s] is handled, [s] is in the MS set exactly
    when the node's own id is in the message's [mpr] list (a newly entered
    selector is mapped to itself, one already present keeps its value), and
    the membership of every other node is as before. *)
Theorem handleHello_msSet msg n :
  ∃ n',
    handleHello msg n = Some n' ∧
    (is_Some (Node.msSet n' !! HelloMessage.src msg)
     ↔ Node.id n ∈ HelloMessage.mpr msg) ∧
    (Node.msSet n !! HelloMessage.src msg = None →
     Node.id n ∈ HelloMessage.mpr msg →
     Node.msSet n' !! HelloMessage.src msg = Some (HelloMessage.src msg)) ∧
    (∀ v, Node.msSet n !! HelloMessage.src msg = Some v →
          Node.id n ∈ HelloMessage.mpr msg →
          Node.msSet n' !! HelloMessage.src msg = Some v) ∧
    (∀ k, k ≠ HelloMessage.src msg → Node.msSet n' !! k = Node.msSet n !! k).
Proof.
  destruct (handleHello_total msg n) as [n' Hh]. exists n'. split; [done|].
  apply handleHello_Some in Hh as (mprs & _ & ->). simpl.
  split; [|split; [|split]].
  - rewrite updateMSSet_lookup, decide_True by done.
    case_bool_decide as Hin.
    + split; [done|]. intros _. eauto.
    + split; [by intros [? ?]|done].
  - intros Hs Hin. rewrite updateMSSet_lookup, decide_True by done.
    by rewrite bool_decide_eq_true_2, Hs.
  - intros v Hs Hin. rewrite updateMSSet_lookup, decide_True by done.
    by rewrite bool_decide_eq_true_2, Hs.
  - intros k Hk. by rewrite updateMSSet_lookup, decide_False.
Qed.

Lemma handleHello_oneHop_src msg n n' :
  handleHello msg n = Some n' →
  ∃ mprs,
    selectMPRs
      (updateOneHopNeighbors msg (Node.oneHopNeighbors n)
         (add_int (Node.currentTime n) (Node.neighborHoldTime n)) (Node.id n))
      (updateTwoHopNeighbors msg (Node.twoHopNeighbors n) (Node.id n))
    = Some mprs ∧
    ∀ k, Node.oneHopNeighbors n' !! k
         = assignState mprs k <$>
             (if decide (k = HelloMessage.src msg)
              then Some (helloEntry msg
                           (add_int (Node.currentTime n) (Node.neighborHoldTime n))
                           (Node.id n) (Node.oneHopNeighbors n !! k))
              else Node.oneHopNeighbors n !! k).
Proof.
  intros (mprs & Hsel & ->)%handleHello_Some. exists mprs. split; [done|].
  intros k. simpl. rewrite assignStates_lookup, updateOneHopNeighbors_insert.
  case_decide as Hk; [subst; by rewrite lookup_insert_eq|].
  by rewrite lookup_insert_ne.
Qed.

(** X12: the neighbour state machine of a HELLO from [s].  The entry of [s]
    gets the hold [currentTime + neighborHoldTime].  A first-time source is
    entered as [Unidirectional] whatever the message lists.  A known source
    keeps its [neighborID]; when the node's own id is in one of the three
    lists it ends [Bidirectional] or [MPR]; when it is not, the entry is
    [Unidirectional] after exactly when it was before: a HELLO never demotes
    a neighbour. *)
Theorem handleHello_source_entry msg n :
  ∃ n' e,
    handleHello msg n = Some n' ∧
    Node.oneHopNeighbors n' !! HelloMessage.src msg = Some e ∧
    OneHopNeighborEntry.holdUntil e
    = add_int (Node.currentTime n) (Node.neighborHoldTime n) ∧
    (Node.oneHopNeighbors n !! HelloMessage.src msg = None →
     OneHopNeighborEntry.state e = Unidirectional ∧
     OneHopNeighborEntry.neighborID e = HelloMessage.src msg) ∧
    (∀ e0, Node.oneHopNeighbors n !! HelloMessage.src msg = Some e0 →
       OneHopNeighborEntry.neighborID e = OneHopNeighborEntry.neighborID e0 ∧
       (Node.id n ∈ HelloMessage.unidir msg ++
                    (HelloMessage.bidir msg ++ HelloMessage.mpr msg) →
        OneHopNeighborEntry.state e ≠ Unidirectional) ∧
       (Node.id n ∉ HelloMessage.unidir msg ++
                    (HelloMessage.bidir msg ++ HelloMessage.mpr msg) →
        (OneHopNeighborEntry.state e = Unidirectional
         ↔ OneHopNeighborEntry.state e0 = Unidirectional))).
Proof.
  destruct (handleHello_total msg n) as [n' Hh].
  destruct (handleHello_oneHop_src _ _ _ Hh) as (mprs & Hsel & Hlook).
  specialize (Hlook (HelloMessage.src msg)).
  rewrite decide_True in Hlook by done. simpl in Hlook.
  eexists n', _. split; [done|]. split; [exact Hlook|].
  assert (HelloMessage.src msg ∈ mprs →
          OneHopNeighborEntry.state
            (helloEntry msg (add_int (Node.currentTime n) (Node.neighborHoldTime n))
               (Node.id n) (Node.oneHopNeighbors n !! HelloMessage.src msg))
          ≠ Unidirectional) as Hm.
  { intros Hin. apply selectMPRs_spec in Hsel as [Hc _].
    destruct (Hc _ Hin) as [_ Hnu]. unfold nonUnidirectional in Hnu.
    by rewrite updateOneHopNeighbors_insert, lookup_total_insert_eq in Hnu. }
  pose proof (assignState_Unidirectional mprs (HelloMessage.src msg) _ Hm) as Hu.
  split; [|split].
  - rewrite assignState_holdUntil. unfold helloEntry.
    destruct (Node.oneHopNeighbors n !! _); [|done]. by case_bool_decide.
  - intros Hnone. rewrite Hnone in *. simpl in *. split; [by apply Hu|].
    unfold assignState. by repeat case_decide.
  - intros e0 He0. rewrite He0 in *. unfold helloEntry in *.
    split; [|split].
    + unfold assignState. repeat case_decide; simpl; by case_bool_decide.
    + intros Hl. rewrite bool_decide_eq_true_2 in * by done. rewrite Hu. done.
    + intros Hl. rewrite bool_decide_eq_false_2 in * by done. by rewrite Hu.
Qed.

(** X13: a HELLO from [s] touches nothing outside the neighbour tables and
    the MS set, and inside them only what is stored for [s], but for the
    states the MPR selection reassigns: entries of other nodes keep their
    [neighborID] and hold and are [Unidirectional] exactly when they were,
    no one-hop entry is removed, and the two-hop sets of other nodes stay as
    they are. *)
Theorem handleHello_frame msg n :
  ∃ n',
    handleHello msg n = Some n' ∧
    Node.id n' = Node.id n ∧
    Node.topologyTable n' = Node.topologyTable n ∧
    Node.tcSequenceNum n' = Node.tcSequenceNum n ∧
    Node.currentTime n' = Node.currentTime n ∧
    Node.neighborHoldTime n' = Node.neighborHoldTime n ∧
    Node.topologyHoldTime n' = Node.topologyHoldTime n ∧
    (∀ k, k ≠ HelloMessage.src msg →
          Node.twoHopNeighbors n' !! k = Node.twoHopNeighbors n !! k) ∧
    (∀ k, k ≠ HelloMessage.src msg →
          Node.oneHopNeighbors n !! k = None →
          Node.oneHopNeighbors n' !! k = None) ∧
    (∀ k e, k ≠ HelloMessage.src msg →
       Node.oneHopNeighbors n !! k = Some e →
       ∃ e', Node.oneHopNeighbors n' !! k = Some e' ∧
             OneHopNeighborEntry.neighborID e' = OneHopNeighborEntry.neighborID e ∧
             OneHopNeighborEntry.holdUntil e' = OneHopNeighborEntry.holdUntil e ∧
             (OneHopNeighborEntry.state e' = Unidirectional
              ↔ OneHopNeighborEntry.state e = Unidirectional)).
Proof.
  destruct (handleHello_total msg n) as [n' Hh]. exists n'. split; [done|].
  destruct (handleHello_oneHop_src _ _ _ Hh) as (mprs & Hsel & Hlook).
  apply handleHello_Some in Hh as (mprs' & _ & Hn').
  repeat (split; [by subst n'|]). split; [|split].
  - intros k Hk. subst n'. simpl. unfold updateTwoHopNeighbors.
    by rewrite lookup_insert_ne.
  - intros k Hk Hnone. by rewrite Hlook, decide_False, Hnone.
  - intros k e Hk He. rewrite Hlook, decide_False, He by done. simpl.
    eexists. split; [done|].
    split; [by unfold assignState; repeat case_decide|].
    split; [apply assignState_holdUntil|].
    apply assignState_Unidirectional. intros Hin.
    apply selectMPRs_spec in Hsel as [Hc _].
    destruct (Hc _ Hin) as [_ Hnu]. unfold nonUnidirectional in Hnu.
    by rewrite updateOneHopNeighbors_insert, lookup_total_insert_ne,
      lookup_total_alt, He in Hnu.
Qed.

(** ** TC reception *)

Section topology_more.
Context (msg : TCMessage.t) (holdUntil : Z).

Local Abbreviation refresh := (refreshEntry msg holdUntil).
Local Abbreviation step := (updateTopologyEntry msg holdUntil).
Local Abbreviation src := (TCMessage.src msg).

Local Abbreviation processed := (processedEntry msg holdUntil).

Lemma refreshEntry_processed d prev : refresh (processed d prev) = processed d prev.
Proof.
  destruct prev as [e|]; simpl; [apply refreshEntry_idemp|].
  unfold refreshEntry. simpl. by rewrite bool_decide_eq_false_2 by lia.
Qed.

Lemma updateTopologyTable_lookup2_closed l tt d s :
  lookup2 (foldl step tt l) d s
  = if decide (d ∈ l ∧ s = src)
    then Some (processed d (lookup2 tt d s))
    else lookup2 tt d s.
Proof.
  revert tt. induction l as [|a l IH]; intros tt; cbn [foldl].
  { rewrite decide_False; [done|]. by intros [?%elem_of_nil _]. }
  rewrite IH. destruct (decide (s = src)) as [->|Hs].
  - destruct (decide (a = d)) as [->|Ha].
    + rewrite updateTopologyEntry_lookup2_same.
      rewrite (decide_True (P := d ∈ d :: l ∧ _)) by (split; [by left|done]).
      case_decide; [|done]. f_equal.
      apply (refreshEntry_processed d).
    + rewrite updateTopologyEntry_lookup2_other by done.
      destruct (decide (d ∈ l ∧ src = src)) as [[Hin _]|Hn].
      * rewrite decide_True; [done|]. split; [by right|done].
      * rewrite decide_False; [done|]. intros [[?|?]%elem_of_cons _];
          [congruence|tauto].
  - rewrite !decide_False by tauto.
    destruct (decide (a = d)) as [->|Ha].
    + by rewrite updateTopologyEntry_lookup2_src.
    + by rewrite updateTopologyEntry_lookup2_other.
Qed.

(** A destination whose pair is already as the TC leaves it is skipped. *)
Lemma updateTopologyEntry_stable tt d e :
  lookup2 tt d src = Some e → refresh e = e → step tt d = tt.
Proof.
  unfold lookup2, updateTopologyEntry, refreshEntry.
  destruct (tt !! d) as [entries|] eqn:Hd; simpl; [|done].
  intros He. rewrite He. case_bool_decide; [|done].
  intros ->. by rewrite (insert_id entries), insert_id.
Qed.

Lemma updateTopologyTable_stable l tt :
  (∀ d, d ∈ l → ∃ e, lookup2 tt d src = Some e ∧ refresh e = e) →
  foldl step tt l = tt.
Proof.
  induction l as [|a l IH]; intros Hst; cbn [foldl]; [done|].
  destruct (Hst a) as (e & He & Hr); [by left|].
  rewrite (updateTopologyEntry_stable _ _ _ He Hr). apply IH.
  intros d Hd. apply Hst. by right.
Qed.

End topology_more.

(** X14: what a TC does to the topology table, pair by pair.  For a listed
    destination [d] and the TC's source, an absent pair is created with the
    TC's sequence number and the given hold, and a stored one keeps its
    fields, its hold being replaced exactly when its sequence number is
    smaller than the TC's; every other pair is as before.  So a TC never
    removes an entry and never changes a stored sequence number. *)
Theorem updateTopologyTable_pairwise msg topologyTable holdUntil d s :
  lookup2 (updateTopologyTable msg topologyTable holdUntil) d s
  = if decide (d ∈ TCMessage.ms msg ∧ s = TCMessage.src msg)
    then Some (match lookup2 topologyTable d s with
               | Some e =>
                   if bool_decide (TopologyEntry.msSeqNum e < TCMessage.seq msg)
                   then TopologyEntry.mk (TopologyEntry.dst e)
                          (TopologyEntry.dstMPR e) (TopologyEntry.msSeqNum e)
                          holdUntil
                   else e
               | None => TopologyEntry.mk d (TCMessage.src msg)
                           (TCMessage.seq msg) holdUntil
               end)
    else lookup2 topologyTable d s.
Proof.
  unfold updateTopologyTable. rewrite updateTopologyTable_lookup2_closed.
  case_decide; [|done]. by destruct (lookup2 topologyTable d s).
Qed.

(** X15: [updateTopologyTable] is idempotent: a TC processed a second time
    with the same hold leaves the whole table, emptied inner maps included,
    as the first processing left it. *)
Theorem updateTopologyTable_idempotent msg topologyTable holdUntil :
  updateTopologyTable msg (updateTopologyTable msg topologyTable holdUntil)
    holdUntil
  = updateTopologyTable msg topologyTable holdUntil.
Proof.
  unfold updateTopologyTable at 1. apply updateTopologyTable_stable.
  intros d Hd. eexists. split.
  - unfold updateTopologyTable. rewrite updateTopologyTable_lookup2_closed.
    by rewrite decide_True.
  - apply refreshEntry_processed.
Qed.

(** ** The tables along a run *)

Lemma evict_msSet n : Node.msSet (evict n) = Node.msSet n.
Proof. unfold evict. by destruct (evictNeighbors _ _ _). Qed.

Lemma emit_msSet_id n :
  Node.msSet (emit n).1 = Node.msSet n ∧ Node.id (emit n).1 = Node.id n.
Proof. destruct (emit_spec n) as [-> _]. by case_bool_decide. Qed.

Lemma handleHello_neighborsWellFormed msg n n' :
  neighborsWellFormed n → handleHello msg n = Some n' → neighborsWellFormed n'.
Proof.
  intros (Hone & Htwo & Hms) Hh.
  destruct (handleHello_oneHop_src _ _ _ Hh) as (mprs & _ & Hlook).
  apply handleHello_Some in Hh as (mprs' & _ & Hn'). split; [|split].
  - intros k e. rewrite Hlook. case_decide as Hk; simpl.
    + intros [= <-]. subst k.
      assert (OneHopNeighborEntry.neighborID
                (assignState mprs (HelloMessage.src msg)
                   (helloEntry msg
                      (add_int (Node.currentTime n) (Node.neighborHoldTime n))
                      (Node.id n)
                      (Node.oneHopNeighbors n !! HelloMessage.src msg)))
              = OneHopNeighborEntry.neighborID
                  (helloEntry msg
                     (add_int (Node.currentTime n) (Node.neighborHoldTime n))
                     (Node.id n)
                     (Node.oneHopNeighbors n !! HelloMessage.src msg))) as ->
        by (unfold assignState; by repeat case_decide).
      unfold helloEntry.
      destruct (Node.oneHopNeighbors n !! HelloMessage.src msg) as [e0|] eqn:He0;
        [|done].
      case_bool_decide; simpl; by apply Hone.
    + destruct (Node.oneHopNeighbors n !! k) as [e0|] eqn:He0; [|done]. simpl.
      intros [= <-]. rewrite <-(Hone k e0 He0).
      unfold assignState. by repeat case_decide.
  - intros k v x y. subst n'. simpl. unfold updateTwoHopNeighbors.
    destruct (decide (k = HelloMessage.src msg)) as [->|Hk].
    + rewrite lookup_insert_eq. intros [= <-]. rewrite twoHops_lookup.
      case_decide as Hx; [|done]. intros [= <-]. tauto.
    + rewrite lookup_insert_ne by done. apply Htwo.
  - intros k v. subst n'. simpl. rewrite updateMSSet_lookup.
    case_decide as Hk; [|apply Hms]. case_bool_decide; [|done].
    destruct (Node.msSet n !! k) as [v0|] eqn:Hv0; simpl; intros [= <-];
      [by apply Hms|done].
Qed.

Lemma handleTC_topologyWellFormed msg n :
  topologyWellFormed n → topologyWellFormed (handleTC msg n).1.
Proof.
  intros Hwf. unfold handleTC. case_bool_decide as Hsrc; [done|].
  intros d s e. simpl. unfold updateTopologyTable.
  rewrite updateTopologyTable_lookup2_closed. case_decide as Hds; [|apply Hwf].
  destruct Hds as [_ ->]. intros [= <-].
  destruct (lookup2 (Node.topologyTable n) d (TCMessage.src msg)) as [e0|] eqn:He0;
    simpl; [|done].
  destruct (Hwf _ _ _ He0) as (? & ? & ?). unfold refreshEntry.
  by case_bool_decide.
Qed.

Lemma handleTC_neighbors msg n :
  Node.oneHopNeighbors (handleTC msg n).1 = Node.oneHopNeighbors n ∧
  Node.twoHopNeighbors (handleTC msg n).1 = Node.twoHopNeighbors n ∧
  Node.msSet (handleTC msg n).1 = Node.msSet n ∧
  Node.id (handleTC msg n).1 = Node.id n.
Proof. unfold handleTC. by case_bool_decide. Qed.

Lemma dispatch_neighborsWellFormed incoming n n' out :
  neighborsWellFormed n → dispatch incoming n = Some (n', out) →
  neighborsWellFormed n'.
Proof.
  intros Hwf. destruct incoming as [[m|m|m|]|]; simpl; [| | |done|].
  - destruct (handleHello m n) as [n1|] eqn:Hh; [|done]. simpl.
    intros [= <- _]. by eapply handleHello_neighborsWellFormed.
  - by intros [= <- _].
  - intros [= H]. destruct (handleTC_neighbors m n) as (H1 & H2 & H3 & H4).
    rewrite H in H1, H2, H3, H4. simpl in *.
    unfold neighborsWellFormed. by rewrite H1, H2, H3, H4.
  - by intros [= <- _].
Qed.

Lemma dispatch_topologyWellFormed incoming n n' out :
  topologyWellFormed n → dispatch incoming n = Some (n', out) →
  topologyWellFormed n'.
Proof.
  intros Hwf. destruct incoming as [[m|m|m|]|]; simpl; [| | |done|].
  - intros Hh. destruct (handleHello m n) as [n1|] eqn:Hh1; [|done].
    simpl in Hh. injection Hh as <- _.
    apply handleHello_Some in Hh1 as (mprs & _ & ->). exact Hwf.
  - by intros [= <- _].
  - intros [= H]. pose proof (handleTC_topologyWellFormed m n Hwf) as Hs.
    by rewrite H in Hs.
  - by intros [= <- _].
Qed.

Lemma tick_neighborsWellFormed incoming n n' out :
  neighborsWellFormed n → tick incoming n = Some (n', out) →
  neighborsWellFormed n'.
Proof.
  intros Hwf (n1 & out1 & Hd & -> & _)%tick_Some.
  apply dispatch_neighborsWellFormed in Hd as (Hone & Htwo & Hms); [|done].
  destruct (emit_tables n1) as (E1 & E2 & _ & E4).
  destruct (emit_msSet_id n1) as [E5 E6].
  destruct (evict_fields (emit n1).1) as (F1 & _ & _ & _ & _ & F6 & F7 & _).
  destruct (evictNeighbors_spec (Node.currentTime (emit n1).1)
    (Node.oneHopNeighbors (emit n1).1) (Node.twoHopNeighbors (emit n1).1))
    as [S1 S2].
  unfold neighborsWellFormed. simpl. rewrite F1, F6, F7, evict_msSet, E5, E6.
  split; [|split; [|done]].
  - intros k e. rewrite S1, E1.
    destruct (Node.oneHopNeighbors n1 !! k) as [e0|] eqn:He0; [|done].
    case_bool_decide; [done|]. intros [= <-]. by apply Hone.
  - intros k v x y. rewrite S2, E1, E2.
    destruct (Node.oneHopNeighbors n1 !! k) as [e0|]; [|apply Htwo].
    case_bool_decide; [done|apply Htwo].
Qed.

Lemma loop_neighborsWellFormed inputs n n' out :
  neighborsWellFormed n → loop inputs n = Some (n', out) →
  neighborsWellFormed n'.
Proof.
  revert n out. induction inputs as [|incoming inputs IH]; intros n out Hwf; simpl.
  { by intros [= <- _]. }
  destruct (tick incoming n) as [[n1 out1]|] eqn:Ht; [|done]. simpl.
  destruct (loop inputs n1) as [[n2 out2]|] eqn:Hl; [|done]. simpl.
  intros [= <- _]. eapply IH; [|done]. by eapply tick_neighborsWellFormed.
Qed.

(** X16: in every state a node made by [NewNode] reaches, each one-hop
    entry carries the NodeID it is stored under, each two-hop set maps ids
    to themselves and never holds the node's own id, and the MS set maps
    ids to themselves. *)
Theorem run_neighbors_well_formed id nodeMsg inputs n out :
  run inputs (NewNode id nodeMsg) = Some (n, out) → neighborsWellFormed n.
Proof.
  apply loop_neighborsWellFormed. unfold neighborsWellFormed. simpl.
  split; [|split]; intros *; by rewrite lookup_empty.
Qed.

Lemma run_neighbors_well_formed_witness :
  (∃ n out, run helloThenQuiet (NewNode 0 exampleNodeMsg) = Some (n, out) ∧
            neighborsWellFormed n).
Proof.
  destruct (run helloThenQuiet (NewNode 0 exampleNodeMsg)) as [[n out]|] eqn:Hr.
  - exists n, out. split; [reflexivity|].
    exact (run_neighbors_well_formed 0 exampleNodeMsg helloThenQuiet n out Hr).
  - vm_compute in Hr. discriminate Hr.
Defined.

(** X17: a tick keeps the topology table well formed, whatever the hold
    times: every entry is stored under its own [dst] and [dstMPR], and the
    node never records itself as the MPR of a destination. *)
Theorem tick_topology_well_formed incoming n n' out :
  topologyWellFormed n → tick incoming n = Some (n', out) →
  topologyWellFormed n'.
Proof.
  intros Hwf (n1 & out1 & Hd & -> & _)%tick_Some.
  pose proof (dispatch_sameClock _ _ _ _ Hd) as (Hid & _).
  apply dispatch_topologyWellFormed in Hd; [|done].
  destruct (emit_tables n1) as (_ & _ & E3 & _).
  destruct (emit_msSet_id n1) as [_ E6].
  destruct (evict_fields (emit n1).1) as (F1 & _ & _ & _ & _ & _ & _ & F8).
  intros d s e. simpl. rewrite F8, F1, E6, evictTopology_lookup2, E3.
  destruct (lookup2 (Node.topologyTable n1) d s) as [e0|] eqn:He0; [|done].
  simpl. case_bool_decide; [done|]. intros [= <-]. by apply Hd.
Qed.

Lemma tick_topology_well_formed_witness :
  topologyWellFormed nodeHolding ∧
  ∃ n' out, tick (Some (TC tcFrom5)) nodeHolding = Some (n', out) ∧
            topologyWellFormed n'.
Proof.
  assert (topologyWellFormed nodeHolding) as Hwf.
  { intros d s e. unfold nodeHolding, lookup2. simpl.
    destruct (decide (d = 9%N)) as [->|Hd];
      [|by rewrite lookup_singleton_ne].
    rewrite lookup_singleton_eq. simpl.
    destruct (decide (s = 5%N)) as [->|Hs];
      [|by rewrite lookup_singleton_ne].
    rewrite lookup_singleton_eq. intros [= <-]. by repeat split. }
  split; [exact Hwf|].
  destruct (tick (Some (TC tcFrom5)) nodeHolding) as [[n' out]|] eqn:Ht.
  - exists n', out. split; [reflexivity|].
    exact (tick_topology_well_formed _ _ _ _ Hwf Ht).
  - vm_compute in Ht. discriminate Ht.
Defined.

Lemma dispatch_topologyTable incoming n n' out :
  dispatch incoming n = Some (n', out) →
  Node.topologyTable n' = Node.topologyTable n ∨
  ∃ msg, Node.topologyTable n'
         = updateTopologyTable msg (Node.topologyTable n)
             (add_int (Node.currentTime n) (Node.topologyHoldTime n)).
Proof.
  destruct incoming as [[m|m|m|]|]; simpl; [| | |done|].
  - intros Hh. destruct (handleHello m n) as [n1|] eqn:Hh1; [|done].
    simpl in Hh. injection Hh as <- _.
    apply handleHello_Some in Hh1 as (mprs & _ & ->). by left.
  - intros [= <- _]. by left.
  - unfold handleTC. case_bool_decide; intros [= <- _]; [by left|].
    right. by exists m.
  - intros [= <- _]. by left.
Qed.

(** X18: a node made by [NewNode] never holds a topology entry at the end
    of a tick: its topology hold time is 0, so whatever a TC stores expires
    in the sweep of the same tick. *)
Theorem run_topology_never_holds id nodeMsg inputs n out d s :
  run inputs (NewNode id nodeMsg) = Some (n, out) →
  lookup2 (Node.topologyTable n) d s = None.
Proof.
  unfold run.
  assert (∀ n0 : Node.t,
    Node.topologyHoldTime n0 = 0 → int_range (Node.currentTime n0) →
    (∀ d s, lookup2 (Node.topologyTable n0) d s = None) →
    loop inputs n0 = Some (n, out) →
    lookup2 (Node.topologyTable n) d s = None) as Hgen.
  { clear. revert out. induction inputs as [|incoming inputs IH];
      intros out n0 Hh Hr Hemp; simpl.
    { intros [= <- _]. apply Hemp. }
    destruct (tick incoming n0) as [[n1 out1]|] eqn:Ht; [|done]. simpl.
    destruct (loop inputs n1) as [[n2 out2]|] eqn:Hl; [|done]. simpl.
    intros [= <- _]. apply (IH out2 n1); [| | |done].
    - apply tick_fields in Ht as (_ & _ & _ & -> & _). done.
    - apply tick_fields in Ht as (_ & -> & _). apply wrap_int_range.
    - intros d' s'. apply tick_Some in Ht as (m1 & o1 & Hd & -> & _).
      pose proof (dispatch_sameClock _ _ _ _ Hd) as (_ & Hct & _ & _ & Hth).
      destruct (evict_holds (emit m1).1) as [_ Hev].
      destruct (emit_tables m1) as (_ & _ & E3 & E4).
      destruct (evict_fields (emit m1).1) as (_ & _ & _ & _ & _ & _ & _ & F8).
      simpl. destruct (lookup2 _ d' s') as [e|] eqn:He; [|done].
      specialize (Hev _ _ _ He). rewrite E4, Hct in Hev.
      rewrite F8, evictTopology_lookup2, E3 in He.
      destruct (lookup2 (Node.topologyTable m1) d' s') as [e1|] eqn:He1; [|done].
      simpl in He. case_bool_decide; [done|]. injection He as <-.
      apply dispatch_topologyTable in Hd as [Heq|[msg Heq]]; rewrite Heq in He1.
      + by rewrite Hemp in He1.
      + apply updateTopologyTable_lookup2 in He1 as [Hhold|Hold];
          [|by rewrite Hemp in Hold].
        rewrite Hh, add_int_0_r in Hhold by done. lia. }
  apply Hgen; [done|by vm_compute|].
  intros d' s'. unfold lookup2. simpl. by rewrite lookup_empty.
Qed.

Lemma run_topology_never_holds_witness :
  ∃ n out,
    run [Some (TC tcFrom5)] (NewNode 0 exampleNodeMsg) = Some (n, out) ∧
    lookup2 (Node.topologyTable n) 9 5 = None.
Proof.
  destruct (run [Some (TC tcFrom5)] (NewNode 0 exampleNodeMsg))
    as [[n out]|] eqn:Hr.
  - exists n, out. split; [reflexivity|].
    exact (run_topology_never_holds 0 exampleNodeMsg _ n out 9%N 5%N Hr).
  - vm_compute in Hr. discriminate Hr.
Defined.

(** X19: a tick without a message does nothing to the tables but age them.
    A one-hop entry stays, unchanged, exactly when its hold is above the
    clock; a two-hop set goes exactly when the one-hop entry under the same
    key goes (a set without a one-hop entry is never swept); a topology
    entry stays exactly when its hold is above the clock, and its
    destination stays a key of the table even when emptied; the MS set is
    not swept at all. *)
Theorem tick_quiet_ages_only n :
  ∃ n' out,
    tick None n = Some (n', out) ∧
    (∀ k, Node.oneHopNeighbors n' !! k
          = match Node.oneHopNeighbors n !! k with
            | Some e =>
                if bool_decide (OneHopNeighborEntry.holdUntil e
                                ≤ Node.currentTime n)
                then None else Some e
            | None => None
            end) ∧
    (∀ k, Node.twoHopNeighbors n' !! k
          = match Node.oneHopNeighbors n !! k with
            | Some e =>
                if bool_decide (OneHopNeighborEntry.holdUntil e
                                ≤ Node.currentTime n)
                then None else Node.twoHopNeighbors n !! k
            | None => Node.twoHopNeighbors n !! k
            end) ∧
    (∀ d s, lookup2 (Node.topologyTable n') d s
            = match lookup2 (Node.topologyTable n) d s with
              | Some e =>
                  if bool_decide (TopologyEntry.holdUntil e ≤ Node.currentTime n)
                  then None else Some e
              | None => None
              end) ∧
    (∀ d, is_Some (Node.topologyTable n' !! d)
          ↔ is_Some (Node.topologyTable n !! d)) ∧
    Node.msSet n' = Node.msSet n.
Proof.
  destruct (tick_total None n) as [[n' out] Ht]; [by intros [=]|].
  exists n', out. split; [done|].
  apply tick_Some in Ht as (n1 & out1 & Hd & -> & _).
  simpl in Hd. injection Hd as <- <-.
  destruct (emit_tables n) as (E1 & E2 & E3 & E4).
  destruct (emit_msSet_id n) as [E5 _].
  destruct (evict_fields (emit n).1) as (_ & _ & _ & _ & _ & F6 & F7 & F8).
  destruct (evictNeighbors_spec (Node.currentTime (emit n).1)
    (Node.oneHopNeighbors (emit n).1) (Node.twoHopNeighbors (emit n).1))
    as [S1 S2].
  simpl. rewrite F6, F7, F8, evict_msSet, E5.
  split; [|split; [|split; [|split; [|done]]]].
  - intros k. by rewrite S1, E1, E4.
  - intros k. by rewrite S2, E1, E2, E4.
  - intros d s. rewrite evictTopology_lookup2, E3, E4.
    by destruct (lookup2 (Node.topologyTable n) d s).
  - intros d. unfold evictTopology. by rewrite lookup_fmap, fmap_is_Some, E3.
Qed.

Lemma dispatch_msSet incoming n n' out k :
  dispatch incoming n = Some (n', out) →
  Node.msSet n' !! k ≠ Node.msSet n !! k →
  ∃ msg, incoming = Some (Hello msg) ∧ HelloMessage.src msg = k.
Proof.
  destruct incoming as [[m|m|m|]|]; simpl; [| | |done|].
  - intros Hh. destruct (handleHello m n) as [n1|] eqn:Hh1; [|done].
    simpl in Hh. injection Hh as <- _.
    apply handleHello_Some in Hh1 as (mprs & _ & ->). simpl.
    rewrite updateMSSet_lookup. case_decide as Hk; [|done]. eauto.
  - by intros [= <- _].
  - intros [= H]. destruct (handleTC_neighbors m n) as (_ & _ & H3 & _).
    rewrite H in H3. simpl in H3. by rewrite H3.
  - by intros [= <- _].
Qed.

(** X20: the membership of a node [k] in the MS set changes in a tick only
    when the tick handles a HELLO whose source is [k]: neither a TC, nor a
    DATA message, nor the sweeps ever add or remove an MPR selector. *)
Theorem tick_msSet_only_by_hello incoming n n' out k :
  tick incoming n = Some (n', out) →
  Node.msSet n' !! k ≠ Node.msSet n !! k →
  ∃ msg, incoming = Some (Hello msg) ∧ HelloMessage.src msg = k.
Proof.
  intros (n1 & out1 & Hd & -> & _)%tick_Some. simpl.
  destruct (emit_msSet_id n1) as [E5 _]. rewrite evict_msSet, E5.
  by apply (dispatch_msSet incoming n n1 out1).
Qed.

Lemma tick_msSet_only_by_hello_witness :
  ∃ n' out,
    tick (Some (Hello (HelloMessage.mk 1 [] [] [0%N]))) (NewNode 0 exampleNodeMsg)
    = Some (n', out) ∧
    Node.msSet n' !! 1%N ≠ Node.msSet (NewNode 0 exampleNodeMsg) !! 1%N ∧
    ∃ msg, Some (Hello (HelloMessage.mk 1 [] [] [0%N])) = Some (Hello msg) ∧
           HelloMessage.src msg = 1%N.
Proof.
  destruct (tick (Some (Hello (HelloMessage.mk 1 [] [] [0%N])))
              (NewNode 0 exampleNodeMsg)) as [[n' out]|] eqn:Ht.
  - assert (Node.msSet n' !! 1%N ≠ Node.msSet (NewNode 0 exampleNodeMsg) !! 1%N)
      as Hne.
    { vm_compute in Ht. injection Ht as <- _. vm_compute. intros H. discriminate H. }
    exists n', out. split; [reflexivity|]. split; [exact Hne|].
    exact (tick_msSet_only_by_hello _ _ _ _ 1%N Ht Hne).
  - vm_compute in Ht. discriminate Ht.
Defined.

Lemma updateTopologyEntry_keeps_key msg holdUntil tt a d :
  is_Some (tt !! d) → is_Some (updateTopologyEntry msg holdUntil tt a !! d).
Proof.
  intros Hd. destruct (decide (a = d)) as [->|Hne];
    [|by rewrite updateTopologyEntry_other].
  unfold updateTopologyEntry. destruct Hd as [entries Hd].
  rewrite Hd. destruct (entries !! TCMessage.src msg) as [e|].
  - case_bool_decide; [rewrite lookup_insert_eq|rewrite Hd]; eauto.
  - rewrite lookup_insert_eq. eauto.
Qed.

Lemma updateTopologyTable_keeps_key msg holdUntil tt d :
  is_Some (tt !! d) → is_Some (updateTopologyTable msg tt holdUntil !! d).
Proof.
  unfold updateTopologyTable. revert tt.
  induction (TCMessage.ms msg) as [|a l IH]; intros tt Hd; simpl; [done|].
  by apply IH, updateTopologyEntry_keeps_key.
Qed.

Lemma tick_keeps_destination incoming n n' out d :
  tick incoming n = Some (n', out) →
  is_Some (Node.topologyTable n !! d) → is_Some (Node.topologyTable n' !! d).
Proof.
  intros (n1 & out1 & Hd & -> & _)%tick_Some Hkey.
  destruct (emit_tables n1) as (_ & _ & E3 & _).
  destruct (evict_fields (emit n1).1) as (_ & _ & _ & _ & _ & _ & _ & F8).
  simpl. rewrite F8. unfold evictTopology. rewrite lookup_fmap, fmap_is_Some, E3.
  apply dispatch_topologyTable in Hd as [->|[msg ->]]; [done|].
  by apply updateTopologyTable_keeps_key.
Qed.

(** X21: the topology table never forgets a destination: once
    [topologyTable[d]] exists it exists after every later tick, the sweep
    deleting inside it only. *)
Theorem loop_keeps_destination inputs n n' out d :
  loop inputs n = Some (n', out) →
  is_Some (Node.topologyTable n !! d) → is_Some (Node.topologyTable n' !! d).
Proof.
  revert n out. induction inputs as [|incoming inputs IH]; intros n out; simpl.
  { by intros [= <- _]. }
  destruct (tick incoming n) as [[n1 out1]|] eqn:Ht; [|done]. simpl.
  destruct (loop inputs n1) as [[n2 out2]|] eqn:Hl; [|done]. simpl.
  intros [= <- _] Hd. eapply IH; [done|]. by eapply tick_keeps_destination.
Qed.

Lemma loop_keeps_destination_witness :
  is_Some (Node.topologyTable nodeHolding !! 9%N) ∧
  ∃ n' out,
    loop (replicate 40 None) nodeHolding = Some (n', out) ∧
    is_Some (Node.topologyTable n' !! 9%N) ∧
    lookup2 (Node.topologyTable n') 9 5 = None.
Proof.
  assert (is_Some (Node.topologyTable nodeHolding !! 9%N)) as Hd.
  { eexists. vm_compute. reflexivity. }
  split; [exact Hd|].
  destruct (loop (replicate 40 None) nodeHolding) as [[n' out]|] eqn:Hl.
  - exists n', out. split; [reflexivity|].
    split; [exact (loop_keeps_destination _ _ _ _ 9%N Hl Hd)|].
    vm_compute in Hl. injection Hl as <- _. vm_compute. reflexivity.
  - vm_compute in Hl. discriminate Hl.
Defined.

(** ** The emissions *)

Lemma helloMsgs_app out1 out2 :
  helloMsgs (out1 ++ out2) = helloMsgs out1 ++ helloMsgs out2.
Proof. unfold helloMsgs. apply omap_app. Qed.

Lemma dispatch_helloMsgs incoming n n' out :
  dispatch incoming n = Some (n', out) → helloMsgs out = [].
Proof.
  destruct incoming as [[m|m|m|]|]; simpl; [| | |done|by intros [= _ <-]].
  - destruct (handleHello m n); [|done]. simpl. by intros [= _ <-].
  - by intros [= _ <-].
  - unfold handleTC. case_bool_decide; by intros [= _ <-].
Qed.

Lemma emit_helloMsgs n :
  length (helloMsgs (emit n).2)
  = if bool_decide (mod_int (Node.currentTime n) 5 = 0) then 1%nat else 0%nat.
Proof.
  unfold emit, sendTC, sendHello. cbv zeta.
  destruct (bool_decide (mod_int (Node.currentTime n) 10 = 0));
    by destruct (bool_decide (mod_int (Node.currentTime n) 5 = 0)).
Qed.

Lemma loop_schedule inputs n n' out :
  loop inputs n = Some (n', out) →
  0 ≤ Node.currentTime n →
  Node.currentTime n + Z.of_nat (length inputs) ≤ int_max →
  Node.currentTime n' = Node.currentTime n + Z.of_nat (length inputs) ∧
  Z.of_nat (length (helloMsgs out))
  = (Node.currentTime n' + 4) `div` 5 - (Node.currentTime n + 4) `div` 5 ∧
  Z.of_nat (length (ownTCSeqs (Node.id n) out))
  = (Node.currentTime n' + 9) `div` 10 - (Node.currentTime n + 9) `div` 10.
Proof.
  revert n out. induction inputs as [|incoming inputs IH]; intros n out; simpl.
  { intros [= <- <-] _ _. simpl. split; [lia|]. split; lia. }
  destruct (tick incoming n) as [[n1 out1]|] eqn:Ht; [|done]. simpl.
  destruct (loop inputs n1) as [[n2 out2]|] eqn:Hl; [|done]. simpl.
  intros [= <- <-] H0 Hmax.
  pose proof (tick_fields _ _ _ _ Ht) as (Hid & Hct & _ & _ & _ & Hown).
  assert (Z.of_nat (length (helloMsgs out1))
          = if bool_decide (mod_int (Node.currentTime n) 5 = 0) then 1 else 0)
    as Hhello.
  { apply tick_Some in Ht as (m1 & o1 & Hd & _ & ->).
    rewrite helloMsgs_app, (dispatch_helloMsgs _ _ _ _ Hd). simpl.
    rewrite emit_helloMsgs.
    apply dispatch_sameClock in Hd as (_ & -> & _).
    destruct (bool_decide (mod_int (Node.currentTime n) 5 = 0)); reflexivity. }
  assert (add_int (Node.currentTime n) 1 = Node.currentTime n + 1) as Hadd.
  { apply wrap_int_small. unfold int_range, int_min, int_max in *. lia. }
  rewrite Hadd in Hct.
  destruct (IH n1 out2 Hl) as (Hfin & Hh & Htc); [lia|lia|].
  rewrite helloMsgs_app, ownTCSeqs_app, !length_app, !Nat2Z.inj_add.
  rewrite Hhello, Hown, <-Hid, Hh, Htc, Hfin, Hct.
  unfold mod_int. rewrite !Z.rem_mod_nonneg by lia.
  split; [lia|].
  destruct (decide (Node.currentTime n `mod` 5 = 0)) as [H5|H5];
    [rewrite (bool_decide_eq_true_2 _ H5)|rewrite (bool_decide_eq_false_2 _ H5)];
    (destruct (decide (Node.currentTime n `mod` 10 = 0)) as [H10|H10];
     [rewrite (bool_decide_eq_true_2 _ H10)
     |rewrite (bool_decide_eq_false_2 _ H10)]);
    simpl length; split; Z.div_mod_to_equations; lia.
Qed.

(** X22: the emission schedule of a node made by [NewNode]: after [k]
    ticks (at most [2^63 - 1], within the range of [int]) the clock reads
    [k], and the node has emitted one HELLO per tick divisible by 5 and one
    TC of its own per tick divisible by 10, whatever it received. *)
Theorem run_schedule id nodeMsg inputs n out :
  run inputs (NewNode id nodeMsg) = Some (n, out) →
  Z.of_nat (length inputs) ≤ int_max →
  Node.currentTime n = Z.of_nat (length inputs) ∧
  Z.of_nat (length (helloMsgs out)) = (Z.of_nat (length inputs) + 4) `div` 5 ∧
  Z.of_nat (length (ownTCSeqs id out)) = (Z.of_nat (length inputs) + 9) `div` 10.
Proof.
  unfold run. intros Hl Hmax.
  apply loop_schedule in Hl as (Hct & Hh & Htc);
    cbn [Node.currentTime Node.with_currentTime Node.id NewNode] in *; [|lia..].
  rewrite Hct in Hh, Htc. rewrite Z.add_0_l in Hct, Hh, Htc.
  change ((0 + 4) `div` 5) with 0 in Hh. change ((0 + 9) `div` 10) with 0 in Htc.
  split; [done|]. split; lia.
Qed.

Lemma run_schedule_witness :
  ∃ n out,
    run (replicate 11 None) (NewNode 0 exampleNodeMsg) = Some (n, out) ∧
    Z.of_nat (length (replicate 11 (@None Msg))) ≤ int_max ∧
    Node.currentTime n = 11 ∧
    length (helloMsgs out) = 3%nat ∧
    length (ownTCSeqs 0 out) = 2%nat.
Proof.
  assert (Z.of_nat (length (replicate 11 (@None Msg))) ≤ int_max) as Hmax.
  { vm_compute. intros H. discriminate H. }
  destruct (run (replicate 11 None) (NewNode 0 exampleNodeMsg))
    as [[n out]|] eqn:Hr.
  - exists n, out. split; [reflexivity|]. split; [exact Hmax|].
    destruct (run_schedule 0 exampleNodeMsg _ n out Hr Hmax) as (H1 & H2 & H3).
    split; [exact H1|]. split.
    + apply Nat2Z.inj. rewrite H2. reflexivity.
    + apply Nat2Z.inj. rewrite H3. reflexivity.
  - vm_compute in Hr. discriminate Hr.
Defined.

Lemma neighborsInState_elem_of s oneHop x :
  x ∈ neighborsInState s oneHop ↔
  ∃ k e, oneHop !! k = Some e ∧ OneHopNeighborEntry.state e = s ∧
         OneHopNeighborEntry.neighborID e = x.
Proof.
  unfold neighborsInState.
  match goal with |- context [foldl ?f _ _] => set (F := f) end.
  assert (∀ (l : list (NodeID * OneHopNeighborEntry.t)) acc,
            x ∈ foldl F acc l ↔
            x ∈ acc ∨ ∃ k e, (k, e) ∈ l ∧ OneHopNeighborEntry.state e = s ∧
                             OneHopNeighborEntry.neighborID e = x) as Hfold.
  { induction l as [|[k e] l IH]; intros acc; cbn [foldl].
    - split; [by left|]. intros [?|(? & ? & ?%elem_of_nil & _)]; done.
    - rewrite IH. subst F. cbv beta iota. case_decide as Hs.
      + rewrite elem_of_app, list_elem_of_singleton. split.
        * intros [[?| ->]|(k' & e' & Hin & ?)]; [by left| |].
          -- right. exists k, e. split; [by left|done].
          -- right. exists k', e'. split; [by right|done].
        * intros [?|(k' & e' & Hin & Hst & Hid)]; [by left; left|].
          apply elem_of_cons in Hin as [[= -> ->]|Hin]; [by left; right|].
          right. eauto.
      + split.
        * intros [?|(k' & e' & Hin & ?)]; [by left|].
          right. exists k', e'. split; [by right|done].
        * intros [?|(k' & e' & Hin & Hst & Hid)]; [by left|].
          apply elem_of_cons in Hin as [[= -> ->]|Hin]; [done|].
          right. eauto. }
  rewrite Hfold. split.
  - intros [?%elem_of_nil|(k & e & Hin%elem_of_map_to_list & ?)]; [done|eauto].
  - intros (k & e & Hin & ?). right. exists k, e.
    by rewrite elem_of_map_to_list.
Qed.

Lemma neighborsInState_lengths oneHop :
  (length (neighborsInState Unidirectional oneHop)
   + length (neighborsInState Bidirectional oneHop)
   + length (neighborsInState MPR oneHop))%nat
  = size oneHop.
Proof.
  rewrite <-length_map_to_list. unfold neighborsInState.
  assert (∀ (l : list (NodeID * OneHopNeighborEntry.t)) a b c,
    (length (foldl (λ acc '(_, o),
               if decide (OneHopNeighborEntry.state o = Unidirectional)
               then acc ++ [OneHopNeighborEntry.neighborID o] else acc) a l)
     + length (foldl (λ acc '(_, o),
                 if decide (OneHopNeighborEntry.state o = Bidirectional)
                 then acc ++ [OneHopNeighborEntry.neighborID o] else acc) b l)
     + length (foldl (λ acc '(_, o),
                 if decide (OneHopNeighborEntry.state o = MPR)
                 then acc ++ [OneHopNeighborEntry.neighborID o] else acc) c l))%nat
    = (length a + length b + length c + length l)%nat) as Hfold.
  { induction l as [|[k [i s h]] l IH]; intros a b c; cbn [foldl].
    - simpl. lia.
    - rewrite IH. destruct s; simpl; rewrite ?length_app; simpl; lia. }
  by rewrite Hfold.
Qed.

(** X23: the HELLO a node emits carries its id and lists the one-hop table
    by state: an id is in [unidir], [bidir] or [mpr] exactly when it is the
    [neighborID] of an entry in that state, and the three lists together
    have one element per entry of the table. *)
Theorem sendHello_partitions_neighbors n :
  ∃ hello,
    sendHello n = [Hello hello] ∧
    HelloMessage.src hello = Node.id n ∧
    (∀ s x,
       x ∈ match s with
           | Unidirectional => HelloMessage.unidir hello
           | Bidirectional => HelloMessage.bidir hello
           | MPR => HelloMessage.mpr hello
           end
       ↔ ∃ k e, Node.oneHopNeighbors n !! k = Some e ∧
                OneHopNeighborEntry.state e = s ∧
                OneHopNeighborEntry.neighborID e = x) ∧
    (length (HelloMessage.unidir hello) + length (HelloMessage.bidir hello)
     + length (HelloMessage.mpr hello))%nat
    = size (Node.oneHopNeighbors n).
Proof.
  eexists. split; [reflexivity|]. split; [done|]. split.
  - intros s x. rewrite <-neighborsInState_elem_of. by destruct s.
  - apply neighborsInState_lengths.
Qed.

Lemma sendTC_ms (msSet : gmap NodeID NodeID) :
  foldl (λ acc '(_, id), acc ++ [id]) [] (map_to_list msSet)
  = (map_to_list msSet).*2.
Proof.
  assert (∀ (l : list (NodeID * NodeID)) acc,
            foldl (λ acc '(_, id), acc ++ [id]) acc l = acc ++ l.*2) as Hfold.
  { induction l as [|[k v] l IH]; intros acc; cbn [foldl].
    - by rewrite app_nil_r.
    - rewrite IH. by rewrite <-app_assoc. }
  by rewrite Hfold.
Qed.

(** X24: the TC a node emits is its own ([src] and [fromnbr] are its id),
    is numbered by the counter, and lists the values of the MS set, one per
    selector; when the MS set maps ids to themselves (as the HELLO handler
    fills it) the list holds each MPR selector exactly once and nothing
    else.  Nothing of the node changes but the counter. *)
Theorem sendTC_lists_selectors n :
  ∃ tc,
    sendTC n
    = (Node.with_tcSequenceNum (add_int (Node.tcSequenceNum n) 1) n, [TC tc]) ∧
    TCMessage.src tc = Node.id n ∧
    TCMessage.fromnbr tc = Node.id n ∧
    TCMessage.seq tc = Node.tcSequenceNum n ∧
    (∀ x, x ∈ TCMessage.ms tc ↔ ∃ k, Node.msSet n !! k = Some x) ∧
    length (TCMessage.ms tc) = size (Node.msSet n) ∧
    ((∀ k v, Node.msSet n !! k = Some v → v = k) →
     NoDup (TCMessage.ms tc) ∧
     ∀ x, x ∈ TCMessage.ms tc ↔ is_Some (Node.msSet n !! x)).
Proof.
  eexists. split; [reflexivity|]. cbn [TCMessage.src TCMessage.fromnbr
    TCMessage.seq TCMessage.ms]. rewrite sendTC_ms.
  split; [done|]. split; [done|]. split; [done|].
  assert (∀ x, x ∈ (map_to_list (Node.msSet n)).*2
               ↔ ∃ k, Node.msSet n !! k = Some x) as Hin.
  { intros x. rewrite list_elem_of_fmap. split.
    - intros ([k v] & -> & Hkv%elem_of_map_to_list). eauto.
    - intros [k Hk]. exists (k, x). by rewrite elem_of_map_to_list. }
  split; [done|]. split; [by rewrite length_fmap, length_map_to_list|].
  intros Hid.
  assert ((map_to_list (Node.msSet n)).*2 = (map_to_list (Node.msSet n)).*1)
    as Heq.
  { apply list_fmap_ext. intros i [k v] Hkv. simpl.
    apply list_elem_of_lookup_2, elem_of_map_to_list in Hkv. by apply Hid. }
  split.
  - rewrite Heq. apply NoDup_fst_map_to_list.
  - intros x. rewrite Hin. split.
    + intros [k Hk]. by rewrite <-(Hid _ _ Hk) in Hk.
    + intros [v Hv]. exists x. by rewrite (Hid _ _ Hv) in Hv.
Qed.

Lemma sendTC_lists_selectors_witness :
  (∀ k v, Node.msSet (Node.with_msSet {[ 4%N := 4%N; 7%N := 7%N ]} nodeKnowing1)
            !! k = Some v → v = k) ∧
  ∃ tc,
    sendTC (Node.with_msSet {[ 4%N := 4%N; 7%N := 7%N ]} nodeKnowing1)
    = (Node.with_tcSequenceNum 1
         (Node.with_msSet {[ 4%N := 4%N; 7%N := 7%N ]} nodeKnowing1), [TC tc]) ∧
    NoDup (TCMessage.ms tc) ∧
    ∀ x, x ∈ TCMessage.ms tc ↔ is_Some (({[ 4%N := 4%N; 7%N := 7%N ]}
                                           : gmap NodeID NodeID) !! x).
Proof.
  assert (∀ k v,
            Node.msSet (Node.with_msSet {[ 4%N := 4%N; 7%N := 7%N ]} nodeKnowing1)
              !! k = Some v → v = k) as Hid.
  { intros k v. simpl.
    destruct (decide (k = 4%N)) as [->|H4];
      [rewrite lookup_insert_eq; congruence|].
    rewrite lookup_insert_ne by done.
    destruct (decide (k = 7%N)) as [->|H7];
      [rewrite lookup_singleton_eq; congruence|].
    by rewrite lookup_singleton_ne. }
  split; [exact Hid|].
  destruct (sendTC_lists_selectors
              (Node.with_msSet {[ 4%N := 4%N; 7%N := 7%N ]} nodeKnowing1))
    as (tc & Hs & _ & _ & _ & _ & _ & Hnd).
  exists tc. split; [exact Hs|]. exact (Hnd Hid).
Defined.

(** * The message codec: facts *)

Lemma allChars_app P a b : allChars P (a +:+ b) = allChars P a && allChars P b.
Proof. induction a as [|c a IH]; simpl; [done|]. by rewrite IH, andb_assoc. Qed.

(** A string cut at the first occurrence of a character is cut in one way
    only. *)
Lemma split_unique P c a b r1 r2 :
  P c = false → allChars P a = true → allChars P b = true →
  a +:+ String c r1 = b +:+ String c r2 → a = b ∧ r1 = r2.
Proof.
  intros Hc. revert b. induction a as [|x a IH]; intros [|y b]; simpl.
  - intros _ _ [= ->]. done.
  - intros _ [Hy _]%andb_prop [= <- _]. congruence.
  - intros [Hx _]%andb_prop _ [= -> _]. congruence.
  - intros [_ Ha]%andb_prop [_ Hb]%andb_prop [= -> Heq].
    destruct (IH b Ha Hb Heq) as [-> ->]. done.
Qed.

Lemma split_absent P c a b r :
  P c = false → allChars P b = true → a +:+ String c r ≠ b.
Proof.
  intros Hc Hb <-. rewrite allChars_app in Hb. simpl in Hb.
  rewrite Hc in Hb. by destruct (allChars P a).
Qed.

Lemma allChars_weaken (P Q : ascii → bool) s :
  (∀ c, P c = true → Q c = true) → allChars P s = true → allChars Q s = true.
Proof.
  intros HPQ. induction s as [|c s IH]; simpl; [done|].
  intros [Hc Hs]%andb_prop. by rewrite (HPQ c Hc), IH.
Qed.

Lemma isNumeric_pretty_N_char x : isNumeric (pretty_N_char x) = true.
Proof. unfold pretty_N_char. by repeat case_match. Qed.

Lemma allChars_pretty_N_go x s :
  allChars isNumeric s = true → allChars isNumeric (pretty_N_go x s) = true.
Proof.
  revert s. induction (N.lt_wf_0 x) as [x _ IH]; intros s Hs.
  destruct (decide (x = 0%N)) as [->|Hx]; [by rewrite pretty_N_go_0|].
  rewrite pretty_N_go_step by lia. apply IH.
  - apply N.div_lt; lia.
  - simpl. by rewrite isNumeric_pretty_N_char, Hs.
Qed.

Lemma pretty_N_go_nonempty x s : s ≠ "" → pretty_N_go x s ≠ "".
Proof.
  revert s. induction (N.lt_wf_0 x) as [x _ IH]; intros s Hs.
  destruct (decide (x = 0%N)) as [->|Hx]; [by rewrite pretty_N_go_0|].
  rewrite pretty_N_go_step by lia. apply IH; [apply N.div_lt; lia|done].
Qed.

Lemma allChars_pretty_N (x : N) : allChars isNumeric (pretty x) = true.
Proof.
  unfold pretty, pretty_N. case_decide; [done|]. by apply allChars_pretty_N_go.
Qed.

Lemma pretty_N_nonempty (x : N) : pretty x ≠ "".
Proof.
  unfold pretty, pretty_N. case_decide as Hx; [done|].
  rewrite pretty_N_go_step by lia. by apply pretty_N_go_nonempty.
Qed.

Lemma allChars_pretty_Z (z : Z) : allChars isNumeric (pretty z) = true.
Proof.
  destruct z as [|p|p]; [done|apply (allChars_pretty_N (N.pos p))|].
  unfold pretty, pretty_Z. simpl. apply (allChars_pretty_N (N.pos p)).
Qed.

Lemma pretty_Z_nonempty (z : Z) : pretty z ≠ "".
Proof.
  destruct z as [|p|p]; [done|apply (pretty_N_nonempty (N.pos p))|done].
Qed.

Lemma isNumeric_isListChar c : isNumeric c = true → isListChar c = true.
Proof. unfold isListChar. by intros ->. Qed.

Lemma separatedString_cons_cons x y items sep :
  separatedString (x :: y :: items) sep
  = Itoa (intOfNodeID x) +:+ sep +:+ separatedString (y :: items) sep.
Proof. done. Qed.

Lemma allChars_separatedString items :
  allChars isListChar (separatedString items " ") = true.
Proof.
  induction items as [|x items IH]; [done|].
  assert (allChars isListChar (Itoa (intOfNodeID x)) = true) as Hx.
  { apply (allChars_weaken isNumeric); [apply isNumeric_isListChar|].
    apply allChars_pretty_Z. }
  destruct items as [|y items]; [done|].
  rewrite separatedString_cons_cons, !allChars_app, Hx, IH. done.
Qed.

Lemma wrap_int_inj a b :
  0 ≤ a < 2 ^ 64 → 0 ≤ b < 2 ^ 64 → wrap_int a = wrap_int b → a = b.
Proof.
  unfold wrap_int. intros Ha Hb Heq.
  pose proof (Z.div_mod (a + 2 ^ 63) (2 ^ 64)).
  pose proof (Z.div_mod (b + 2 ^ 63) (2 ^ 64)).
  pose proof (Z.mod_pos_bound (a + 2 ^ 63) (2 ^ 64)).
  pose proof (Z.mod_pos_bound (b + 2 ^ 63) (2 ^ 64)).
  lia.
Qed.

Lemma intOfNodeID_inj x y :
  (x < 2 ^ 64)%N → (y < 2 ^ 64)%N → intOfNodeID x = intOfNodeID y → x = y.
Proof.
  unfold intOfNodeID. intros Hx Hy Heq.
  apply wrap_int_inj in Heq; lia.
Qed.

(** X25: [separatedString] with a space loses nothing: two lists of ids
    (within the 64 bits of [NodeID]) that render alike are the same list. *)
Theorem separatedString_inj items1 items2 :
  uintRange items1 → uintRange items2 →
  separatedString items1 " " = separatedString items2 " " →
  items1 = items2.
Proof.
  unfold uintRange. intros H1. revert items2.
  induction H1 as [|x items1 Hx H1 IH]; intros items2 H2;
    destruct H2 as [|y items2 Hy H2].
  - done.
  - intros Heq. exfalso. destruct items2 as [|y' items2].
    + by apply (pretty_Z_nonempty (intOfNodeID y)).
    + rewrite separatedString_cons_cons in Heq.
      destruct (Itoa (intOfNodeID y)); discriminate Heq.
  - intros Heq. exfalso. destruct items1 as [|x' items1].
    + by apply (pretty_Z_nonempty (intOfNodeID x)).
    + rewrite separatedString_cons_cons in Heq.
      destruct (Itoa (intOfNodeID x)); discriminate Heq.
  - destruct items1 as [|x' items1], items2 as [|y' items2];
      rewrite ?separatedString_cons_cons.
    + intros Heq. change (pretty (intOfNodeID x) = pretty (intOfNodeID y)) in Heq.
      apply (inj pretty) in Heq.
      by rewrite (intOfNodeID_inj x y Hx Hy Heq).
    + intros Heq. symmetry in Heq.
      change (separatedString [x] " ") with (pretty (intOfNodeID x)) in Heq.
      by apply (split_absent isNumeric) in Heq; [| |apply allChars_pretty_Z].
    + intros Heq.
      change (separatedString [y] " ") with (pretty (intOfNodeID y)) in Heq.
      by apply (split_absent isNumeric) in Heq; [| |apply allChars_pretty_Z].
    + intros Heq.
      apply (split_unique isNumeric) in Heq as [Hxy Hrest];
        [|done|apply allChars_pretty_Z..].
      apply (inj pretty) in Hxy.
      rewrite (intOfNodeID_inj x y Hx Hy Hxy). f_equal. by apply IH.
Qed.

Lemma separatedString_inj_witness :
  uintRange [3%N; 14%N] ∧ uintRange [3%N; 14%N] ∧
  separatedString [3%N; 14%N] " " = "3 14" ∧
  [3%N; 14%N] = [3%N; 14%N].
Proof.
  assert (uintRange [3%N; 14%N]) as Hr by (repeat constructor).
  assert (separatedString [3%N; 14%N] " " = separatedString [3%N; 14%N] " ")
    as Heq by reflexivity.
  split; [exact Hr|]. split; [exact Hr|]. split; [reflexivity|].
  exact (separatedString_inj [3%N; 14%N] [3%N; 14%N] Hr Hr Heq).
Defined.

Lemma String_app_cons x (a b : string) : String x a +:+ b = String x (a +:+ b).
Proof. done. Qed.

Lemma String_app_nil (b : string) : "" +:+ b = b.
Proof. done. Qed.

Lemma string_app_assoc (a b c : string) : (a +:+ b) +:+ c = a +:+ (b +:+ c).
Proof.
  induction a as [|x a IH]; [done|]. by rewrite !String_app_cons, IH.
Qed.

Lemma String_tail_inj c r1 r2 : String c r1 = String c r2 → r1 = r2.
Proof. by intros [= ->]. Qed.

(** A list rendering followed by a space and a letter is cut at the letter
    in one way only. *)
Lemma split_after_list c a b r1 r2 :
  isListChar c = false →
  allChars isListChar a = true → allChars isListChar b = true →
  a +:+ String " " (String c r1) = b +:+ String " " (String c r2) →
  a = b ∧ r1 = r2.
Proof.
  intros Hc Ha Hb Heq.
  change (a +:+ String " " (String c r1)) with (a +:+ (" " +:+ String c r1)) in Heq.
  change (b +:+ String " " (String c r2)) with (b +:+ (" " +:+ String c r2)) in Heq.
  rewrite <-!string_app_assoc in Heq.
  apply (split_unique isListChar) in Heq as [Hab ->];
    [|done|by rewrite allChars_app, ?Ha, ?Hb..].
  split; [|done]. revert b Hab Ha Hb. clear.
  induction a as [|x a IH]; intros [|y b]; simpl; try done.
  - intros [= <- Hb]. by destruct b.
  - intros [= -> Ha]. by destruct a.
  - intros [= -> Hab] [_ Ha]%andb_prop [_ Hb]%andb_prop. f_equal. by apply IH.
Qed.

(** X26: the wire form of a HELLO determines the message: two HELLOs whose
    listed ids fit a [NodeID] and that print alike are equal. *)
Theorem HelloMessage_String_inj m1 m2 :
  uintRange (HelloMessage.unidir m1 ++ HelloMessage.bidir m1 ++ HelloMessage.mpr m1) →
  uintRange (HelloMessage.unidir m2 ++ HelloMessage.bidir m2 ++ HelloMessage.mpr m2) →
  HelloMessage_String m1 = HelloMessage_String m2 → m1 = m2.
Proof.
  destruct m1 as [s1 u1 b1 p1], m2 as [s2 u2 b2 p2].
  unfold uintRange, HelloMessage_String. cbn [HelloMessage.src HelloMessage.unidir
    HelloMessage.bidir HelloMessage.mpr].
  rewrite !Forall_app. intros (Hu1 & Hb1 & Hp1) (Hu2 & Hb2 & Hp2) Heq.
  apply (inj (String.append "* ")) in Heq.
  rewrite !String_app_cons, !String_app_nil in Heq.
  apply (split_unique isNumeric) in Heq as [Hs Heq];
    [|done|apply allChars_pretty_N..].
  apply (inj pretty) in Hs. subst s2.
  do 13 apply String_tail_inj in Heq.
  apply (split_after_list "B") in Heq as [Hu Heq];
    [|done|apply allChars_separatedString..].
  do 5 apply String_tail_inj in Heq.
  apply (split_after_list "M") in Heq as [Hb Heq];
    [|done|apply allChars_separatedString..].
  do 3 apply String_tail_inj in Heq.
  apply separatedString_inj in Hu, Hb, Heq; try done. by subst.
Qed.

Lemma HelloMessage_String_inj_witness :
  uintRange (HelloMessage.unidir helloFrom1 ++ HelloMessage.bidir helloFrom1
             ++ HelloMessage.mpr helloFrom1) ∧
  HelloMessage_String helloFrom1 = "* 1 HELLO UNIDIR  BIDIR 0 2 MPR " ∧
  helloFrom1 = helloFrom1.
Proof.
  assert (uintRange (HelloMessage.unidir helloFrom1 ++ HelloMessage.bidir helloFrom1
                     ++ HelloMessage.mpr helloFrom1)) as Hr
    by (repeat constructor).
  split; [exact Hr|]. split; [reflexivity|].
  exact (HelloMessage_String_inj helloFrom1 helloFrom1 Hr Hr eq_refl).
Defined.

(** X27: the wire form of a TC determines the message, for ids in [ms] that
    fit a [NodeID]. *)
Theorem TCMessage_String_inj m1 m2 :
  uintRange (TCMessage.ms m1) → uintRange (TCMessage.ms m2) →
  TCMessage_String m1 = TCMessage_String m2 → m1 = m2.
Proof.
  destruct m1 as [s1 f1 q1 l1], m2 as [s2 f2 q2 l2].
  unfold TCMessage_String. cbn [TCMessage.src TCMessage.fromnbr TCMessage.seq
    TCMessage.ms]. intros Hl1 Hl2 Heq.
  apply (inj (String.append "* ")) in Heq.
  rewrite !String_app_cons, !String_app_nil in Heq.
  apply (split_unique isNumeric) in Heq as [Hf Heq];
    [|done|apply allChars_pretty_N..].
  do 3 apply String_tail_inj in Heq.
  apply (split_unique isNumeric) in Heq as [Hs Heq];
    [|done|apply allChars_pretty_N..].
  apply (split_unique isNumeric) in Heq as [Hq Heq];
    [|done|apply allChars_pretty_Z..].
  do 3 apply String_tail_inj in Heq.
  apply (inj pretty) in Hf, Hs, Hq. apply separatedString_inj in Heq; try done.
  by subst.
Qed.

Lemma TCMessage_String_inj_witness :
  uintRange (TCMessage.ms tcFrom5) ∧
  TCMessage_String tcFrom5 = "* 5 TC 5 7 MS 9" ∧
  tcFrom5 = tcFrom5.
Proof.
  assert (uintRange (TCMessage.ms tcFrom5)) as Hr by (repeat constructor).
  split; [exact Hr|]. split; [reflexivity|].
  exact (TCMessage_String_inj tcFrom5 tcFrom5 Hr Hr eq_refl).
Defined.

(** X28: the wire form of a DATA message determines the message, whatever
    the payload holds. *)
Theorem DataMessage_String_inj m1 m2 :
  DataMessage_String m1 = DataMessage_String m2 → m1 = m2.
Proof.
  destruct m1 as [s1 d1 n1 f1 x1], m2 as [s2 d2 n2 f2 x2].
  unfold DataMessage_String. cbn [DataMessage.src DataMessage.dst
    DataMessage.nxtHop DataMessage.fromnbr DataMessage.data].
  rewrite !String_app_cons, !String_app_nil. intros Heq.
  apply (split_unique isNumeric) in Heq as [Hn Heq];
    [|done|apply allChars_pretty_N..].
  apply (split_unique isNumeric) in Heq as [Hf Heq];
    [|done|apply allChars_pretty_N..].
  do 5 apply String_tail_inj in Heq.
  apply (split_unique isNumeric) in Heq as [Hs Heq];
    [|done|apply allChars_pretty_N..].
  apply (split_unique isNumeric) in Heq as [Hd Heq];
    [|done|apply allChars_pretty_N..].
  apply (inj pretty) in Hn, Hf, Hs, Hd. by subst.
Qed.

Lemma DataMessage_String_inj_witness :
  DataMessage_String (DataMessage.mk 0 2 1 0 "(0 -> 2)") = "1 0 DATA 0 2 (0 -> 2)" ∧
  DataMessage.mk 0 2 1 0 "(0 -> 2)" = DataMessage.mk 0 2 1 0 "(0 -> 2)".
Proof.
  split; [reflexivity|].
  exact (DataMessage_String_inj _ _ eq_refl).
Defined.

(** X29: an id of the upper half of the [uint] range is printed in a list
    as a negative number, the conversion [int(item)] wrapping around, while
    [%d] prints the same id unsigned as the source of a message. *)
Theorem separatedString_wraps_large_ids item sep :
  (2 ^ 63 ≤ item < 2 ^ 64)%N →
  separatedString [item] sep = "-" +:+ pretty (2 ^ 64 - item)%N.
Proof.
  intros Hr. unfold separatedString. cbn [fmap list_fmap String.concat].
  unfold Itoa, intOfNodeID.
  assert (wrap_int (Z.of_N item) = Z.of_N item - 2 ^ 64) as ->.
  { unfold wrap_int.
    replace (Z.of_N item + 2 ^ 63) with (Z.of_N item - 2 ^ 63 + 1 * 2 ^ 64) by lia.
    rewrite Z.mod_add by lia. rewrite Z.mod_small by lia. lia. }
  destruct (Z.of_N item - 2 ^ 64) as [|p|p] eqn:Hz; [lia|lia|].
  unfold pretty at 1, pretty_Z. f_equal.
  change (pretty p) with (pretty (N.pos p)). f_equal. lia.
Qed.

Lemma separatedString_wraps_large_ids_witness :
  (2 ^ 63 ≤ 2 ^ 64 - 1 < 2 ^ 64)%N ∧
  separatedString [(2 ^ 64 - 1)%N] " " = "-1".
Proof.
  assert ((2 ^ 63 ≤ 2 ^ 64 - 1 < 2 ^ 64)%N) as Hr.
  { split; [intros H; vm_compute in H; discriminate H|reflexivity]. }
  split; [exact Hr|].
  exact (separatedString_wraps_large_ids (2 ^ 64 - 1)%N " " Hr).
Defined.

(** ** The properties above at concrete inputs *)

Lemma calculateMPRs_changes_states_only_witness :
  coverOneHop !! 1%N = Some (entry 1 Bidirectional 20) ∧
  ∃ oneHop' e',
    calculateMPRs coverOneHop coverTwoHop = Some oneHop' ∧
    oneHop' !! 1%N = Some e' ∧
    OneHopNeighborEntry.neighborID e' = 1%N ∧
    OneHopNeighborEntry.holdUntil e' = 20 ∧
    (OneHopNeighborEntry.state e' = MPR → is_Some (coverTwoHop !! 1%N)).
Proof.
  assert (coverOneHop !! 1%N = Some (entry 1 Bidirectional 20)) as He
    by (vm_compute; reflexivity).
  split; [exact He|].
  destruct (calculateMPRs_changes_states_only coverOneHop coverTwoHop)
    as (oneHop' & Hc & _ & Hent).
  assert (oneHop' !! 1%N = Some (entry 1 MPR 20)) as He'.
  { vm_compute in Hc. injection Hc as <-. vm_compute. reflexivity. }
  destruct (Hent 1%N _ _ He He') as (H1 & H2 & _ & H4).
  exists oneHop', (entry 1 MPR 20). split; [exact Hc|]. split; [exact He'|].
  split; [exact H1|]. split; [exact H2|]. exact H4.
Defined.

Lemma handleHello_msSet_witness :
  Node.msSet nodeKnowing1 !! 1%N = None ∧
  Node.id nodeKnowing1 ∈ HelloMessage.mpr (HelloMessage.mk 1 [] [] [0%N]) ∧
  ∃ n', handleHello (HelloMessage.mk 1 [] [] [0%N]) nodeKnowing1 = Some n' ∧
        Node.msSet n' !! 1%N = Some 1%N.
Proof.
  assert (Node.msSet nodeKnowing1 !! 1%N = None) as Hn by reflexivity.
  assert (Node.id nodeKnowing1 ∈ HelloMessage.mpr (HelloMessage.mk 1 [] [] [0%N]))
    as Hin by (simpl; apply list_elem_of_here).
  split; [exact Hn|]. split; [exact Hin|].
  destruct (handleHello_msSet (HelloMessage.mk 1 [] [] [0%N]) nodeKnowing1)
    as (n' & Hh & _ & Hnew & _).
  exists n'. split; [exact Hh|]. exact (Hnew Hn Hin).
Defined.

Lemma handleHello_source_entry_witness :
  Node.oneHopNeighbors nodeKnowing1 !! HelloMessage.src helloFrom1
  = Some (entry 1 Unidirectional 15) ∧
  Node.id nodeKnowing1 ∈ HelloMessage.unidir helloFrom1 ++
                         (HelloMessage.bidir helloFrom1 ++
                          HelloMessage.mpr helloFrom1) ∧
  ∃ n' e,
    handleHello helloFrom1 nodeKnowing1 = Some n' ∧
    Node.oneHopNeighbors n' !! HelloMessage.src helloFrom1 = Some e ∧
    OneHopNeighborEntry.state e ≠ Unidirectional.
Proof.
  assert (Node.oneHopNeighbors nodeKnowing1 !! HelloMessage.src helloFrom1
          = Some (entry 1 Unidirectional 15)) as He0 by (vm_compute; reflexivity).
  assert (Node.id nodeKnowing1 ∈ HelloMessage.unidir helloFrom1 ++
                                 (HelloMessage.bidir helloFrom1 ++
                                  HelloMessage.mpr helloFrom1)) as Hin
    by (simpl; apply list_elem_of_here).
  split; [exact He0|]. split; [exact Hin|].
  destruct (handleHello_source_entry helloFrom1 nodeKnowing1)
    as (n' & e & Hh & He & _ & _ & Hknown).
  exists n', e. split; [exact Hh|]. split; [exact He|].
  exact (proj1 (proj2 (Hknown _ He0)) Hin).
Defined.

Lemma handleHello_frame_witness :
  2%N ≠ HelloMessage.src helloFrom1 ∧
  Node.oneHopNeighbors nodeKnowing1 !! 2%N = None ∧
  ∃ n', handleHello helloFrom1 nodeKnowing1 = Some n' ∧
        Node.oneHopNeighbors n' !! 2%N = None.
Proof.
  assert (2%N ≠ HelloMessage.src helloFrom1) as Hne by (intros H; discriminate H).
  assert (Node.oneHopNeighbors nodeKnowing1 !! 2%N = None) as Hn
    by (vm_compute; reflexivity).
  split; [exact Hne|]. split; [exact Hn|].
  destruct (handleHello_frame helloFrom1 nodeKnowing1)
    as (n' & Hh & _ & _ & _ & _ & _ & _ & _ & Hnone & _).
  exists n'. split; [exact Hh|]. exact (Hnone 2%N Hne Hn).
Defined.

Lemma tick_quiet_ages_only_witness :
  ∃ n' out,
    tick None nodeHolding = Some (n', out) ∧
    (is_Some (Node.topologyTable nodeHolding !! 9%N) →
     is_Some (Node.topologyTable n' !! 9%N)).
Proof.
  destruct (tick_quiet_ages_only nodeHolding)
    as (n' & out & Ht & _ & _ & _ & Hkeys & _).
  exists n', out. split; [exact Ht|]. exact (proj2 (Hkeys 9%N)).
Defined.

Lemma sendHello_partitions_neighbors_witness :
  (∃ k e, Node.oneHopNeighbors nodeKnowing1 !! k = Some e ∧
          OneHopNeighborEntry.state e = Unidirectional ∧
          OneHopNeighborEntry.neighborID e = 1%N) ∧
  ∃ hello, sendHello nodeKnowing1 = [Hello hello] ∧
           1%N ∈ HelloMessage.unidir hello.
Proof.
  assert (∃ k e, Node.oneHopNeighbors nodeKnowing1 !! k = Some e ∧
                 OneHopNeighborEntry.state e = Unidirectional ∧
                 OneHopNeighborEntry.neighborID e = 1%N) as Hex.
  { exists 1%N, (entry 1 Unidirectional 15).
    split; [vm_compute; reflexivity|]. split; reflexivity. }
  split; [exact Hex|].
  destruct (sendHello_partitions_neighbors nodeKnowing1)
    as (hello & Hs & _ & Hin & _).
  exists hello. split; [exact Hs|].
  exact (proj2 (Hin Unidirectional 1%N) Hex).
Defined.


